(** * MapColumn: the MAP column of the vectorized backend

    A shallow embedding of [be/src/column/map_column.cpp].  A MAP column keeps
    all keys and all values of all rows in two child columns and delimits the
    rows with an offset buffer of [uint32_t]:  row [i] owns the child elements
    from [offsets[i]] up to [offsets[i+1]] excluded.

    Conventions of the embedding:
    - row indices and row counts ([size_t idx, from, to, offset, count]) are
      natural numbers, they index vectors directly;
    - every value stored in the offset buffer is a [uint32_t], modelled in [Z]
      with the conversion [u32] written where the C++ narrows or wraps;
      [size_t] arithmetic on such values is written with [u64] and the
      conversion to [int32_t] with [i32];
    - reading a vector out of range is undefined behaviour in the source; the
      model reads [0] there and the theorems carry the range preconditions;
    - byte buffers are lists of bytes (integers in [0, 256)); a pointer into a
      buffer is the list of bytes that starts at it. *)

From Stdlib Require Import Ascii.
From stdpp Require Import base numbers list gmap strings.

Local Open Scope Z_scope.

(** ** Machine integers *)

(** Conversion to [uint32_t]. *)
Definition u32 (x : Z) : Z := x mod 2 ^ 32.

(** Conversion to [size_t] (64 bits). *)
Definition u64 (x : Z) : Z := x mod 2 ^ 64.

(** Conversion to [int32_t] (two's complement). *)
Definition i32 (x : Z) : Z := (x + 2 ^ 31) mod 2 ^ 32 - 2 ^ 31.

(** [v[i]] on a [Buffer<uint32_t>]. *)
Definition at_ (v : list Z) (i : nat) : Z := default 0 (v !! i).

(** [v.back()]. *)
Definition back (v : list Z) : Z := default 0 (last v).

(** [memset(p + start, c, n)] on a byte vector. *)
Definition memset (v : list Z) (start : Z) (c : Z) (n : Z) : list Z :=
  list_inserts (Z.to_nat start) (replicate (Z.to_nat n) c) v.

(** [memcpy(pos, &x, sizeof(uint32_t))] on a little-endian machine. *)
Definition encode_u32 (x : Z) : list Z :=
  [x mod 256; (x / 256) mod 256; (x / 65536) mod 256; (x / 16777216) mod 256].

(** [memcpy(&x, pos, sizeof(uint32_t))] on a little-endian machine. *)
Definition decode_u32 (pos : list Z) : Z :=
  at_ pos 0 + 256 * at_ pos 1 + 65536 * at_ pos 2 + 16777216 * at_ pos 3.

(** ** Status and StatusOr *)

Inductive StatusOr (A : Type) : Type :=
  | StatusOk (v : A)
  | InternalError (msg : string).
Arguments StatusOk {A} v.
Arguments InternalError {A} msg.

Definition ok {A} (r : StatusOr A) : bool :=
  match r with StatusOk _ => true | InternalError _ => false end.

(** ** The child columns

    The key and value children are nullable columns whose implementation
    ([column/nullable_column.cpp], [column/fixed_length_column.h]) is not part
    of the sources at hand.  A nullable column over the element type [T] is
    the list of its elements, [None] for a null element. *)

(** Modelled from the spec: the per-element wire format of a child column
    (section 4.5, "each key/value serialized by its own column's
    self-describing routine"); [column/nullable_column.cpp] is missing.
    [encode x] are the bytes that the child's [serialize] writes for the
    element [x], [decode] reads one element back and returns the rest. *)
Class Codec (T : Type) := {
  encode : option T → list Z;
  decode : list Z → option T * list Z;
  decode_encode : ∀ x rest, decode (encode x ++ rest) = (x, rest)
}.

Module NullableColumn.
Section ops.
Context {T : Type}.

(** Modelled from the spec: [size()] of a child column (section 3, "exactly
    offsets.back() elements"); the child implementation is missing. *)
Definition size (c : list (option T)) : Z := Z.of_nat (length c).

(** Modelled from the spec: the child's [append(src, offset, count)] of the
    capability contract (section 6), a copy of the element range
    [offset, offset + count) of [src]; the child implementation is missing. *)
Definition append (c src : list (option T)) (offset count : Z) : list (option T) :=
  c ++ take (Z.to_nat count) (drop (Z.to_nat offset) src).

(** Modelled from the spec: the child's [append_datum] (section 4.2), one more
    element; the child implementation is missing. *)
Definition append_datum (c : list (option T)) (d : option T) : list (option T) :=
  c ++ [d].

(** Modelled from the spec: the child's [resize(n)] (section 4.1), truncation
    or padding with non-null default elements; the child implementation is
    missing. *)
Definition resize `{!Inhabited T} (c : list (option T)) (n : Z) : list (option T) :=
  take (Z.to_nat n) c ++ replicate (Z.to_nat n - length c)%nat (Some inhabitant).

(** The elements of [l] whose mask byte is non-zero. *)
Definition select {A} (mask : list Z) (l : list A) : list A :=
  (filter (λ p, p.2 ≠ 0) (zip l mask)).*1.

(** Modelled from the spec: the child's [filter_range(filter, from, to)]
    (section 4.4, "their own range-filter operation bounded to
    [elements_start, elements_end)"): the elements before [from] stay, those of
    [from, to) whose filter byte is non-zero are compacted behind them, the
    column is resized to that length, which is returned; the child
    implementation is missing. *)
Definition filter_range (c : list (option T)) (filter : list Z) (from to : Z)
  : list (option T) * Z :=
  let from' := Z.to_nat from in
  let to' := Z.to_nat to in
  let r := take from' c ++
           select (drop from' filter) (take (to' - from') (drop from' c)) in
  (r, size r).

(** Modelled from the spec: the child's [update_rows(src, indexes)] (section
    4.3, "the children's own row-update operation at those element indices"):
    element [i] of [src] replaces the element at [indexes[i]]; the child
    implementation is missing. *)
Definition update_rows (c src : list (option T)) (indexes : list Z) : list (option T) :=
  foldl (λ acc p, <[Z.to_nat p.1 := p.2]> acc) c (zip indexes src).

(** Modelled from the spec: element access of the nullable wrapper (section
    6, "the container queries null status per element index"); the child
    implementation is missing.  [get] is the datum at [i] ([None] for null). *)
Definition get (c : list (option T)) (i : Z) : option T :=
  mjoin (c !! Z.to_nat i).

Definition is_null (c : list (option T)) (i : Z) : bool :=
  match c !! Z.to_nat i with Some (Some _) => false | _ => true end.

(** Modelled from the spec: the child's [serialize(idx, pos)] (section 4.5):
    the bytes written at [pos] and the returned byte count; the child
    implementation is missing. *)
Definition serialize `{!Codec T} (c : list (option T)) (idx : Z) : list Z * Z :=
  let bytes := encode (get c idx) in (bytes, u32 (Z.of_nat (length bytes))).

(** Modelled from the spec: the child's [serialize_size(idx)] (section 4.5);
    the child implementation is missing. *)
Definition serialize_size `{!Codec T} (c : list (option T)) (idx : Z) : Z :=
  u32 (Z.of_nat (length (encode (get c idx)))).

(** Modelled from the spec: the child's [deserialize_and_append(pos)] (section
    4.5): one element is read and appended, the advanced pointer returned; the
    child implementation is missing. *)
Definition deserialize_and_append `{!Codec T} (c : list (option T)) (pos : list Z)
  : list (option T) * list Z :=
  let '(x, rest) := decode pos in (c ++ [x], rest).

(** Modelled from the spec: the child's [reset_column] of the capability
    contract (section 6): the column keeps no element; the child
    implementation is missing. *)
Definition reset_column (c : list (option T)) : list (option T) := [].

End ops.
End NullableColumn.

(** ** The column *)

Record MapColumn (K V : Type) := mk_MapColumn {
  keys : list (option K);
  values : list (option V);
  offsets : list Z
}.
Arguments mk_MapColumn {K V} keys values offsets.
Arguments keys {K V} m.
Arguments values {K V} m.
Arguments offsets {K V} m.

Section map_column.
Context {K V : Type} `{Countable K} `{!Inhabited K} `{!Inhabited V}.

(** [DatumMap]: keys are non-null, a value may be the null datum. *)
Abbreviation DatumMap := (gmap K (option V)).
Abbreviation Row := (list (option K * option V)).

(** [MapColumn::MapColumn]: an empty offset buffer is initialised to [[0]]. *)
Definition create (keys : list (option K)) (values : list (option V)) (offsets : list Z)
  : MapColumn K V :=
  mk_MapColumn keys values (if decide (offsets = []) then [u32 0] else offsets).

(** [_offsets->append(x)]: the value is narrowed to [uint32_t]. *)
Definition offsets_append (v : list Z) (x : Z) : list Z := v ++ [u32 x].

(** [MapColumn::size].  The C++ subtraction wraps for an empty buffer, which
    the constructor excludes. *)
Definition size (m : MapColumn K V) : nat := (length (offsets m) - 1)%nat.

(** [MapColumn::check_or_die]: the two [CHECK_EQ]s. *)
Definition check_or_die (m : MapColumn K V) : bool :=
  bool_decide (back (offsets m) = NullableColumn.size (keys m)) &&
  bool_decide (back (offsets m) = NullableColumn.size (values m)).

(** [MapColumn::clone_empty]. *)
Definition clone_empty (m : MapColumn K V) : MapColumn K V := create [] [] [].

(** [MapColumn::resize]. *)
Definition resize (m : MapColumn K V) (n : nat) : MapColumn K V :=
  let offsets' := take (n + 1) (offsets m) ++
                  replicate (n + 1 - length (offsets m)) (back (offsets m)) in
  let array_size := back offsets' in
  mk_MapColumn (NullableColumn.resize (keys m) array_size)
               (NullableColumn.resize (values m) array_size)
               offsets'.

(** [MapColumn::append_datum].  The pairs of the map are appended to the
    children in the iteration order of the map. *)
Definition append_datum (m : MapColumn K V) (datum : DatumMap) : MapColumn K V :=
  let map_size := Z.of_nat (length (map_to_list datum)) in
  let kv := foldl (λ kv it, (NullableColumn.append_datum kv.1 (Some it.1),
                              NullableColumn.append_datum kv.2 it.2))
                  (keys m, values m) (map_to_list datum) in
  mk_MapColumn kv.1 kv.2 (offsets_append (offsets m) (back (offsets m) + map_size)).

(** [MapColumn::append(src, offset, count)]: one bulk copy per child, then
    one offset entry per row (the [for] loop). *)
Definition append (m src : MapColumn K V) (offset count : nat) : MapColumn K V :=
  let src_offsets := offsets src in
  let src_offset := at_ src_offsets offset in
  let src_count := u64 (at_ src_offsets (offset + count) - src_offset) in
  mk_MapColumn
    (NullableColumn.append (keys m) (keys src) src_offset src_count)
    (NullableColumn.append (values m) (values src) src_offset src_count)
    (foldl (λ offs i,
              let l := u32 (at_ src_offsets (i + 1) - at_ src_offsets i) in
              offsets_append offs (back offs + l))
           (offsets m) (seq offset count)).

(** [MapColumn::append_selective]. *)
Definition append_selective (m src : MapColumn K V) (indexes : list nat)
    (from size : nat) : MapColumn K V :=
  foldl (λ m i, append m src (default 0%nat (indexes !! (from + i)%nat)) 1)
        m (seq 0 size).

(** [MapColumn::append_value_multiple_times(src, index, size)]. *)
Definition append_value_multiple_times (m src : MapColumn K V) (index size : nat)
  : MapColumn K V :=
  Nat.iter size (λ m, append m src index 1) m.

(** [MapColumn::append_value_multiple_times(value, count)]. *)
Definition append_datum_multiple_times (m : MapColumn K V) (datum : DatumMap)
    (count : nat) : MapColumn K V :=
  Nat.iter count (λ m, append_datum m datum) m.

(** [MapColumn::append_nulls]: one more copy of the last offset per
    iteration; the result is [true]. *)
Definition append_nulls (m : MapColumn K V) (count : nat) : MapColumn K V * bool :=
  (Nat.iter count
     (λ m, mk_MapColumn (keys m) (values m)
             (offsets_append (offsets m) (back (offsets m)))) m,
   true).

(** [MapColumn::append_default()]. *)
Definition append_default1 (m : MapColumn K V) : MapColumn K V :=
  mk_MapColumn (keys m) (values m) (offsets_append (offsets m) (back (offsets m))).

(** [MapColumn::append_default(count)]: the offset buffer's
    [append_value_multiple_times] reads the low four bytes of [offset]. *)
Definition append_default (m : MapColumn K V) (count : nat) : MapColumn K V :=
  let offset := back (offsets m) in
  mk_MapColumn (keys m) (values m) (offsets m ++ replicate count (u32 offset)).

(** [MapColumn::set_null]. *)
Definition set_null (m : MapColumn K V) (idx : nat) : bool := false.

(** [MapColumn::compare_at]. *)
Definition compare_at (m : MapColumn K V) (left right : nat)
    (right_column : MapColumn K V) (nan_direction_hint : Z) : Z := -1.

(** [MapColumn::get_map_size]. *)
Definition get_map_size (m : MapColumn K V) (idx : nat) : Z :=
  u32 (at_ (offsets m) (idx + 1) - at_ (offsets m) idx).

(** [MapColumn::swap_column]: the receiver takes the storage of [rhs]. *)
Definition swap_column (m rhs : MapColumn K V) : MapColumn K V * MapColumn K V :=
  (rhs, m).

(** The first loop of [MapColumn::update_rows]: does a replacement row differ
    in cardinality from the row it replaces? *)
Definition need_resize (m src : MapColumn K V) (indexes : list nat) : bool :=
  let replace_num := size src in
  existsb (λ i, let idx := default 0%nat (indexes !! i) in
                negb (u32 (at_ (offsets m) (idx + 1) - at_ (offsets m) idx) =?
                      u32 (at_ (offsets src) (i + 1) - at_ (offsets src) i)))
          (seq 0 replace_num).

(** The branch [!need_resize] of [MapColumn::update_rows]. *)
Definition update_rows_fast (m src : MapColumn K V) (indexes : list nat)
  : MapColumn K V :=
  let replace_num := size src in
  let element_idxes :=
    foldl (λ element_idxes i,
             let element_count := u32 (at_ (offsets src) (i + 1) - at_ (offsets src) i) in
             let element_offset := at_ (offsets m) (default 0%nat (indexes !! i)) in
             foldl (λ element_idxes j, element_idxes ++ [u32 (element_offset + Z.of_nat j)])
                   element_idxes (seq 0 (Z.to_nat element_count)))
          [] (seq 0 replace_num) in
  mk_MapColumn (NullableColumn.update_rows (keys m) (keys src) element_idxes)
               (NullableColumn.update_rows (values m) (values src) element_idxes)
               (offsets m).

(** The branch [need_resize] of [MapColumn::update_rows]: a fresh column is
    filled with the kept ranges of [m] and the rows of [src] in turn, then
    swapped in.  [count] is a [size_t] difference; the model truncates it at
    zero where the C++ wraps (unsorted indexes). *)
Definition update_rows_rebuild (m src : MapColumn K V) (indexes : list nat)
  : MapColumn K V :=
  let replace_num := size src in
  let '(new_map_column, idx_begin) :=
    foldl (λ st i,
             let idx := default 0%nat (indexes !! i) in
             let count := (idx - st.2)%nat in
             let c1 := append st.1 m st.2 count in
             let c2 := append c1 src i 1 in
             (c2, (idx + 1)%nat))
          (clone_empty m, 0%nat) (seq 0 replace_num) in
  let remain_count := i32 (Z.of_nat (length (offsets m)) - Z.of_nat idx_begin - 1) in
  let new_map_column :=
    if decide (0 < remain_count)
    then append new_map_column m idx_begin (Z.to_nat remain_count)
    else new_map_column in
  (swap_column m new_map_column).1.

(** [MapColumn::update_rows].  The children of the model never fail, the
    returned status is always OK. *)
Definition update_rows (m src : MapColumn K V) (indexes : list nat) : MapColumn K V :=
  if need_resize m src indexes
  then update_rows_rebuild m src indexes
  else update_rows_fast m src indexes.

(** [MapColumn::fill_default]. *)
Definition fill_default (m : MapColumn K V) (filter : list Z) : MapColumn K V :=
  let indexes :=
    foldl (λ indexes i,
             if decide (at_ filter i = 1 ∧ 0 < get_map_size m i)
             then indexes ++ [i] else indexes)
          [] (seq 0 (length filter)) in
  let default_column := append_default (clone_empty m) (length indexes) in
  update_rows m default_column indexes.

(** [MapColumn::get]: the pairs of the row are inserted in storage order
    into a map, a pair with a null key is skipped. *)
Definition get (m : MapColumn K V) (idx : nat) : DatumMap :=
  let offset := at_ (offsets m) idx in
  let map_size := u64 (at_ (offsets m) (idx + 1) - offset) in
  foldl (λ res i,
           let e := offset + Z.of_nat i in
           if NullableColumn.is_null (keys m) e then res
           else match NullableColumn.get (keys m) e with
                | Some k => <[k := NullableColumn.get (values m) e]> res
                | None => res
                end)
        ∅ (seq 0 (Z.to_nat map_size)).

Section serialization.
Context `{!Codec K} `{!Codec V}.

(** [MapColumn::serialize(idx, pos)]: the bytes written from [pos] on and the
    returned [uint32_t]. *)
Definition serialize (m : MapColumn K V) (idx : nat) : list Z * Z :=
  let offset := at_ (offsets m) idx in
  let map_size := u32 (at_ (offsets m) (idx + 1) - offset) in
  let '(bytes, ser_size) :=
    foldl (λ st i,
             let k := NullableColumn.serialize (keys m) (offset + Z.of_nat i) in
             let v := NullableColumn.serialize (values m) (offset + Z.of_nat i) in
             (st.1 ++ k.1 ++ v.1, st.2 + k.2 + v.2))
          (encode_u32 map_size, 4) (seq 0 (Z.to_nat map_size)) in
  (bytes, u32 ser_size).

(** [MapColumn::serialize_default]. *)
Definition serialize_default : list Z * Z := (encode_u32 0, 4).

(** [MapColumn::serialize_size]: the accumulator is a [uint32_t]. *)
Definition serialize_size (m : MapColumn K V) (idx : nat) : Z :=
  let offset := at_ (offsets m) idx in
  let map_size := u32 (at_ (offsets m) (idx + 1) - offset) in
  foldl (λ ser_size i,
           let ser_size := u32 (ser_size + NullableColumn.serialize_size (keys m) (offset + Z.of_nat i)) in
           u32 (ser_size + NullableColumn.serialize_size (values m) (offset + Z.of_nat i)))
        4 (seq 0 (Z.to_nat map_size)).

(** [MapColumn::max_one_element_serialize_size]. *)
Definition max_one_element_serialize_size (m : MapColumn K V) : Z :=
  foldl (λ max_size i, Z.max max_size (serialize_size m i)) 0 (seq 0 (size m)).

(** [MapColumn::deserialize_and_append(pos)]: the column with one more row
    and the advanced pointer. *)
Definition deserialize_and_append (m : MapColumn K V) (pos : list Z)
  : MapColumn K V * list Z :=
  let map_size := decode_u32 pos in
  let pos := drop 4 pos in
  let offsets' := offsets_append (offsets m) (back (offsets m) + map_size) in
  let '(ks, vs, pos) :=
    Nat.iter (Z.to_nat map_size)
      (λ st, let k := NullableColumn.deserialize_and_append st.1.1 st.2 in
             let v := NullableColumn.deserialize_and_append st.1.2 k.2 in
             (k.1, v.1, v.2))
      (keys m, values m, pos) in
  (mk_MapColumn ks vs offsets', pos).

End serialization.

(** The state of the compaction loops of [MapColumn::filter_range]: the
    offset buffer, which is rewritten in place, the element-level mask and
    [result_offset]. *)
Record filter_state := mk_filter_state {
  fs_offsets : list Z;
  fs_element_filter : list Z;
  fs_result_offset : nat
}.

(** The statements that keep row [i], the same in the scalar loop and in the
    loop over a mixed batch: the elements of the row are marked in the
    element-level mask and the next compacted offset is written. *)
Definition keep_row (st : filter_state) (i : nat) : filter_state :=
  let offsets := fs_offsets st in
  let result_offset := fs_result_offset st in
  let array_size := u32 (at_ offsets (i + 1) - at_ offsets i) in
  mk_filter_state
    (<[(result_offset + 1)%nat := u32 (at_ offsets result_offset + array_size)]> offsets)
    (memset (fs_element_filter st) (at_ offsets i) 1 array_size)
    (result_offset + 1).

(** One iteration of the scalar loop of [MapColumn::filter_range]. *)
Definition filter_step (filter : list Z) (st : filter_state) (i : nat) : filter_state :=
  if decide (at_ filter i = 0) then st else keep_row st i.

(** The width of an AVX register in bytes: the rows of one batch. *)
Definition kBatchSize : nat := 32.

(** A byte read as [int8_t]. *)
Definition int8 (b : Z) : Z := if decide (b < 128) then b else b - 256.

(** [_mm256_movemask_epi8]: lane [i] gives bit [i]. *)
Fixpoint movemask (lanes : list bool) : Z :=
  match lanes with
  | [] => 0
  | b :: lanes' => (if b then 1 else 0) + 2 * movemask lanes'
  end.

(** The lanes of [_mm256_cmpgt_epi8(f, all0)] for the batch at
    [check_offset]: a signed comparison of the 32 filter bytes with zero. *)
Definition batch_lanes (filter : list Z) (check_offset : nat) : list bool :=
  (λ i, bool_decide (0 < int8 (at_ filter (check_offset + i)))) <$> seq 0 kBatchSize.

(** The mask of the batch at [check_offset]. *)
Definition batch_mask (filter : list Z) (check_offset : nat) : Z :=
  movemask (batch_lanes filter check_offset).

(** [Bits::CountTrailingZeros32], which is [32] for [0];
    [Bits::CountTrailingZerosNonZero32] is the same on its domain. *)
Fixpoint count_trailing_zeros (width : nat) (x : Z) : Z :=
  match width with
  | O => 0
  | S width' => if Z.odd x then 0 else 1 + count_trailing_zeros width' (x / 2)
  end.

Definition CountTrailingZeros32 (x : Z) : Z := count_trailing_zeros 32 x.

(** The branch [mask == 0xffffffff] of the batch loop: the elements of the 32
    rows are marked at once and their offsets are moved down and rebased. *)
Definition all_hit (st : filter_state) (check_offset : nat) : filter_state :=
  let offsets := fs_offsets st in
  let result_offset := fs_result_offset st in
  let element_size := u32 (at_ offsets (check_offset + kBatchSize) - at_ offsets check_offset) in
  let element_filter := memset (fs_element_filter st) (at_ offsets check_offset) 1 element_size in
  let offsets' :=
    if decide (result_offset ≠ check_offset) then
      let delta := u32 (at_ offsets check_offset - at_ offsets result_offset) in
      let moved := list_inserts (result_offset + 1)
                     (take kBatchSize (drop (check_offset + 1) offsets)) offsets in
      foldl (λ offs i, <[(result_offset + i + 1)%nat :=
                           u32 (at_ offs (result_offset + i + 1) - delta)]> offs)
            moved (seq 0 kBatchSize)
    else offsets in
  mk_filter_state offsets' element_filter (result_offset + kBatchSize).

(** The inner [while (i < kBatchSize)] of the mixed branch; it runs at most
    [kBatchSize] times, [i] grows in every iteration. *)
Fixpoint mixed_loop (fuel : nat) (check_offset : nat) (mask zero_count i : Z)
    (st : filter_state) : filter_state :=
  match fuel with
  | O => st
  | S fuel' =>
      if decide (i < Z.of_nat kBatchSize) then
        let mask := if decide (zero_count < 31) then Z.shiftr mask (zero_count + 1) else 0 in
        let st := keep_row st (check_offset + Z.to_nat i) in
        let zero_count := CountTrailingZeros32 mask in
        mixed_loop fuel' check_offset mask zero_count (i + (zero_count + 1)) st
      else st
  end.

(** One iteration of the batch loop. *)
Definition batch_step (filter : list Z) (st : filter_state) (check_offset : nat)
  : filter_state :=
  let mask := batch_mask filter check_offset in
  if decide (mask = 0) then st
  else if decide (mask = 4294967295) then all_hit st check_offset
  else
    let zero_count := CountTrailingZeros32 mask in
    mixed_loop kBatchSize check_offset mask zero_count zero_count st.

(** The batch loop [while (check_offset + kBatchSize < to)]; [to] iterations
    are more than it can make. *)
Fixpoint batch_loop (fuel : nat) (filter : list Z) (to : nat) (st : filter_state)
    (check_offset : nat) : filter_state * nat :=
  match fuel with
  | O => (st, check_offset)
  | S fuel' =>
      if decide (check_offset + kBatchSize < to)%nat
      then batch_loop fuel' filter to (batch_step filter st check_offset)
                      (check_offset + kBatchSize)
      else (st, check_offset)
  end.

(** [MapColumn::filter_range]: the compacted column and the returned row
    count.  [avx2] says whether [__AVX2__] is defined: then the batch loop
    runs first and the scalar loop handles the rows that it leaves. *)
Definition filter_range (avx2 : bool) (m : MapColumn K V) (filter : list Z)
    (from to : nat) : MapColumn K V * nat :=
  let offsets := offsets m in
  let elements_start := at_ offsets from in
  let elements_end := at_ offsets to in
  let element_filter := replicate (Z.to_nat elements_end) 0 in
  let st0 := mk_filter_state offsets element_filter from in
  let batches := if avx2 then batch_loop to filter to st0 from else (st0, from) in
  let check_offset := batches.2 in
  let st := foldl (filter_step filter) batches.1 (seq check_offset (to - check_offset)) in
  let keys' := (NullableColumn.filter_range (keys m) (fs_element_filter st)
                                            elements_start elements_end).1 in
  let values' := (NullableColumn.filter_range (values m) (fs_element_filter st)
                                              elements_start elements_end).1 in
  (resize (mk_MapColumn keys' values' (fs_offsets st)) (fs_result_offset st),
   fs_result_offset st).

End map_column.

(** ** Byte sizes *)

Section byte_size.
Context {K V : Type}.

(** [byte_size(from, size)] of the two children and the base-class
    [Column::byte_size(from, size)] that is called on the offset buffer are
    declared outside the sources at hand; they are parameters. *)
Variable keys_byte_size : list (option K) → Z → Z → Z.
Variable values_byte_size : list (option V) → Z → Z → Z.
Variable offsets_byte_size : list Z → nat → nat → Z.

(** The arguments [(from, size)] that [MapColumn::byte_size(from, size)]
    passes to both children. *)
Definition byte_size_child_args (m : MapColumn K V) (from size : nat) : Z * Z :=
  (at_ (offsets m) from,
   u32 (at_ (offsets m) (from + size) - at_ (offsets m) from)).

(** [MapColumn::byte_size(size_t from, size_t size)]. *)
Definition byte_size (m : MapColumn K V) (from size : nat) : Z :=
  let a := byte_size_child_args m from size in
  keys_byte_size (keys m) a.1 a.2 + values_byte_size (values m) a.1 a.2 +
  offsets_byte_size (offsets m) from size.

(** The arguments [(from, size)] that [MapColumn::byte_size(idx)] passes to
    both children. *)
Definition byte_size_at_child_args (m : MapColumn K V) (idx : nat) : Z * Z :=
  (at_ (offsets m) idx, at_ (offsets m) (idx + 1)).

(** [MapColumn::byte_size(size_t idx)]; [sizeof(uint32_t)] is [4]. *)
Definition byte_size_at (m : MapColumn K V) (idx : nat) : Z :=
  let a := byte_size_at_child_args m idx in
  keys_byte_size (keys m) a.1 a.2 + values_byte_size (values m) a.1 a.2 + 4.

End byte_size.

(** ** Width promotion and demotion *)

Section overflow.
Context {K V : Type}.

(** [Column::MAX_CAPACITY_LIMIT] and the helpers [upgrade_helper_func] and
    [downgrade_helper_func] are declared in [column/column.h], outside the
    sources at hand; they are parameters.  A helper receives the address of a
    child: it fails, or it says which column now stands in the child's place
    and which [ColumnPtr] it returns ([None] for [nullptr]). *)
Variable MAX_CAPACITY_LIMIT : Z.
Variable ColumnPtr : Type.
Variable upgrade_helper_func_keys :
  list (option K) → StatusOr (list (option K) * option ColumnPtr).
Variable upgrade_helper_func_values :
  list (option V) → StatusOr (list (option V) * option ColumnPtr).
Variable downgrade_helper_func_keys :
  list (option K) → StatusOr (list (option K) * option ColumnPtr).
Variable downgrade_helper_func_values :
  list (option V) → StatusOr (list (option V) * option ColumnPtr).

(** [MapColumn::upgrade_if_overflow]: the column afterwards and the result. *)
Definition upgrade_if_overflow (m : MapColumn K V)
  : MapColumn K V * StatusOr (option ColumnPtr) :=
  if decide (MAX_CAPACITY_LIMIT < Z.of_nat (length (offsets m)))
  then (m, InternalError "Size of MapColumn exceed the limit")
  else
    match upgrade_helper_func_keys (keys m) with
    | InternalError msg => (m, InternalError msg)
    | StatusOk (keys', _) =>
        match upgrade_helper_func_values (values m) with
        | InternalError msg =>
            (mk_MapColumn keys' (values m) (offsets m), InternalError msg)
        | StatusOk (values', ret) =>
            (mk_MapColumn keys' values' (offsets m), StatusOk ret)
        end
    end.

(** [MapColumn::downgrade]. *)
Definition downgrade (m : MapColumn K V)
  : MapColumn K V * StatusOr (option ColumnPtr) :=
  match downgrade_helper_func_keys (keys m) with
  | InternalError msg => (m, InternalError msg)
  | StatusOk (keys', _) =>
      match downgrade_helper_func_values (values m) with
      | InternalError msg =>
          (mk_MapColumn keys' (values m) (offsets m), InternalError msg)
      | StatusOk (values', ret) =>
          (mk_MapColumn keys' values' (offsets m), StatusOk ret)
      end
  end.

End overflow.

(** ** Further operations of the column *)

(** The eight bytes of a [size_t] in memory, on a little-endian machine. *)
Definition encode_u64 (x : Z) : list Z :=
  (λ i, (x / 2 ^ (8 * Z.of_nat i)) mod 256) <$> seq 0 8.

(** [Slice]: a pointer into a byte buffer, given by the bytes from the
    pointer on, and a length. *)
Module Slice.
Record t := mk { data : list Z; size : Z }.
End Slice.

Section map_column_more.
Context {K V : Type} `{Countable K} `{!Inhabited K} `{!Inhabited V}.

(** [MapColumn::reserve]: [std::vector::reserve] on the offset buffer changes
    its capacity, which the embedding does not hold, and none of its
    entries. *)
Definition reserve (m : MapColumn K V) (n : nat) : MapColumn K V := m.

(** [MapColumn::reset_column]: [_offsets->resize(1)] keeps the first offset
    entry (and value-initialises it in an empty buffer).  The base-class
    [Column::reset_column], declared outside the sources at hand, has no
    access to the three members. *)
Definition reset_column (m : MapColumn K V) : MapColumn K V :=
  mk_MapColumn (NullableColumn.reset_column (keys m))
               (NullableColumn.reset_column (values m))
               (take 1 (offsets m) ++ replicate (1 - length (offsets m)) 0).

(** [MapColumn::assign(n, idx)]: the column afterwards.  The local column
    [desc] receives [n] copies of the datum of row [idx], is swapped with the
    receiver, and what it then holds is reset and dropped. *)
Definition assign (m : MapColumn K V) (n idx : nat) : MapColumn K V :=
  let desc := clone_empty m in
  let datum := get m idx in
  let desc := append_datum_multiple_times desc datum n in
  let '(m', desc) := swap_column m desc in
  let desc := reset_column desc in
  m'.

Section batches.
Context `{!Codec K} `{!Codec V}.

(** [MapColumn::serialize_batch]: the buffer [dst] and [slice_sizes]
    afterwards.  Row [i] is written into the slot of [max_one_row_size]
    bytes that starts at [i * max_one_row_size], behind the [slice_sizes[i]]
    bytes that the slot holds already. *)
Definition serialize_batch (m : MapColumn K V) (dst : list Z) (slice_sizes : list Z)
    (chunk_size : nat) (max_one_row_size : Z) : list Z * list Z :=
  foldl (λ st i,
           let pos := u64 (Z.of_nat i * max_one_row_size) + at_ st.2 i in
           let r := serialize m i in
           (list_inserts (Z.to_nat pos) r.1 st.1,
            <[i := u32 (at_ st.2 i + r.2)]> st.2))
        (dst, slice_sizes) (seq 0 chunk_size).

(** [MapColumn::deserialize_and_append_batch]: the column and the slices
    afterwards; the pointer of every slice is advanced behind the row that
    was read from it, its length is left as it was. *)
Definition deserialize_and_append_batch (m : MapColumn K V) (srcs : list Slice.t)
    (chunk_size : nat) : MapColumn K V * list Slice.t :=
  foldl (λ st i,
           let src := default (Slice.mk [] 0) (st.2 !! i) in
           let r := deserialize_and_append st.1 (Slice.data src) in
           (r.1, <[i := Slice.mk r.2 (Slice.size src)]> st.2))
        (reserve m chunk_size, srcs) (seq 0 chunk_size).

End batches.

Section hashing.

(** [HashUtil::fnv_hash(data, bytes, seed)] and
    [HashUtil::zlib_crc_hash(data, bytes, seed)] of [util/hash_util.hpp] and
    [fnv_hash_at(hash, idx)] and [crc32_hash_at(hash, idx)] of the children
    are declared outside the sources at hand; they are parameters.  A child
    function takes the column, the value of [*hash] and the element index
    (an [int32_t]) and gives the new value of [*hash]. *)
Variable HashUtil_fnv_hash : list Z → Z → Z.
Variable HashUtil_zlib_crc_hash : list Z → Z → Z.
Variable keys_fnv_hash_at : list (option K) → Z → Z → Z.
Variable values_fnv_hash_at : list (option V) → Z → Z → Z.
Variable keys_crc32_hash_at : list (option K) → Z → Z → Z.
Variable values_crc32_hash_at : list (option V) → Z → Z → Z.

(** [MapColumn::fnv_hash_at(hash, idx)]: the new value of [*hash].  The
    cardinality is hashed as the eight bytes of a [size_t]. *)
Definition fnv_hash_at (m : MapColumn K V) (hash : Z) (idx : nat) : Z :=
  let offset := u64 (at_ (offsets m) idx) in
  let map_size := u64 (at_ (offsets m) (idx + 1) - offset) in
  let hash := HashUtil_fnv_hash (encode_u64 map_size) hash in
  foldl (λ hash i,
           let ele_offset := u32 (offset + Z.of_nat i) in
           let hash := keys_fnv_hash_at (keys m) hash (i32 ele_offset) in
           values_fnv_hash_at (values m) hash (i32 ele_offset))
        hash (seq 0 (Z.to_nat map_size)).

(** [MapColumn::crc32_hash_at(hash, idx)]. *)
Definition crc32_hash_at (m : MapColumn K V) (hash : Z) (idx : nat) : Z :=
  let offset := u64 (at_ (offsets m) idx) in
  let map_size := u64 (at_ (offsets m) (idx + 1) - offset) in
  let hash := HashUtil_zlib_crc_hash (encode_u64 map_size) hash in
  foldl (λ hash i,
           let ele_offset := u32 (offset + Z.of_nat i) in
           let hash := keys_crc32_hash_at (keys m) hash (i32 ele_offset) in
           values_crc32_hash_at (values m) hash (i32 ele_offset))
        hash (seq 0 (Z.to_nat map_size)).

(** [MapColumn::fnv_hash(hash, from, to)]: the array [hash] afterwards.  The
    row index, a [uint32_t], is passed on as an [int32_t]. *)
Definition fnv_hash (m : MapColumn K V) (hash : list Z) (from to : nat) : list Z :=
  foldl (λ hash i,
           <[i := fnv_hash_at m (at_ hash i) (Z.to_nat (i32 (Z.of_nat i)))]> hash)
        hash (seq from (to - from)).

(** [MapColumn::crc32_hash(hash, from, to)]. *)
Definition crc32_hash (m : MapColumn K V) (hash : list Z) (from to : nat) : list Z :=
  foldl (λ hash i,
           <[i := crc32_hash_at m (at_ hash i) (Z.to_nat (i32 (Z.of_nat i)))]> hash)
        hash (seq from (to - from)).

End hashing.

Section checksum.

(** [xor_checksum(from, to)] of the children is declared outside the sources
    at hand; it is a parameter. *)
Variable keys_xor_checksum : list (option K) → Z → Z → Z.
Variable values_xor_checksum : list (option V) → Z → Z → Z.

(** [MapColumn::xor_checksum(from, to)]. *)
Definition xor_checksum (m : MapColumn K V) (from to : nat) : Z :=
  let xor_checksum :=
    foldl (λ xor_checksum idx,
             let array_size := u32 (at_ (offsets m) (idx + 1) - at_ (offsets m) idx) in
             Z.lxor xor_checksum array_size)
          0 (seq from (to - from)) in
  let element_from := at_ (offsets m) from in
  let element_to := at_ (offsets m) to in
  let xor_checksum :=
    Z.lxor xor_checksum (keys_xor_checksum (keys m) element_from element_to) in
  Z.lxor xor_checksum (values_xor_checksum (values m) element_from element_to).

End checksum.

Section memory_usage.

(** [element_memory_usage(from, size)] of the two children and the
    base-class [Column::element_memory_usage(from, size)] that is called on
    the offset buffer are declared outside the sources at hand; they are
    parameters. *)
Variable keys_element_memory_usage : list (option K) → Z → Z → Z.
Variable values_element_memory_usage : list (option V) → Z → Z → Z.
Variable offsets_element_memory_usage : list Z → nat → nat → Z.

(** The arguments [(from, size)] that [MapColumn::element_memory_usage]
    passes to both children. *)
Definition element_memory_usage_child_args (m : MapColumn K V) (from size : nat) : Z * Z :=
  (at_ (offsets m) from, at_ (offsets m) (from + size)).

(** [MapColumn::element_memory_usage(from, size)]. *)
Definition element_memory_usage (m : MapColumn K V) (from size : nat) : Z :=
  let a := element_memory_usage_child_args m from size in
  keys_element_memory_usage (keys m) a.1 a.2 +
  values_element_memory_usage (values m) a.1 a.2 +
  offsets_element_memory_usage (offsets m) from size.

End memory_usage.

Section debug.

(** [debug_item(idx)] of the children is declared outside the sources at
    hand; it is a parameter. *)
Variable keys_debug_item : list (option K) → Z → string.
Variable values_debug_item : list (option V) → Z → string.

(** [MapColumn::debug_item(idx)]: what the string stream holds at the end. *)
Definition debug_item (m : MapColumn K V) (idx : nat) : string :=
  let offset := u64 (at_ (offsets m) idx) in
  let map_size := u64 (at_ (offsets m) (idx + 1) - offset) in
  let ss := "{" in
  let ss :=
    foldl (λ ss i,
             let ss := if decide (0 < i)%nat then ss +:+ ", " else ss in
             let ss := ss +:+ keys_debug_item (keys m) (u32 (offset + Z.of_nat i)) in
             let ss := ss +:+ ":" in
             ss +:+ values_debug_item (values m) (u32 (offset + Z.of_nat i)))
          ss (seq 0 (Z.to_nat map_size)) in
  ss +:+ "}".

(** [MapColumn::debug_string]. *)
Definition debug_string (m : MapColumn K V) : string :=
  foldl (λ ss i,
           let ss := if decide (0 < i)%nat then ss +:+ ", " else ss in
           ss +:+ debug_item m i)
        EmptyString (seq 0 (size m)).

End debug.

End map_column_more.
(** ** The logical contents of a column *)

Section rows.
Context {K V : Type} `{Countable K} `{!Inhabited K} `{!Inhabited V}.

Abbreviation Row := (list (option K * option V)).

(** The pairs of one row, in storage order. *)
Definition row (m : MapColumn K V) (i : nat) : Row :=
  let o := Z.to_nat (at_ (offsets m) i) in
  let n := Z.to_nat (at_ (offsets m) (i + 1) - at_ (offsets m) i) in
  zip (take n (drop o (keys m))) (take n (drop o (values m))).

(** All rows of a column. *)
Definition rows (m : MapColumn K V) : list Row := row m <$> seq 0 (size m).

(** The rows read along an offset buffer: [o] is the offset at which the next
    row starts, [offs] are the offsets that follow it. *)
Fixpoint rows_from (o : Z) (offs : list Z) (ks : list (option K)) (vs : list (option V))
  : list Row :=
  match offs with
  | [] => []
  | o' :: offs' =>
      zip (take (Z.to_nat (o' - o)) (drop (Z.to_nat o) ks))
          (take (Z.to_nat (o' - o)) (drop (Z.to_nat o) vs))
      :: rows_from o' offs' ks vs
  end.

(** The offset buffer of a list of rows that starts at [start]. *)
Fixpoint offsets_of (start : Z) (rs : list Row) : list Z :=
  match rs with
  | [] => [start]
  | r :: rs' => start :: offsets_of (start + Z.of_nat (length r)) rs'
  end.

(** The column that stores the rows [rs]. *)
Definition of_rows (rs : list Row) : MapColumn K V :=
  mk_MapColumn (concat rs).*1 (concat rs).*2 (offsets_of 0 rs).

(** The number of child elements of a list of rows. *)
Definition elements (rs : list Row) : Z := Z.of_nat (length (concat rs)).

(** The offset buffer is non-decreasing. *)
Fixpoint non_decreasing (v : list Z) : bool :=
  match v with
  | [] => true
  | x :: v' => match v' with [] => true | y :: _ => (x <=? y) && non_decreasing v' end
  end.

(** The structural invariant of a column, as a check: the offset buffer
    holds [uint32_t] values, starts with [0], never decreases and ends with the
    size of both children. *)
Definition well_formed (m : MapColumn K V) : bool :=
  bool_decide (offsets m !! 0%nat = Some 0) &&
  non_decreasing (offsets m) &&
  forallb (λ x, (0 <=? x) && (x <? 2 ^ 32)) (offsets m) &&
  check_or_die m.

(** The offset entries that [append] adds for the rows [rs]. *)
Definition push_rows (offs : list Z) (rs : list Row) : list Z :=
  foldl (λ offs r, offsets_append offs (back offs + Z.of_nat (length r))) offs rs.


(** The row that [append_datum] stores for a map. *)
Definition datum_row (datum : gmap K (option V)) : Row :=
  (λ it, (Some it.1, it.2)) <$> map_to_list datum.

(** The rows that [filter_range] keeps: those before [from], and those from
    [from] on whose mask byte is non-zero. *)
Definition filter_rows (filter : list Z) (from : nat) (rs : list Row) : list Row :=
  take from rs ++ NullableColumn.select (drop from filter) (drop from rs).

(** The element-level mask that the compaction loop derives from the row
    mask [fs] for the rows [rs]. *)
Definition element_marks (rs : list Row) (fs : list Z) : list Z :=
  concat (zip_with (λ r f, replicate (length r) (if decide (f = 0) then 0 else 1)) rs fs).

(** The rows after [update_rows]: row [indexes[i]] is replaced by row [i] of
    the source, for every [i] in turn. *)
Definition replace_rows (rs : list Row) (indexes : list nat) (srcs : list Row) : list Row :=
  foldl (λ acc p, <[p.1 := p.2]> acc) rs (zip indexes srcs).

(** The index list of [update_rows] is sorted, without repetition. *)
Fixpoint strictly_increasing (l : list nat) : bool :=
  match l with
  | [] => true
  | x :: l' => match l' with [] => true | y :: _ => (x <? y)%nat && strictly_increasing l' end
  end.

(** Row [idx] exists and the replacement row [s] has its cardinality. *)
Definition fits (rs : list Row) (idx : nat) (s : Row) : Prop :=
  ∃ r, rs !! idx = Some r ∧ length s = length r.

(** The wire bytes of the pairs of a row, key then value, in storage order. *)
Definition row_bytes `{!Codec K} `{!Codec V} (r : Row) : list Z :=
  concat ((λ p, encode p.1 ++ encode p.2) <$> r).

(** The offset buffer holds at least its initial entry. *)
Definition well_formed_offsets (m : MapColumn K V) : Prop := offsets m ≠ [].

(** The map that [get] builds from the pairs of a row: the pairs are
    inserted in storage order, a pair with a null key is left out. *)
Definition row_map (r : Row) : gmap K (option V) :=
  foldl (λ res p, match p.1 with Some k => <[k := p.2]> res | None => res end) ∅ r.

(** ** Sequences of mutating operations *)

Inductive op : Type :=
  | OpAppend (src : MapColumn K V) (offset count : nat)
  | OpAppendDatum (datum : gmap K (option V))
  | OpAppendNulls (count : nat)
  | OpAppendDefault (count : nat)
  | OpResize (n : nat)
  | OpFilterRange (avx2 : bool) (filter : list Z) (from to : nat)
  | OpUpdateRows (src : MapColumn K V) (indexes : list nat).

Definition apply_op (m : MapColumn K V) (o : op) : MapColumn K V :=
  match o with
  | OpAppend src offset count => append m src offset count
  | OpAppendDatum datum => append_datum m datum
  | OpAppendNulls count => (append_nulls m count).1
  | OpAppendDefault count => append_default m count
  | OpResize n => resize m n
  | OpFilterRange avx2 filter from to => (filter_range avx2 m filter from to).1
  | OpUpdateRows src indexes => update_rows m src indexes
  end.

Definition run (m : MapColumn K V) (ops : list op) : MapColumn K V :=
  foldl apply_op m ops.

(** The largest [int], the type of the loop counter of [append_nulls]. *)
Definition INT_MAX : Z := 2 ^ 31 - 1.

(** The precondition of an operation on the column [m]: sources are
    well-formed, row ranges and row indexes lie inside the column they
    address, [filter_range] is called with [to == size()] and a mask that
    covers the rows (of bytes below 128 in the AVX2 build, whose batches
    compare the mask bytes as signed), the index list of [update_rows] is sorted and has one
    entry per source row, and the children stay below [2^32] elements, the
    range of the [uint32_t] offsets (below [2^31] rows for [update_rows],
    whose remaining row count is an [int32_t]). *)
Definition pre (m : MapColumn K V) (o : op) : bool :=
  match o with
  | OpAppend src offset count =>
      well_formed src && bool_decide (offset + count ≤ size src)%nat &&
      bool_decide (NullableColumn.size (keys m) +
                   (at_ (offsets src) (offset + count) - at_ (offsets src) offset) < 2 ^ 32)
  | OpAppendDatum datum =>
      bool_decide (NullableColumn.size (keys m) + Z.of_nat (length (map_to_list datum)) < 2 ^ 32)
  | OpAppendNulls count => bool_decide (Z.of_nat count ≤ INT_MAX)
  | OpAppendDefault count => true
  | OpResize n => true
  | OpFilterRange avx2 filter from to =>
      bool_decide (to = size m) && bool_decide (from ≤ to)%nat &&
      bool_decide (to ≤ length filter)%nat &&
      (negb avx2 || forallb (λ b, bool_decide (0 ≤ b < 128)) filter)
  | OpUpdateRows src indexes =>
      well_formed src && bool_decide (length indexes = size src) &&
      strictly_increasing indexes &&
      forallb (λ idx, bool_decide (idx < size m)%nat) indexes &&
      bool_decide (Z.of_nat (size m) < 2 ^ 31) &&
      bool_decide (NullableColumn.size (keys m) + NullableColumn.size (keys src) < 2 ^ 32)
  end.

(** Every operation of the sequence is applied to a column that meets its
    precondition. *)
Fixpoint valid_run (m : MapColumn K V) (ops : list op) : Prop :=
  match ops with
  | [] => True
  | o :: ops' => pre m o = true ∧ valid_run (apply_op m o) ops'
  end.

End rows.


(** ** Functions of one row *)

Section row_functions.
Context {K V : Type}.

(** The hash of a row: the hash of its cardinality, eight bytes, chained
    through the hashes of its keys and values in storage order. *)
Definition row_hash (seed : list Z → Z → Z) (key_hash : option K → Z → Z)
    (value_hash : option V → Z → Z) (hash : Z) (r : list (option K * option V)) : Z :=
  foldl (λ hash p, value_hash p.2 (key_hash p.1 hash))
        (seed (encode_u64 (Z.of_nat (length r))) hash) r.

(** The text of a row: its pairs as [key:value], separated by [", "], in
    braces. *)
Definition row_text (key_text : option K → string) (value_text : option V → string)
    (r : list (option K * option V)) : string :=
  "{" +:+ String.concat ", " ((λ p, key_text p.1 +:+ ":" +:+ value_text p.2) <$> r) +:+ "}".

(** The XOR of the cardinalities of rows. *)
Definition xor_lengths (rs : list (list (option K * option V))) : Z :=
  foldl (λ x r, Z.lxor x (Z.of_nat (length r))) 0 rs.

End row_functions.

(** ** Example data *)

(** The wire format of one element of a nullable one-byte column: the null
    flag, then the value byte of a non-null element. *)
Definition ascii_encode (x : option Ascii.ascii) : list Z :=
  match x with
  | None => [1]
  | Some a => [0; Z.of_N (Ascii.N_of_ascii a)]
  end.

Definition ascii_decode (pos : list Z) : option Ascii.ascii * list Z :=
  match pos with
  | 0 :: b :: rest => (Some (Ascii.ascii_of_N (Z.to_N b)), rest)
  | _ :: rest => (None, rest)
  | [] => (None, [])
  end.

Lemma ascii_decode_encode x rest : ascii_decode (ascii_encode x ++ rest) = (x, rest).
Proof.
  destruct x as [a|]; simpl; [|done]. by rewrite N2Z.id, Ascii.ascii_N_embedding.
Qed.

#[export] Instance ascii_codec : Codec Ascii.ascii :=
  {| encode := ascii_encode; decode := ascii_decode; decode_encode := ascii_decode_encode |}.

(** [[{a:1}, {b:2}, {c:3}]] *)
Definition col_abc : MapColumn string Z :=
  mk_MapColumn [Some "a"; Some "b"; Some "c"]%string [Some 1; Some 2; Some 3] [0; 1; 2; 3].

(** [[{x:9}]] *)
Definition col_x : MapColumn string Z :=
  mk_MapColumn [Some "x"]%string [Some 9] [0; 1].

(** [[{x:9, y:8}]] *)
Definition col_xy : MapColumn string Z :=
  mk_MapColumn [Some "x"; Some "y"]%string [Some 9; Some 8] [0; 2].

(** [[{a:1}, {}, {b:2, c:3}, {}, {d:4}]] *)
Definition col_abcd : MapColumn string Z :=
  mk_MapColumn [Some "a"; Some "b"; Some "c"; Some "d"]%string
               [Some 1; Some 2; Some 3; Some 4] [0; 1; 1; 3; 3; 4].

(** [[{p:q}, {}, {r:null, null:s, r:t}]] over one-byte keys and values. *)
Definition col_bytes : MapColumn Ascii.ascii Ascii.ascii :=
  mk_MapColumn [Some "p"; Some "r"; None; Some "r"]%char
               [Some "q"; None; Some "s"; Some "t"]%char [0; 1; 1; 4].

(** A hundred rows over integer keys and values; row [i] has [i mod 3]
    elements. *)
Definition col_wide : MapColumn Z Z :=
  of_rows ((λ i, (λ j, (Some (Z.of_nat i), Some (Z.of_nat j))) <$> seq 0 (i mod 3)) <$>
           seq 0 100).

(** A mask for [col_wide] read from row 2 on: a batch of mixed bytes whose
    last lane is set, a batch without a zero byte, a batch of zero bytes, and
    a tail of two rows. *)
Definition mask_wide : list Z :=
  [0; 1] ++
  ((λ i, if decide (i mod 3 = 0)%nat then 0 else Z.of_nat i + 1) <$> seq 0 32) ++
  replicate 32 1 ++ replicate 32 0 ++ [1; 127].

(** Thirty-four rows of one element each. *)
Definition col_singles : MapColumn Z Z :=
  of_rows ((λ i, [(Some (Z.of_nat i), Some 0)]) <$> seq 0 34).

(** A sequence that uses every mutating operation. *)
Definition example_ops : list (op (K:=string) (V:=Z)) :=
  [OpAppend col_abcd 2 3;
   OpAppendDatum {["k" := Some 7]}%string;
   OpAppendNulls 2;
   OpAppendDefault 1;
   OpResize 9;
   OpFilterRange true [1; 0; 1; 1; 1; 0; 1; 1; 0] 1 9;
   OpUpdateRows col_xy [2%nat]].

(** Children of fixed width: [byte_size(from, size)] is [size] times the
    width of an element; five bytes for a nullable 32-bit element. *)
Definition fixed_byte_size {T} (width : Z) (c : list (option T)) (from size : Z) : Z :=
  width * size.

(** An upgrade helper that keeps the child and returns [nullptr]. *)
Definition helper_keep {T} (c : list (option T)) : StatusOr (list (option T) * option unit) :=
  StatusOk (c, None).

(** Children over integers that hash, checksum and print element by
    element. *)
Definition seed_sum (bytes : list Z) (seed : Z) : Z :=
  u32 (seed * 31 + foldr Z.add 0 bytes).

Definition elem_mix (x : option Z) (hash : Z) : Z :=
  u32 (hash * 33 + match x with Some z => z + 1 | None => 0 end).

Definition child_mix (c : list (option Z)) (hash : Z) (idx : Z) : Z :=
  elem_mix (mjoin (c !! Z.to_nat idx)) hash.

Definition elem_code {T} (code : T → Z) (x : option T) : Z :=
  match x with Some z => code z + 1 | None => 0 end.

Definition child_xor {T} (code : T → Z) (c : list (option T)) (from to : Z) : Z :=
  foldl (λ x e, Z.lxor x (elem_code code e)) 0
        (take (Z.to_nat to - Z.to_nat from) (drop (Z.to_nat from) c)).

Definition key_text (x : option string) : string :=
  match x with Some s => s | None => "NULL" end.

Definition digit_text (x : option Z) : string :=
  match x with
  | Some z => String (Ascii.ascii_of_nat (48 + Z.to_nat z)) EmptyString
  | None => "NULL"
  end.

Definition child_text {T} (text : option T → string) (c : list (option T)) (idx : Z) : string :=
  text (mjoin (c !! Z.to_nat idx)).

(** [[{p:q}, {}]] and [[{}, {r:s}]] over one-byte keys and values. *)
Definition col_pq : MapColumn Ascii.ascii Ascii.ascii :=
  mk_MapColumn [Some "p"]%char [Some "q"]%char [0; 1; 1].

Definition col_rs : MapColumn Ascii.ascii Ascii.ascii :=
  mk_MapColumn [Some "r"]%char [Some "s"]%char [0; 0; 1].

(** [[{1:10, null:11, 1:12}, {2:20}]]: a row with a null key and a repeated
    key. *)
Definition col_dup : MapColumn Z Z :=
  mk_MapColumn [Some 1; None; Some 1; Some 2] [Some 10; Some 11; Some 12; Some 20] [0; 3; 4].
(** ** Machine integers: the conversions are the identity in range *)

Lemma u32_small x : 0 ≤ x < 2 ^ 32 → u32 x = x.
Proof. intros ?. unfold u32. by rewrite Z.mod_small. Qed.

Lemma u64_small x : 0 ≤ x < 2 ^ 64 → u64 x = x.
Proof. intros ?. unfold u64. by rewrite Z.mod_small. Qed.

Lemma i32_small x : - 2 ^ 31 ≤ x < 2 ^ 31 → i32 x = x.
Proof. intros ?. unfold i32. rewrite Z.mod_small; lia. Qed.

Lemma u32_range x : 0 ≤ u32 x < 2 ^ 32.
Proof. unfold u32. apply Z.mod_pos_bound. lia. Qed.

Lemma at_lookup (v : list Z) i x : v !! i = Some x → at_ v i = x.
Proof. unfold at_. by intros ->. Qed.

Lemma back_snoc (v : list Z) x : back (v ++ [x]) = x.
Proof. unfold back. by rewrite last_snoc. Qed.

Lemma at_app_l (v w : list Z) i : (i < length v)%nat → at_ (v ++ w) i = at_ v i.
Proof. intros ?. unfold at_. by rewrite lookup_app_l. Qed.

(** ** Offsets of a list of rows *)

Section rows_facts.
Context {K V : Type}.
Implicit Types (rs : list (list (option K * option V))).
Implicit Types (r : list (option K * option V)).

Lemma elements_nil : elements (K:=K) (V:=V) [] = 0.
Proof. done. Qed.

Lemma elements_cons r rs : elements (r :: rs) = Z.of_nat (length r) + elements rs.
Proof. unfold elements. simpl. rewrite length_app. lia. Qed.

Lemma elements_app rs1 rs2 : elements (rs1 ++ rs2) = elements rs1 + elements rs2.
Proof. unfold elements. rewrite concat_app, length_app. lia. Qed.

Lemma elements_snoc rs r : elements (rs ++ [r]) = elements rs + Z.of_nat (length r).
Proof. unfold elements. rewrite concat_app, length_app. simpl. rewrite app_nil_r. lia. Qed.

Lemma elements_nonneg rs : 0 ≤ elements rs.
Proof. unfold elements. lia. Qed.

Lemma elements_take_drop rs i : elements rs = elements (take i rs) + elements (drop i rs).
Proof. by rewrite <- elements_app, take_drop. Qed.

Lemma elements_take_le rs i : elements (take i rs) ≤ elements rs.
Proof. rewrite (elements_take_drop rs i). pose proof (elements_nonneg (drop i rs)). lia. Qed.

Lemma elements_take_mono rs i j :
  (i ≤ j)%nat → elements (take i rs) ≤ elements (take j rs).
Proof.
  intros Hij. replace (take i rs) with (take i (take j rs)).
  - apply elements_take_le.
  - rewrite take_take. f_equal. lia.
Qed.

Lemma elements_take_S rs i r :
  rs !! i = Some r → elements (take (S i) rs) = elements (take i rs) + Z.of_nat (length r).
Proof.
  intros Hi. rewrite (take_S_r _ _ _ Hi), elements_app, elements_cons, elements_nil. lia.
Qed.

Lemma elements_replicate_nil n : elements (K:=K) (V:=V) (replicate n []) = 0.
Proof. induction n as [|n IH]; [done|]. simpl. by rewrite elements_cons, IH. Qed.

Lemma length_offsets_of s rs : length (offsets_of s rs) = S (length rs).
Proof. revert s. induction rs as [|r rs IH]; intros s; simpl; [done|]. by rewrite IH. Qed.

Lemma offsets_of_snoc s rs r :
  offsets_of s (rs ++ [r]) = offsets_of s rs ++ [s + elements (rs ++ [r])].
Proof.
  revert s. induction rs as [|r' rs IH]; intros s; simpl.
  - rewrite elements_cons, elements_nil. do 2 f_equal. lia.
  - rewrite IH, !elements_cons. do 3 f_equal. lia.
Qed.

Lemma lookup_offsets_of s rs i :
  (i ≤ length rs)%nat → offsets_of s rs !! i = Some (s + elements (take i rs)).
Proof.
  revert s i. induction rs as [|r rs IH]; intros s i Hi; simpl in *.
  - replace i with 0%nat by lia. simpl. f_equal. rewrite elements_nil. lia.
  - destruct i as [|i]; simpl.
    + f_equal. rewrite elements_nil. lia.
    + rewrite IH by lia. f_equal. rewrite elements_cons. lia.
Qed.

Lemma at_offsets_of s rs i :
  (i ≤ length rs)%nat → at_ (offsets_of s rs) i = s + elements (take i rs).
Proof. intros Hi. apply at_lookup. by apply lookup_offsets_of. Qed.

Lemma back_offsets_of s rs : back (offsets_of s rs) = s + elements rs.
Proof.
  unfold back. rewrite last_lookup, length_offsets_of. simpl.
  rewrite lookup_offsets_of by lia. simpl. by rewrite take_ge by lia.
Qed.

Lemma offsets_of_app s rs1 rs2 :
  offsets_of s (rs1 ++ rs2) = offsets_of s rs1 ++ drop 1 (offsets_of (s + elements rs1) rs2).
Proof.
  revert s. induction rs1 as [|r rs1 IH]; intros s; simpl.
  - rewrite elements_nil, Z.add_0_r. by destruct rs2.
  - by rewrite IH, elements_cons, Z.add_assoc.
Qed.

End rows_facts.

Lemma foldl_ext {A B} (f g : A → B → A) (l : list B) (a : A) :
  (∀ a x, f a x = g a x) → foldl f a l = foldl g a l.
Proof.
  intros Hfg. revert a. induction l as [|x l IH]; intros a; simpl; [done|].
  by rewrite Hfg, IH.
Qed.

Lemma foldl_ext_in {A B} (f g : A → B → A) (l : list B) (a : A) :
  (∀ a x, x ∈ l → f a x = g a x) → foldl f a l = foldl g a l.
Proof.
  revert a. induction l as [|x l IH]; intros a Hfg; simpl; [done|].
  rewrite Hfg by left. apply IH. intros a' y Hy. apply Hfg. by right.
Qed.


(** ** A well-formed column is the column of its rows *)

Section representation.
Context {K V : Type} `{Countable K} `{!Inhabited K} `{!Inhabited V}.
Implicit Types (m : MapColumn K V) (rs : list (list (option K * option V))).

Lemma non_decreasing_cons x y (v : list Z) :
  non_decreasing (x :: y :: v) = true ↔ x ≤ y ∧ non_decreasing (y :: v) = true.
Proof.
  change (non_decreasing (x :: y :: v)) with ((x <=? y) && non_decreasing (y :: v)).
  rewrite andb_true_iff, Z.leb_le. done.
Qed.

Lemma back_cons_cons x y (v : list Z) : back (x :: y :: v) = back (y :: v).
Proof. unfold back. by rewrite last_cons_cons. Qed.

Lemma non_decreasing_le_back x (v : list Z) :
  non_decreasing (x :: v) = true → x ≤ back (x :: v).
Proof.
  revert x. induction v as [|y v IH]; intros x Hx.
  - unfold back. simpl. lia.
  - apply non_decreasing_cons in Hx as [Hxy Hy]. rewrite back_cons_cons.
    specialize (IH y Hy). lia.
Qed.

Lemma non_decreasing_lookup (v : list Z) i a b :
  non_decreasing v = true → v !! i = Some a → v !! S i = Some b → a ≤ b.
Proof.
  revert i. induction v as [|x v IH]; intros i Hv Ha Hb; [done|].
  destruct v as [|y v]; [done|].
  apply non_decreasing_cons in Hv as [Hxy Hv].
  destruct i as [|i]; simpl in *.
  - by simplify_eq.
  - by eapply IH.
Qed.

Lemma rows_from_spec o offs (ks : list (option K)) (vs : list (option V)) :
  non_decreasing (o :: offs) = true →
  0 ≤ o →
  back (o :: offs) ≤ Z.of_nat (length ks) →
  back (o :: offs) ≤ Z.of_nat (length vs) →
  offsets_of o (rows_from o offs ks vs) = o :: offs ∧
  concat (rows_from o offs ks vs) =
    zip (take (Z.to_nat (back (o :: offs) - o)) (drop (Z.to_nat o) ks))
        (take (Z.to_nat (back (o :: offs) - o)) (drop (Z.to_nat o) vs)).
Proof.
  revert o. induction offs as [|o' offs IH]; intros o Hnd Ho Hks Hvs.
  - split; [done|]. unfold back. simpl. by rewrite Z.sub_diag.
  - apply non_decreasing_cons in Hnd as [Hoo' Hnd].
    rewrite back_cons_cons in *.
    pose proof (non_decreasing_le_back _ _ Hnd) as Hb.
    destruct (IH o' Hnd) as [IH1 IH2]; [lia..|].
    simpl. split.
    + f_equal. rewrite length_zip_with, !length_take, !length_drop.
      replace (o + Z.of_nat _) with o' by lia. done.
    + rewrite IH2.
      replace (Z.to_nat (back (o' :: offs) - o))
        with (Z.to_nat (o' - o) + Z.to_nat (back (o' :: offs) - o'))%nat by lia.
      rewrite <- !take_take_drop, !drop_drop.
      replace (Z.to_nat o + Z.to_nat (o' - o))%nat with (Z.to_nat o') by lia.
      rewrite zip_with_app; [done|].
      rewrite !length_take, !length_drop. lia.
Qed.

Lemma row_app_offsets (pre : list Z) o o' post (ks : list (option K)) (vs : list (option V)) :
  row (mk_MapColumn ks vs (pre ++ o :: o' :: post)) (length pre) =
  zip (take (Z.to_nat (o' - o)) (drop (Z.to_nat o) ks))
      (take (Z.to_nat (o' - o)) (drop (Z.to_nat o) vs)).
Proof.
  unfold row, at_. simpl.
  rewrite !lookup_app_r by lia.
  replace (length pre - length pre)%nat with 0%nat by lia.
  replace (length pre + 1 - length pre)%nat with 1%nat by lia.
  done.
Qed.

Lemma rows_from_seq (pre : list Z) o offs (ks : list (option K)) (vs : list (option V)) :
  rows_from o offs ks vs =
  row (mk_MapColumn ks vs (pre ++ o :: offs)) <$> seq (length pre) (length offs).
Proof.
  revert pre o. induction offs as [|o' offs IH]; intros pre o; [done|].
  simpl. rewrite row_app_offsets. f_equal.
  rewrite (IH (pre ++ [o]) o'), length_app, <- app_assoc. simpl.
  by replace (length pre + 1)%nat with (S (length pre)) by lia.
Qed.

Lemma rows_rows_from m o offs :
  offsets m = o :: offs → rows m = rows_from o offs (keys m) (values m).
Proof.
  intros Hm. unfold rows, size. rewrite (rows_from_seq []). simpl.
  rewrite Hm. simpl. rewrite Nat.sub_0_r. by destruct m; simplify_eq/=.
Qed.

Lemma well_formed_unfold m :
  well_formed m = true ↔
  offsets m !! 0%nat = Some 0 ∧ non_decreasing (offsets m) = true ∧
  Forall (λ x, 0 ≤ x < 2 ^ 32) (offsets m) ∧
  back (offsets m) = Z.of_nat (length (keys m)) ∧
  back (offsets m) = Z.of_nat (length (values m)).
Proof.
  unfold well_formed, check_or_die, NullableColumn.size.
  rewrite !andb_true_iff, !bool_decide_eq_true, forallb_forall, Forall_forall.
  setoid_rewrite andb_true_iff. setoid_rewrite Z.leb_le. setoid_rewrite Z.ltb_lt.
  setoid_rewrite <- list_elem_of_In. tauto.
Qed.

(** A well-formed column stores exactly its rows. *)
Lemma well_formed_repr m :
  well_formed m = true → m = of_rows (rows m) ∧ elements (rows m) < 2 ^ 32.
Proof.
  rewrite well_formed_unfold. intros (H0 & Hnd & Hrange & Hk & Hv).
  destruct m as [ks vs offs]. simpl in *.
  destruct offs as [|o offs]; [done|]. simpl in H0. simplify_eq.
  rewrite (rows_rows_from _ 0 offs) by done. simpl.
  destruct (rows_from_spec 0 offs ks vs) as [H1 H2]; [done|lia|lia|lia|].
  assert (Hcat : concat (rows_from 0 offs ks vs) = zip ks vs).
  { rewrite H2, Z.sub_0_r. simpl.
    rewrite Hk at 1. rewrite Hv. by rewrite !Nat2Z.id, !firstn_all. }
  split.
  - unfold of_rows. rewrite Hcat, H1, fst_zip, snd_zip by lia. done.
  - unfold elements. rewrite Hcat, length_zip_with.
    assert (Hin : back (0 :: offs) ∈ 0 :: offs).
    { unfold back. destruct (last (0 :: offs)) as [x|] eqn:Hl; simpl; [|set_solver].
      apply last_Some in Hl as [l' Hl]. rewrite Hl. set_solver. }
    rewrite Forall_forall in Hrange. specialize (Hrange _ Hin). lia.
Qed.

Lemma row_of_rows rs i r : rs !! i = Some r → row (of_rows rs) i = r.
Proof.
  intros Hi. assert (i < length rs)%nat by (by eapply lookup_lt_Some).
  unfold row, of_rows. simpl.
  rewrite !at_offsets_of by lia.
  replace (i + 1)%nat with (S i) by lia.
  rewrite (elements_take_S _ _ _ Hi), !Z.add_0_l.
  replace (Z.to_nat (elements (take i rs) + Z.of_nat (length r) - elements (take i rs)))
    with (length r) by lia.
  unfold elements. rewrite Nat2Z.id.
  rewrite <- (take_drop_middle _ _ _ Hi) at 2 4.
  rewrite concat_app, !fmap_app, !drop_app_length'; [| by rewrite ?length_fmap..].
  simpl. rewrite !fmap_app, !take_app_length' by (by rewrite length_fmap).
  apply zip_fst_snd.
Qed.

Lemma size_of_rows rs : size (of_rows rs) = length rs.
Proof. unfold size, of_rows. simpl. rewrite length_offsets_of. lia. Qed.

(** The rows of the column of [rs] are [rs]. *)
Lemma rows_of_rows rs : rows (of_rows rs) = rs.
Proof.
  unfold rows. rewrite size_of_rows. apply list_eq. intros i.
  rewrite list_lookup_fmap. destruct (rs !! i) as [r|] eqn:Hi.
  - rewrite lookup_seq_lt by (by eapply lookup_lt_Some). simpl.
    by rewrite (row_of_rows _ _ _ Hi).
  - rewrite lookup_seq_ge; [done|]. by apply lookup_ge_None.
Qed.

Lemma non_decreasing_offsets_of s rs : non_decreasing (offsets_of s rs) = true.
Proof.
  revert s. induction rs as [|r rs IH]; intros s; [done|].
  simpl. specialize (IH (s + Z.of_nat (length r))).
  destruct rs; simpl in *; apply andb_true_iff; (split; [apply Z.leb_le; lia|done]).
Qed.

Lemma well_formed_of_rows rs : elements rs < 2 ^ 32 → well_formed (of_rows rs) = true.
Proof.
  intros Hlt. apply well_formed_unfold. simpl. split_and!.
  - by rewrite lookup_offsets_of by lia.
  - apply non_decreasing_offsets_of.
  - apply Forall_forall. intros x [i Hi]%list_elem_of_lookup.
    assert (i ≤ length rs)%nat.
    { apply lookup_lt_Some in Hi. rewrite length_offsets_of in Hi. lia. }
    rewrite lookup_offsets_of in Hi by done. simplify_eq.
    pose proof (elements_take_le rs i). pose proof (elements_nonneg (take i rs)). lia.
  - rewrite back_offsets_of, length_fmap. done.
  - rewrite back_offsets_of, length_fmap. done.
Qed.

(** Well-formedness, as a representation: the column of some rows, with
    fewer than [2^32] child elements. *)
Lemma well_formed_iff m :
  well_formed m = true ↔ ∃ rs, m = of_rows rs ∧ elements rs < 2 ^ 32.
Proof.
  split.
  - intros Hm. exists (rows m). by apply well_formed_repr.
  - intros (rs & -> & Hlt). by apply well_formed_of_rows.
Qed.

End representation.

(** ** The appending operations on the rows of a column *)

Section append_facts.
Context {K V : Type} `{Countable K} `{!Inhabited K} `{!Inhabited V}.
Implicit Types (m : MapColumn K V) (rs : list (list (option K * option V))).
Implicit Types (r : list (option K * option V)).

Lemma slice_concat {A} (ls : list (list A)) off cnt :
  take (length (concat (take cnt (drop off ls))))
       (drop (length (concat (take off ls))) (concat ls)) =
  concat (take cnt (drop off ls)).
Proof.
  rewrite <- (take_drop off ls) at 3. rewrite concat_app, drop_app_length.
  rewrite <- (take_drop cnt (drop off ls)) at 2. by rewrite concat_app, take_app_length.
Qed.

Lemma elements_take_add rs off cnt :
  elements (take (off + cnt) rs) = elements (take off rs) + elements (take cnt (drop off rs)).
Proof. by rewrite <- take_take_drop, elements_app. Qed.

Lemma foldl_seq_lookup {A B} (f : A → nat → A) (g : A → B → A) (l : list B) off cnt a :
  (off + cnt ≤ length l)%nat →
  (∀ a i x, l !! i = Some x → f a i = g a x) →
  foldl f a (seq off cnt) = foldl g a (take cnt (drop off l)).
Proof.
  intros Hlen Hfg. revert off a Hlen. induction cnt as [|cnt IH]; intros off a Hlen; [done|].
  destruct (lookup_lt_is_Some_2 l off) as [x Hx]; [lia|].
  rewrite (drop_S _ _ _ Hx). simpl. rewrite (Hfg _ _ _ Hx). apply IH. lia.
Qed.

Lemma push_rows_offsets_of rs1 rs2 :
  elements (rs1 ++ rs2) < 2 ^ 32 →
  push_rows (offsets_of 0 rs1) rs2 = offsets_of 0 (rs1 ++ rs2).
Proof.
  revert rs1. induction rs2 as [|r rs2 IH]; intros rs1 Hlt.
  - by rewrite app_nil_r.
  - rewrite (cons_middle r rs1 rs2), app_assoc in Hlt.
    rewrite (cons_middle r rs1 rs2), app_assoc, <- IH by done.
    unfold push_rows. simpl. f_equal.
    rewrite offsets_of_snoc, back_offsets_of. unfold offsets_append. do 2 f_equal.
    rewrite elements_app, elements_snoc in Hlt. rewrite elements_snoc.
    pose proof (elements_nonneg rs1). pose proof (elements_nonneg rs2).
    rewrite u32_small; lia.
Qed.

(** [append] from a well-formed source, into any column: the children receive
    the pairs of the copied rows, the offset buffer one entry per row. *)
Lemma append_spec m rs off cnt :
  (off + cnt ≤ length rs)%nat →
  elements rs < 2 ^ 32 →
  append m (of_rows rs) off cnt =
  mk_MapColumn (keys m ++ (concat (take cnt (drop off rs))).*1)
               (values m ++ (concat (take cnt (drop off rs))).*2)
               (push_rows (offsets m) (take cnt (drop off rs))).
Proof.
  intros Hlen Hlt. unfold append, NullableColumn.append. simpl.
  rewrite !at_offsets_of by lia. rewrite !Z.add_0_l.
  rewrite elements_take_add.
  replace (elements (take off rs) + elements (take cnt (drop off rs)) - elements (take off rs))
    with (elements (take cnt (drop off rs))) by lia.
  assert (0 ≤ elements (take cnt (drop off rs)) < 2 ^ 32) as Hc.
  { pose proof (elements_take_le (drop off rs) cnt).
    pose proof (elements_take_drop rs off). pose proof (elements_nonneg (take off rs)).
    pose proof (elements_nonneg (take cnt (drop off rs))). lia. }
  rewrite u64_small by lia.
  unfold elements. rewrite !Nat2Z.id.
  rewrite <- !fmap_drop, <- !fmap_take, slice_concat.
  f_equal. unfold push_rows. apply foldl_seq_lookup; [done|].
  intros a i r Hi. do 2 f_equal.
  assert (i < length rs)%nat by (by eapply lookup_lt_Some).
  rewrite !at_offsets_of by lia.
  replace (i + 1)%nat with (S i) by lia. rewrite (elements_take_S _ _ _ Hi).
  replace (0 + (elements (take i rs) + Z.of_nat (length r)) - (0 + elements (take i rs)))
    with (Z.of_nat (length r)) by lia.
  apply u32_small.
  pose proof (elements_take_le rs (S i)). rewrite (elements_take_S _ _ _ Hi) in *.
  pose proof (elements_nonneg (take i rs)). lia.
Qed.

Lemma append_of_rows rd rs off cnt :
  (off + cnt ≤ length rs)%nat →
  elements rs < 2 ^ 32 →
  elements (rd ++ take cnt (drop off rs)) < 2 ^ 32 →
  append (of_rows rd) (of_rows rs) off cnt = of_rows (rd ++ take cnt (drop off rs)).
Proof.
  intros Hlen Hrs Hrd. rewrite append_spec by done. unfold of_rows. simpl.
  by rewrite push_rows_offsets_of, concat_app, !fmap_app.
Qed.

Lemma of_rows_snoc rs r :
  of_rows (rs ++ [r]) =
  mk_MapColumn (keys (of_rows rs) ++ r.*1) (values (of_rows rs) ++ r.*2)
               (offsets (of_rows rs) ++ [elements (rs ++ [r])]).
Proof.
  unfold of_rows. simpl. rewrite offsets_of_snoc, concat_app, !fmap_app. simpl.
  by rewrite !app_nil_r.
Qed.

Lemma append_default1_of_rows rs :
  elements rs < 2 ^ 32 → append_default1 (of_rows rs) = of_rows (rs ++ [[]]).
Proof.
  intros Hlt. rewrite of_rows_snoc. unfold append_default1, offsets_append. simpl.
  rewrite back_offsets_of, !app_nil_r, elements_snoc.
  rewrite u32_small by (pose proof (elements_nonneg rs); lia).
  do 3 f_equal. simpl. lia.
Qed.

Lemma append_nulls_of_rows rs n :
  elements rs < 2 ^ 32 →
  append_nulls (of_rows rs) n = (of_rows (rs ++ replicate n []), true).
Proof.
  intros Hlt. unfold append_nulls. f_equal.
  induction n as [|n IH]; simpl.
  - by rewrite app_nil_r.
  - rewrite IH. fold (append_default1 (of_rows (rs ++ replicate n []))).
    rewrite append_default1_of_rows.
    + by rewrite <- app_assoc, <- replicate_S_end.
    + by rewrite elements_app, elements_replicate_nil, Z.add_0_r.
Qed.

Lemma offsets_of_replicate_nil s n :
  offsets_of (K:=K) (V:=V) s (replicate n []) = replicate (S n) s.
Proof.
  induction n as [|n IH]; [done|]. simpl in *. by rewrite Z.add_0_r, IH.
Qed.

Lemma of_rows_app_replicate_nil rs n :
  of_rows (rs ++ replicate n []) =
  mk_MapColumn (keys (of_rows rs)) (values (of_rows rs))
               (offsets (of_rows rs) ++ replicate n (elements rs)).
Proof.
  unfold of_rows. simpl.
  rewrite offsets_of_app, offsets_of_replicate_nil, concat_app. simpl.
  assert (concat (replicate n ([] : list (option K * option V))) = []) as ->.
  { induction n; [done|]. done. }
  by rewrite app_nil_r, Z.add_0_l.
Qed.

Lemma append_default_of_rows rs n :
  elements rs < 2 ^ 32 →
  append_default (of_rows rs) n = of_rows (rs ++ replicate n []).
Proof.
  intros Hlt. rewrite of_rows_app_replicate_nil. unfold append_default. simpl.
  rewrite back_offsets_of, Z.add_0_l.
  by rewrite u32_small by (pose proof (elements_nonneg rs); lia).
Qed.

Lemma append_datum_of_rows rs datum :
  elements (rs ++ [datum_row datum]) < 2 ^ 32 →
  append_datum (of_rows rs) datum = of_rows (rs ++ [datum_row datum]).
Proof.
  intros Hlt. rewrite of_rows_snoc. unfold append_datum, offsets_append. simpl.
  assert (∀ (l : list (K * option V)) ks vs,
    foldl (λ (kv : list (option K) * list (option V)) (it : K * option V),
             (NullableColumn.append_datum kv.1 (Some it.1),
              NullableColumn.append_datum kv.2 it.2)) (ks, vs) l =
    (ks ++ ((λ it, (Some it.1, it.2)) <$> l).*1,
     vs ++ ((λ it, (Some it.1, it.2)) <$> l).*2)) as Hfold.
  { induction l as [|it l IH]; intros ks vs; simpl.
    - by rewrite !app_nil_r.
    - rewrite IH. unfold NullableColumn.append_datum. by rewrite <- !app_assoc. }
  rewrite Hfold. simpl. unfold datum_row. f_equal.
  rewrite back_offsets_of. f_equal. f_equal.
  rewrite elements_snoc in *. unfold datum_row in *.
  rewrite length_fmap in *.
  rewrite u32_small by (pose proof (elements_nonneg rs); lia). lia.
Qed.

Lemma take_offsets_of s rs n :
  (n ≤ length rs)%nat → take (S n) (offsets_of s rs) = offsets_of s (take n rs).
Proof.
  revert s n. induction rs as [|r rs IH]; intros s n Hn; simpl in *.
  - by replace n with 0%nat by lia.
  - destruct n as [|n]; simpl; [done|]. by rewrite IH by lia.
Qed.

Lemma child_resize_prefix {T} `{!Inhabited T} (l1 l2 : list (option T)) n :
  n = Z.of_nat (length l1) → NullableColumn.resize (l1 ++ l2) n = l1.
Proof.
  intros ->. unfold NullableColumn.resize.
  rewrite Nat2Z.id, take_app_length, length_app.
  replace (_ - _)%nat with 0%nat by lia. simpl. by rewrite app_nil_r.
Qed.

Lemma resize_of_rows rs n :
  elements rs < 2 ^ 32 →
  resize (of_rows rs) n = of_rows (take n rs ++ replicate (n - length rs) []).
Proof.
  intros Hlt. rewrite of_rows_app_replicate_nil. unfold resize. simpl.
  rewrite length_offsets_of, back_offsets_of, Z.add_0_l.
  replace (n + 1)%nat with (S n) by lia.
  destruct (decide (n ≤ length rs)%nat) as [Hn|Hn].
  - rewrite take_offsets_of by done.
    replace (S n - S (length rs))%nat with 0%nat by lia.
    replace (n - length rs)%nat with 0%nat by lia. simpl. rewrite !app_nil_r.
    rewrite back_offsets_of, Z.add_0_l.
    assert (concat rs = concat (take n rs) ++ concat (drop n rs)) as ->.
    { by rewrite <- concat_app, take_drop. }
    rewrite !fmap_app.
    f_equal; apply child_resize_prefix; unfold elements; by rewrite length_fmap.
  - rewrite !take_ge by (rewrite ?length_offsets_of; lia).
    replace (S n - S (length rs))%nat with (n - length rs)%nat by lia.
    assert (back (offsets_of 0 rs ++ replicate (n - length rs) (elements rs)) = elements rs) as ->.
    { destruct (n - length rs)%nat as [|k] eqn:Hk; [lia|].
      rewrite replicate_S_end, app_assoc. apply back_snoc. }
    f_equal.
    + rewrite <- (app_nil_r (concat rs).*1) at 1.
      apply child_resize_prefix. unfold elements. by rewrite length_fmap.
    + rewrite <- (app_nil_r (concat rs).*2) at 1.
      apply child_resize_prefix. unfold elements. by rewrite length_fmap.
Qed.

End append_facts.

(** ** The compaction loop of [filter_range] *)

Section filter_facts.
Context {K V : Type} `{Countable K} `{!Inhabited K} `{!Inhabited V}.
Implicit Types (m : MapColumn K V) (rs : list (list (option K * option V))).
Implicit Types (r : list (option K * option V)).

Lemma select_app {A} (m1 m2 : list Z) (l1 l2 : list A) :
  length l1 = length m1 →
  NullableColumn.select (m1 ++ m2) (l1 ++ l2) =
  NullableColumn.select m1 l1 ++ NullableColumn.select m2 l2.
Proof.
  intros Hlen. unfold NullableColumn.select.
  by rewrite zip_with_app, filter_app, fmap_app.
Qed.

Lemma select_nil_r {A} (m1 : list Z) : NullableColumn.select m1 ([] : list A) = [].
Proof. done. Qed.

Lemma select_singleton {A} f (x : A) :
  NullableColumn.select [f] [x] = if decide (f = 0) then [] else [x].
Proof.
  unfold NullableColumn.select. simpl. rewrite filter_cons, filter_nil. simpl.
  by repeat case_decide.
Qed.

Lemma length_select_le {A} (mask : list Z) (l : list A) :
  (length (NullableColumn.select mask l) ≤ length l)%nat.
Proof.
  unfold NullableColumn.select. rewrite length_fmap.
  etrans; [apply length_filter|]. rewrite length_zip_with. lia.
Qed.

Lemma select_ones {A} (l : list A) (mask : list Z) :
  (length l ≤ length mask)%nat → Forall (λ f, f ≠ 0) mask →
  NullableColumn.select mask l = l.
Proof.
  revert mask. induction l as [|x l IH]; intros mask Hlen Hall; [done|].
  destruct mask as [|f mask]; simpl in *; [lia|].
  apply Forall_cons in Hall as [Hf Hall].
  unfold NullableColumn.select in *. simpl. rewrite filter_cons. simpl.
  case_decide; [|done]. simpl. f_equal. apply IH; [lia|done].
Qed.

Lemma select_zeros {A} (l : list A) n : NullableColumn.select (replicate n 0) l = [].
Proof.
  revert n. induction l as [|x l IH]; intros n; [done|].
  destruct n as [|n]; [done|].
  unfold NullableColumn.select in *. simpl. rewrite filter_cons. simpl. apply IH.
Qed.

Lemma element_marks_app rs1 rs2 (fs1 fs2 : list Z) :
  length rs1 = length fs1 →
  element_marks (rs1 ++ rs2) (fs1 ++ fs2) = element_marks rs1 fs1 ++ element_marks rs2 fs2.
Proof. intros Hlen. unfold element_marks. by rewrite zip_with_app, concat_app. Qed.

Lemma length_element_marks rs (fs : list Z) :
  (length rs ≤ length fs)%nat → Z.of_nat (length (element_marks rs fs)) = elements rs.
Proof.
  revert fs. induction rs as [|r rs IH]; intros fs Hlen; [done|].
  destruct fs as [|f fs]; simpl in *; [lia|].
  unfold element_marks in *. simpl.
  rewrite length_app, length_replicate, elements_cons, Nat2Z.inj_add, IH by lia. done.
Qed.

(** Selecting child elements with the element-level mask keeps exactly the
    pairs of the selected rows. *)
Lemma select_element_marks rs (fs : list Z) :
  (length rs ≤ length fs)%nat →
  NullableColumn.select (element_marks rs fs) (concat rs) =
  concat (NullableColumn.select fs rs).
Proof.
  revert fs. induction rs as [|r rs IH]; intros fs Hlen; [done|].
  destruct fs as [|f fs]; simpl in *; [lia|].
  change (element_marks (r :: rs) (f :: fs))
    with (replicate (length r) (if decide (f = 0) then 0 else 1) ++ element_marks rs fs).
  rewrite select_app by (by rewrite length_replicate).
  rewrite IH by lia.
  change (f :: fs) with ([f] ++ fs). change (r :: rs) with ([r] ++ rs).
  rewrite (select_app [f] fs [r] rs) by done.
  rewrite concat_app, select_singleton. f_equal.
  case_decide; simpl.
  - apply select_zeros.
  - rewrite app_nil_r. apply select_ones.
    + by rewrite length_replicate.
    + apply Forall_replicate. lia.
Qed.

Lemma select_fmap {A B} (g : A → B) (mask : list Z) (l : list A) :
  NullableColumn.select mask (g <$> l) = g <$> NullableColumn.select mask l.
Proof.
  revert mask. induction l as [|x l IH]; intros mask; [done|].
  destruct mask as [|f mask]; [done|].
  unfold NullableColumn.select in *. simpl. rewrite !filter_cons. simpl.
  case_decide; simpl; by rewrite IH.
Qed.

Lemma select_cons {A} f (mask : list Z) (x : A) l :
  NullableColumn.select (f :: mask) (x :: l) =
  (if decide (f = 0) then [] else [x]) ++ NullableColumn.select mask l.
Proof.
  change (f :: mask) with ([f] ++ mask). change (x :: l) with ([x] ++ l).
  by rewrite select_app, select_singleton.
Qed.

Lemma elements_select_le (mask : list Z) rs :
  elements (NullableColumn.select mask rs) ≤ elements rs.
Proof.
  revert mask. induction rs as [|r rs IH]; intros mask; [done|].
  destruct mask as [|f mask].
  - unfold NullableColumn.select. simpl. pose proof (elements_nonneg (r :: rs)).
    by rewrite elements_nil.
  - rewrite select_cons, elements_app, elements_cons. specialize (IH mask).
    case_decide; rewrite ?elements_cons, ?elements_nil; lia.
Qed.

Lemma at_shape (pre orig : list Z) k j :
  length pre = S k → (S k ≤ j)%nat → at_ (pre ++ drop (S k) orig) j = at_ orig j.
Proof.
  intros Hpre Hj. unfold at_. rewrite lookup_app_r by lia. rewrite lookup_drop.
  do 2 f_equal. lia.
Qed.

Lemma memset_middle (a : list Z) n (rest : list Z) start len :
  start = Z.of_nat (length a) → len = Z.of_nat n →
  memset (a ++ replicate n 0 ++ rest) start 1 len = a ++ replicate n 1 ++ rest.
Proof.
  intros -> ->. unfold memset. rewrite !Nat2Z.id.
  rewrite <- (Nat.add_0_r (length a)) at 1.
  rewrite list_inserts_app_r, list_inserts_0_r; [done|].
  by rewrite !length_replicate.
Qed.

Lemma element_marks_singleton r f :
  element_marks [r] [f] = replicate (length r) (if decide (f = 0) then 0 else 1).
Proof. unfold element_marks. simpl. by rewrite app_nil_r. Qed.

(** The state of the compaction loop after [n] iterations. *)
Lemma filter_loop_spec rs (filter : list Z) from n :
  elements rs < 2 ^ 32 →
  (from + n ≤ length rs)%nat →
  (from + n ≤ length filter)%nat →
  let kept := take from rs ++
              NullableColumn.select (take n (drop from filter)) (take n (drop from rs)) in
  let st := foldl (filter_step filter)
              (mk_filter_state (offsets_of 0 rs) (replicate (Z.to_nat (elements rs)) 0) from)
              (seq from n) in
  fs_result_offset st = length kept ∧
  (length kept ≤ from + n)%nat ∧
  fs_offsets st = offsets_of 0 kept ++ drop (S (length kept)) (offsets_of 0 rs) ∧
  at_ (fs_offsets st) (from + n) = elements (take (from + n) rs) ∧
  fs_element_filter st =
    replicate (Z.to_nat (elements (take from rs))) 0 ++
    element_marks (take n (drop from rs)) (take n (drop from filter)) ++
    replicate (Z.to_nat (elements (drop (from + n) rs))) 0.
Proof.
  intros Hlt. induction n as [|n IH]; intros Hrs Hfl; cbv zeta.
  - rewrite !take_0, select_nil_r, app_nil_r, Nat.add_0_r, length_take_le by lia. simpl.
    split_and!; [done|done| | |].
    + by rewrite <- take_offsets_of, take_drop by lia.
    + by rewrite at_offsets_of by lia.
    + rewrite (elements_take_drop rs from) at 1.
      rewrite Z2Nat.inj_add by apply elements_nonneg. by rewrite replicate_add.
  - destruct IH as (Hres & Hle & Hoff & Hat & Hef); [lia..|].
    rewrite seq_S, foldl_app. simpl.
    set (st := foldl (filter_step filter) _ (seq from n)) in *.
    set (kept := take from rs ++ NullableColumn.select (take n (drop from filter))
                                   (take n (drop from rs))) in *.
    destruct (lookup_lt_is_Some_2 rs (from + n)) as [r Hr]; [lia|].
    destruct (lookup_lt_is_Some_2 filter (from + n)) as [f Hf]; [lia|].
    assert (Hlenr : length (take n (drop from rs)) = n).
    { rewrite length_take, length_drop. lia. }
    assert (Hlenf : length (take n (drop from filter)) = n).
    { rewrite length_take, length_drop. lia. }
    rewrite (take_S_r (drop from rs) n r) by (by rewrite lookup_drop).
    rewrite (take_S_r (drop from filter) n f) by (by rewrite lookup_drop).
    rewrite select_app, element_marks_app, select_singleton, element_marks_singleton by lia.
    assert (Hnext : at_ (fs_offsets st) (from + n + 1) = elements (take (S (from + n)) rs)).
    { rewrite Hoff, at_shape, at_offsets_of; rewrite ?length_offsets_of; try lia.
      by replace (from + n + 1)%nat with (S (from + n)) by lia. }
    assert (Hkept : elements kept ≤ elements (take (from + n) rs)).
    { unfold kept. rewrite elements_app, elements_take_add.
      pose proof (elements_select_le (take n (drop from filter)) (take n (drop from rs))). lia. }
    pose proof (elements_take_S _ _ _ Hr) as HS.
    pose proof (elements_take_le rs (S (from + n))).
    pose proof (elements_nonneg (take (from + n) rs)).
    pose proof (elements_nonneg kept).
    assert (Hdrop : Z.to_nat (elements (drop (from + n) rs)) =
                    (length r + Z.to_nat (elements (drop (from + S n) rs)))%nat).
    { rewrite (drop_S _ _ _ Hr), elements_cons.
      replace (from + S n)%nat with (S (from + n)) by lia.
      pose proof (elements_nonneg (drop (S (from + n)) rs)). lia. }
    unfold filter_step, keep_row. rewrite (at_lookup _ _ _ Hf).
    destruct (decide (f = 0)) as [Hf0|Hf0].
    + rewrite !app_nil_r. fold kept. split_and!; [done|lia|done| |].
      * replace (from + S n)%nat with (from + n + 1)%nat by lia. rewrite Hnext.
        by replace (from + n + 1)%nat with (S (from + n)) by lia.
      * rewrite Hef, Hdrop, replicate_add. by rewrite <- !app_assoc.
    + rewrite Hnext, Hat, HS.
      replace (elements (take (from + n) rs) + Z.of_nat (length r) - elements (take (from + n) rs))
        with (Z.of_nat (length r)) by lia.
      rewrite (u32_small (Z.of_nat (length r))) by lia.
      assert (Hatres : at_ (fs_offsets st) (fs_result_offset st) = elements kept).
      { rewrite Hoff, Hres, at_app_l by (rewrite length_offsets_of; lia).
        rewrite at_offsets_of by lia. by rewrite take_ge by lia. }
      simpl. rewrite Hatres. rewrite u32_small by lia.
      rewrite !(app_assoc (take from rs) _ [r]). fold kept.
      rewrite length_app. simpl.
      split_and!; [lia|lia| | |].
      * rewrite offsets_of_snoc, elements_snoc, Z.add_0_l, Hoff, Hres.
        replace (length kept + 1)%nat with (length (offsets_of 0 kept) + 0)%nat
          by (rewrite length_offsets_of; lia).
        rewrite insert_app_r.
        destruct (lookup_lt_is_Some_2 (offsets_of 0 rs) (S (length kept))) as [y Hy].
        { rewrite length_offsets_of. lia. }
        rewrite (drop_S _ _ _ Hy). simpl. rewrite <- app_assoc. simpl.
        by rewrite length_offsets_of, Nat.add_0_r.
      * rewrite Hres. destruct (decide (length kept = from + n)%nat) as [Heq|Hne].
        -- replace (from + S n)%nat with (length kept + 1)%nat by lia.
           unfold at_. rewrite list_lookup_insert_eq.
           ++ simpl. rewrite <- Hatres, Hres, Heq, Hat.
              replace (from + n + 1)%nat with (S (from + n)) by lia. lia.
           ++ rewrite Hoff, length_app, length_offsets_of, length_drop, length_offsets_of. lia.
        -- unfold at_. rewrite list_lookup_insert_ne by lia.
           fold (at_ (fs_offsets st) (from + S n)).
           replace (from + S n)%nat with (from + n + 1)%nat by lia. rewrite Hnext.
           by replace (from + n + 1)%nat with (S (from + n)) by lia.
      * rewrite Hef, Hdrop, replicate_add.
        rewrite (app_assoc (replicate _ 0) (element_marks _ _)).
        rewrite memset_middle with (n := length r).
        -- by rewrite <- !app_assoc.
        -- rewrite length_app, length_replicate, Nat2Z.inj_add, length_element_marks by lia.
           rewrite elements_take_add. pose proof (elements_nonneg (take from rs)). lia.
        -- done.
Qed.

Lemma select_take_mask {A} (mask : list Z) (l : list A) n :
  (length l ≤ n)%nat → NullableColumn.select (take n mask) l = NullableColumn.select mask l.
Proof. intros Hn. unfold NullableColumn.select. rewrite zip_with_take_r' by lia. done. Qed.

Lemma child_filter_range_spec {T} (pre mid : list (option T)) (marks : list Z) n from to :
  n = length pre → from = Z.of_nat n → to = Z.of_nat (n + length mid) →
  (NullableColumn.filter_range (pre ++ mid) (replicate n 0 ++ marks) from to).1 =
  pre ++ NullableColumn.select marks mid.
Proof.
  intros -> -> ->. unfold NullableColumn.filter_range. simpl.
  rewrite !Nat2Z.id, take_app_length, !drop_app_length'; [|done|by rewrite length_replicate].
  rewrite take_ge by lia. done.
Qed.

(** [filter_range] on the column of the rows [rs]. *)
Lemma filter_range_of_rows rs (filter : list Z) from :
  elements rs < 2 ^ 32 →
  (from ≤ length rs)%nat →
  (length rs ≤ length filter)%nat →
  filter_range false (of_rows rs) filter from (length rs) =
  (of_rows (filter_rows filter from rs), length (filter_rows filter from rs)).
Proof.
  intros Hlt Hfrom Hfl.
  destruct (filter_loop_spec rs filter from (length rs - from) Hlt)
    as (Hres & Hle & Hoff & Hat & Hef); [lia..|].
  unfold filter_range.
  change (offsets (of_rows rs)) with (offsets_of 0 rs).
  change (keys (of_rows rs)) with ((concat rs).*1).
  change (values (of_rows rs)) with ((concat rs).*2).
  rewrite !at_offsets_of by lia. rewrite Z.add_0_l, (take_ge rs (length rs)) by lia.
  set (st := foldl (filter_step filter) _ _) in *.
  assert (Hn : length (drop from rs) = (length rs - from)%nat) by (by rewrite length_drop).
  rewrite (take_ge (drop from rs)) in Hres, Hle, Hoff, Hef by lia.
  rewrite select_take_mask in Hres, Hle, Hoff by lia.
  fold (filter_rows filter from rs) in Hres, Hle, Hoff.
  set (kept := filter_rows filter from rs) in *.
  replace (from + (length rs - from))%nat with (length rs) in Hef by lia.
  replace (elements (drop (length rs) rs)) with 0 in Hef by (by rewrite drop_all).
  simpl in Hef. rewrite app_nil_r in Hef.
  assert (Hsplit : concat rs = concat (take from rs) ++ concat (drop from rs)).
  { by rewrite <- concat_app, take_drop. }
  assert (Hfrom' : Z.to_nat (elements (take from rs)) = length (concat (take from rs))).
  { unfold elements. lia. }
  assert (Hkeys : ∀ {T} (g : option K * option V → option T),
    (NullableColumn.filter_range (g <$> concat rs) (fs_element_filter st)
       (elements (take from rs)) (0 + elements rs)).1 = g <$> concat kept).
  { intros T g. rewrite Hef, Hsplit, fmap_app, Hfrom'.
    rewrite child_filter_range_spec with (n := length (concat (take from rs))).
    - rewrite select_fmap, select_element_marks, select_take_mask
        by (rewrite ?length_take, ?length_drop; lia).
      unfold kept, filter_rows. by rewrite concat_app, fmap_app.
    - by rewrite length_fmap.
    - done.
    - unfold elements. rewrite Hsplit, length_app, length_fmap. lia. }
  rewrite !Hkeys. unfold resize. cbn [offsets keys values]. rewrite Hres. f_equal.
  assert (Htake : take (length kept + 1) (fs_offsets st) ++
                  replicate (length kept + 1 - length (fs_offsets st)) (back (fs_offsets st)) =
                  offsets_of 0 kept).
  { rewrite Hoff, take_app_length' by (rewrite length_offsets_of; lia).
    rewrite length_app, length_offsets_of.
    replace (_ - _)%nat with 0%nat by lia. simpl. by rewrite app_nil_r. }
  rewrite Htake, back_offsets_of, Z.add_0_l. unfold of_rows. f_equal.
  - rewrite <- (app_nil_r (concat kept).*1) at 1.
    apply child_resize_prefix. unfold elements. by rewrite length_fmap.
  - rewrite <- (app_nil_r (concat kept).*2) at 1.
    apply child_resize_prefix. unfold elements. by rewrite length_fmap.
Qed.

End filter_facts.

(** ** The batch loop of the AVX2 build *)

Section mask_facts.

Lemma movemask_nonneg lanes : 0 ≤ movemask lanes.
Proof. induction lanes as [|[] lanes IH]; simpl; lia. Qed.

Lemma movemask_lt lanes : movemask lanes < 2 ^ Z.of_nat (length lanes).
Proof.
  induction lanes as [|b lanes IH]; [done|].
  cbn [movemask length]. rewrite Nat2Z.inj_succ, Z.pow_succ_r by lia.
  destruct b; lia.
Qed.

Lemma movemask_zero lanes : movemask lanes = 0 ↔ Forall (λ b, b = false) lanes.
Proof.
  induction lanes as [|b lanes IH]; [by split|].
  cbn [movemask]. pose proof (movemask_nonneg lanes). rewrite Forall_cons, <- IH.
  destruct b; split; intros; try lia; naive_solver lia.
Qed.

Lemma movemask_ones lanes :
  movemask lanes = 2 ^ Z.of_nat (length lanes) - 1 ↔ Forall (λ b, b = true) lanes.
Proof.
  induction lanes as [|b lanes IH]; [by split|].
  cbn [movemask length]. rewrite Nat2Z.inj_succ, Z.pow_succ_r, Forall_cons, <- IH by lia.
  pose proof (movemask_lt lanes). pose proof (movemask_nonneg lanes).
  destruct b; split; intros; try lia; naive_solver lia.
Qed.

Lemma count_trailing_zeros_zero width : count_trailing_zeros width 0 = Z.of_nat width.
Proof.
  induction width as [|width IH]; [done|].
  cbn [count_trailing_zeros]. change (Z.odd 0) with false. change (0 / 2) with 0.
  cbv iota. rewrite IH. lia.
Qed.

Lemma count_trailing_zeros_movemask width z lanes :
  (z < width)%nat →
  count_trailing_zeros width (movemask (replicate z false ++ true :: lanes)) = Z.of_nat z.
Proof.
  revert width. induction z as [|z IH]; intros width Hz.
  - destruct width as [|width]; [lia|]. cbn [replicate app movemask count_trailing_zeros].
    by rewrite Z.odd_add_mul_2.
  - destruct width as [|width]; [lia|]. cbn [replicate app movemask count_trailing_zeros].
    rewrite Z.add_0_l, Z.odd_mul, andb_false_l.
    rewrite (Z.mul_comm 2), Z.div_mul by lia. rewrite IH by lia. lia.
Qed.

Lemma CountTrailingZeros32_movemask z lanes :
  (z < 32)%nat →
  CountTrailingZeros32 (movemask (replicate z false ++ true :: lanes)) = Z.of_nat z.
Proof. apply count_trailing_zeros_movemask. Qed.

Lemma shiftr_movemask lanes k :
  Z.shiftr (movemask lanes) (Z.of_nat k) = movemask (drop k lanes).
Proof.
  revert lanes. induction k as [|k IH]; intros lanes.
  - by rewrite Z.shiftr_0_r.
  - destruct lanes as [|b lanes].
    + by rewrite Z.shiftr_0_l.
    + cbn [drop movemask]. rewrite <- IH.
      rewrite !Z.shiftr_div_pow2, Nat2Z.inj_succ, Z.pow_succ_r by lia.
      rewrite <- Z.div_div by lia. f_equal.
      destruct b; [|by rewrite Z.add_0_l, (Z.mul_comm 2), Z.div_mul by lia].
      rewrite Z.add_comm, (Z.mul_comm 2), Z.div_add_l by lia.
      change (1 / 2) with 0. lia.
Qed.

Lemma drop_first_set z (lanes : list bool) :
  drop (S z) (replicate z false ++ true :: lanes) = lanes.
Proof. induction z as [|z IH]; [done|]. exact IH. Qed.

(** A list of lanes is all unset, or has a first set lane. *)
Lemma lanes_first_set (lanes : list bool) :
  Forall (λ b, b = false) lanes ∨
  ∃ z lanes', lanes = replicate z false ++ true :: lanes'.
Proof.
  induction lanes as [|b lanes IH]; [by left|].
  destruct b.
  - right. by exists 0%nat, lanes.
  - destruct IH as [IH|(z & lanes' & ->)].
    + left. by constructor.
    + right. by exists (S z), lanes'.
Qed.

End mask_facts.

Section batch_facts.
Context {K V : Type} `{Countable K} `{!Inhabited K} `{!Inhabited V}.
Implicit Types (rs : list (list (option K * option V))).
Variable filter : list Z.
Hypothesis filter_bytes : Forall (λ b, 0 ≤ b < 128) filter.

Lemma at_filter_range i : 0 ≤ at_ filter i < 128.
Proof.
  unfold at_. destruct (filter !! i) as [b|] eqn:Hi; simpl; [|lia].
  rewrite Forall_forall in filter_bytes. apply filter_bytes.
  by eapply list_elem_of_lookup_2.
Qed.

Lemma lookup_batch_lanes check j :
  (j < 32)%nat →
  batch_lanes filter check !! j = Some (bool_decide (at_ filter (check + j) ≠ 0)).
Proof.
  intros Hj. unfold batch_lanes, kBatchSize.
  rewrite list_lookup_fmap, lookup_seq_lt by done. simpl. f_equal.
  pose proof (at_filter_range (check + j)). unfold int8.
  case_decide; [|lia]. apply bool_decide_ext. lia.
Qed.

Lemma length_batch_lanes check : length (batch_lanes filter check) = 32%nat.
Proof. unfold batch_lanes, kBatchSize. by rewrite length_fmap, length_seq. Qed.

(** The scalar loop passes over rows whose filter byte is zero. *)
Lemma filter_steps_skip (st : filter_state) start n :
  (∀ j, (j < n)%nat → at_ filter (start + j) = 0) →
  foldl (filter_step filter) st (seq start n) = st.
Proof.
  revert start. induction n as [|n IH]; intros start Hz; [done|].
  assert (at_ filter start = 0) as H0.
  { rewrite <- (Nat.add_0_r start). apply Hz. lia. }
  simpl. unfold filter_step at 2. rewrite H0. case_decide; [|done].
  apply IH. intros j Hj. replace (S start + j)%nat with (start + S j)%nat by lia.
  apply Hz. lia.
Qed.

Lemma filter_steps_first_set (st : filter_state) start z n :
  (∀ j, (j < z)%nat → at_ filter (start + j) = 0) →
  at_ filter (start + z) ≠ 0 →
  foldl (filter_step filter) st (seq start (z + S n)) =
  foldl (filter_step filter) (keep_row st (start + z)) (seq (start + z + 1) n).
Proof.
  intros Hz Hset. rewrite seq_app, foldl_app, (filter_steps_skip st start z) by done.
  simpl. unfold filter_step at 2. case_decide; [done|].
  by replace (S (start + z)) with (start + z + 1)%nat by lia.
Qed.

(** The loop over a mixed batch does what the scalar loop does on the rows of
    the batch from lane [p] on. *)
Lemma mixed_loop_spec check fuel p (st : filter_state) :
  (p ≤ 32)%nat → (32 ≤ fuel + p)%nat →
  mixed_loop fuel check (movemask (drop p (batch_lanes filter check)))
    (CountTrailingZeros32 (movemask (drop p (batch_lanes filter check))))
    (Z.of_nat p + CountTrailingZeros32 (movemask (drop p (batch_lanes filter check)))) st =
  foldl (filter_step filter) st (seq (check + p) (32 - p)).
Proof.
  revert p st. induction fuel as [|fuel IH]; intros p st Hp Hfuel.
  - replace (32 - p)%nat with 0%nat by lia. done.
  - cbn [mixed_loop]. unfold kBatchSize.
    pose proof (length_batch_lanes check) as Hlen.
    destruct (lanes_first_set (drop p (batch_lanes filter check)))
      as [Hall|(z & lanes' & Hl)].
    + rewrite (proj2 (movemask_zero _) Hall).
      unfold CountTrailingZeros32. rewrite count_trailing_zeros_zero.
      case_decide; [lia|]. symmetry. apply filter_steps_skip.
      intros j Hj. rewrite Forall_forall in Hall.
      pose proof (lookup_batch_lanes check (p + j) ltac:(lia)) as Hlane.
      rewrite <- lookup_drop in Hlane. apply list_elem_of_lookup_2, Hall in Hlane.
      apply bool_decide_eq_false in Hlane.
      replace (check + p + j)%nat with (check + (p + j))%nat by lia.
      destruct (decide (at_ filter (check + (p + j)) = 0)); [done|]. by destruct Hlane.
    + assert (Hz : (p + z < 32)%nat).
      { apply (f_equal length) in Hl.
        rewrite length_drop, length_app, length_replicate, Hlen in Hl. simpl in Hl. lia. }
      rewrite Hl. rewrite !(CountTrailingZeros32_movemask z lanes') by lia.
      case_decide; [|lia].
      assert (Hshift : (if decide (Z.of_nat z < 31)
                        then Z.shiftr (movemask (replicate z false ++ true :: lanes'))
                                      (Z.of_nat z + 1)
                        else 0) =
                       movemask (drop (p + z + 1) (batch_lanes filter check))).
      { replace (p + z + 1)%nat with (p + S z)%nat by lia.
        rewrite <- drop_drop, Hl, drop_first_set.
        case_decide.
        - replace (Z.of_nat z + 1) with (Z.of_nat (S z)) by lia.
          by rewrite shiftr_movemask, drop_first_set.
        - assert (lanes' = []) as ->; [|done].
          apply (f_equal length) in Hl.
          rewrite length_drop, length_app, length_replicate, Hlen in Hl. simpl in Hl.
          destruct lanes'; [done|]. simpl in Hl. lia. }
      rewrite Hshift.
      replace (Z.to_nat (Z.of_nat p + Z.of_nat z)) with (p + z)%nat by lia.
      replace (Z.of_nat p + Z.of_nat z +
               (CountTrailingZeros32 (movemask (drop (p + z + 1) (batch_lanes filter check))) + 1))
        with (Z.of_nat (p + z + 1) +
              CountTrailingZeros32 (movemask (drop (p + z + 1) (batch_lanes filter check))))
        by lia.
      rewrite IH by lia.
      replace (32 - p)%nat with (z + S (32 - (p + z + 1)))%nat by lia.
      rewrite filter_steps_first_set.
      * do 2 f_equal; lia.
      * intros j Hj.
        pose proof (lookup_batch_lanes check (p + j) ltac:(lia)) as Hlane.
        rewrite <- lookup_drop, Hl, lookup_app_l in Hlane by (rewrite length_replicate; lia).
        rewrite lookup_replicate_2 in Hlane by done.
        injection Hlane as Hlane. symmetry in Hlane. apply bool_decide_eq_false in Hlane.
        replace (check + p + j)%nat with (check + (p + j))%nat by lia.
        destruct (decide (at_ filter (check + (p + j)) = 0)); [done|]. by destruct Hlane.
      * pose proof (lookup_batch_lanes check (p + z) ltac:(lia)) as Hlane.
        rewrite <- lookup_drop, Hl, lookup_app_r in Hlane by (rewrite length_replicate; lia).
        rewrite length_replicate, Nat.sub_diag in Hlane. simpl in Hlane.
        injection Hlane as Hlane. symmetry in Hlane. apply bool_decide_eq_true in Hlane.
        by replace (check + p + z)%nat with (check + (p + z))%nat by lia.
Qed.

Lemma drop_offsets_of s rs i :
  (i ≤ length rs)%nat →
  drop (S i) (offsets_of s rs) = drop 1 (offsets_of (s + elements (take i rs)) (drop i rs)).
Proof.
  intros Hi. rewrite <- (take_drop i rs) at 1. rewrite offsets_of_app.
  rewrite drop_app_length'; [done|]. rewrite length_offsets_of, length_take. lia.
Qed.

Lemma rebase_offsets_of d s rs :
  0 ≤ s - d → s - d + elements rs < 2 ^ 32 →
  (λ x, u32 (x - d)) <$> offsets_of s rs = offsets_of (s - d) rs.
Proof.
  revert s. induction rs as [|r rs IH]; intros s Hs Hlt.
  - simpl. rewrite u32_small; [done|]. rewrite elements_nil in Hlt. lia.
  - rewrite elements_cons in Hlt. pose proof (elements_nonneg rs).
    simpl. rewrite u32_small by lia. f_equal.
    rewrite IH by lia. f_equal. lia.
Qed.

(** The rebasing loop of the all-hit branch rewrites a block of offsets. *)
Lemma rebase_loop (g : Z → Z) (A B C : list Z) base :
  length A = (base + 1)%nat →
  foldl (λ offs i, <[(base + i + 1)%nat := g (at_ offs (base + i + 1))]> offs)
        (A ++ B ++ C) (seq 0 (length B)) =
  A ++ (g <$> B) ++ C.
Proof.
  revert A base. induction B as [|b B IH]; intros A base HA; [done|].
  assert (at_ (A ++ (b :: B) ++ C) (base + 0 + 1) = b) as Hb.
  { unfold at_. rewrite lookup_app_r by lia.
    by replace (base + 0 + 1 - length A)%nat with 0%nat by lia. }
  cbn [length seq foldl]. rewrite Hb, <- fmap_S_seq, foldl_fmap.
  replace (base + 0 + 1)%nat with (length A + 0)%nat by lia.
  rewrite insert_app_r. simpl.
  rewrite (cons_middle (g b) A), app_assoc.
  rewrite (foldl_ext _ (λ offs i, <[(S base + i + 1)%nat :=
                                      g (at_ offs (S base + i + 1))]> offs)).
  - rewrite IH by (rewrite length_app; simpl; lia). by rewrite <- app_assoc.
  - intros offs i. by replace (base + S i + 1)%nat with (S base + i + 1)%nat by lia.
Qed.

Lemma element_marks_ones rs (fs : list Z) :
  length fs = length rs → Forall (λ f, f ≠ 0) fs →
  element_marks rs fs = replicate (Z.to_nat (elements rs)) 1.
Proof.
  revert fs. induction rs as [|r rs IH]; intros fs Hlen Hall.
  - by destruct fs.
  - destruct fs as [|f fs]; [done|]. apply Forall_cons in Hall as [Hf Hall].
    change (element_marks (r :: rs) (f :: fs))
      with (replicate (length r) (if decide (f = 0) then 0 else 1) ++ element_marks rs fs).
    rewrite IH by (done || (simpl in Hlen; lia)). case_decide; [done|].
    rewrite elements_cons. pose proof (elements_nonneg rs).
    rewrite Z2Nat.inj_add, Nat2Z.id, replicate_add by lia. done.
Qed.

(** On a batch whose rows are all kept, the all-hit branch does what 32
    iterations of the scalar loop do. *)
Lemma all_hit_spec rs from n :
  elements rs < 2 ^ 32 →
  (from + n + 32 ≤ length rs)%nat →
  (from + n + 32 ≤ length filter)%nat →
  (∀ j, (j < 32)%nat → at_ filter (from + n + j) ≠ 0) →
  all_hit (foldl (filter_step filter)
             (mk_filter_state (offsets_of 0 rs) (replicate (Z.to_nat (elements rs)) 0) from)
             (seq from n)) (from + n) =
  foldl (filter_step filter)
    (mk_filter_state (offsets_of 0 rs) (replicate (Z.to_nat (elements rs)) 0) from)
    (seq from (n + 32)).
Proof.
  intros Hlt Hrs Hfl Hset.
  destruct (filter_loop_spec rs filter from n Hlt)
    as (Hres & Hle & Hoff & Hat & Hef); [lia..|].
  destruct (filter_loop_spec rs filter from (n + 32) Hlt)
    as (Hres' & _ & Hoff' & _ & Hef'); [lia..|].
  set (st := foldl (filter_step filter) _ (seq from n)) in *.
  set (st' := foldl (filter_step filter) _ (seq from (n + 32))) in *.
  set (kept := take from rs ++ NullableColumn.select (take n (drop from filter))
                                 (take n (drop from rs))) in *.
  set (new32 := take 32 (drop (from + n) rs)).
  assert (Hlen32 : length new32 = 32%nat).
  { unfold new32. rewrite length_take, length_drop. lia. }
  assert (Hkept' : take from rs ++ NullableColumn.select (take (n + 32) (drop from filter))
                                     (take (n + 32) (drop from rs)) = kept ++ new32).
  { rewrite <- !take_take_drop, !drop_drop.
    rewrite select_app by (rewrite !length_take, !length_drop; lia).
    rewrite (select_ones (take 32 (drop (from + n) rs))).
    - by rewrite app_assoc.
    - rewrite !length_take, !length_drop. lia.
    - apply Forall_forall. intros f [j Hj]%list_elem_of_lookup.
      assert (j < 32)%nat.
      { apply lookup_lt_Some in Hj. rewrite length_take in Hj. lia. }
      rewrite lookup_take_lt, lookup_drop in Hj by done.
      rewrite <- (at_lookup _ _ _ Hj). by apply Hset. }
  rewrite Hkept' in Hres', Hoff'.
  assert (Hmarks' : element_marks (take (n + 32) (drop from rs))
                                  (take (n + 32) (drop from filter)) =
                    element_marks (take n (drop from rs)) (take n (drop from filter)) ++
                    replicate (Z.to_nat (elements new32)) 1).
  { rewrite <- !take_take_drop, !drop_drop.
    rewrite element_marks_app by (rewrite !length_take, !length_drop; lia).
    f_equal. apply element_marks_ones.
    - rewrite !length_take, !length_drop. lia.
    - apply Forall_forall. intros f [j Hj]%list_elem_of_lookup.
      assert (j < 32)%nat.
      { apply lookup_lt_Some in Hj. rewrite length_take in Hj. lia. }
      rewrite lookup_take_lt, lookup_drop in Hj by done.
      rewrite <- (at_lookup _ _ _ Hj). by apply Hset. }
  rewrite Hmarks' in Hef'.
  pose proof (elements_nonneg rs). pose proof (elements_nonneg kept).
  pose proof (elements_nonneg new32).
  pose proof (elements_nonneg (take (from + n) rs)) as Hnn.
  pose proof (elements_take_add rs (from + n) 32) as Hadd. fold new32 in Hadd.
  pose proof (elements_take_le rs (from + n + 32)).
  assert (Hkeptle : elements kept ≤ elements (take (from + n) rs)).
  { unfold kept. rewrite elements_app, elements_take_add.
    pose proof (elements_select_le (take n (drop from filter)) (take n (drop from rs))). lia. }
  assert (Hat32 : at_ (fs_offsets st) (from + n + 32) = elements (take (from + n + 32) rs)).
  { rewrite Hoff, at_shape, at_offsets_of; rewrite ?length_offsets_of; lia. }
  assert (Hatres : at_ (fs_offsets st) (fs_result_offset st) = elements kept).
  { rewrite Hoff, Hres, at_app_l by (rewrite length_offsets_of; lia).
    rewrite at_offsets_of by lia. by rewrite take_ge by lia. }
  assert (Hdrop : drop (S (length kept)) (offsets_of 0 rs) =
            take (from + n - length kept) (drop (S (length kept)) (offsets_of 0 rs)) ++
            drop 1 (offsets_of (elements (take (from + n) rs)) new32) ++
            drop (S (from + n + 32)) (offsets_of 0 rs)).
  { rewrite <- (take_drop (from + n - length kept) (drop (S (length kept)) (offsets_of 0 rs))) at 1.
    f_equal. rewrite drop_drop.
    replace (S (length kept) + (from + n - length kept))%nat with (S (from + n)) by lia.
    rewrite drop_offsets_of, Z.add_0_l by lia.
    rewrite <- (take_drop 32 (drop (from + n) rs)) at 1. fold new32.
    rewrite offsets_of_app, drop_drop.
    rewrite drop_app_le by (rewrite length_offsets_of; lia). f_equal.
    rewrite (drop_offsets_of 0 rs (from + n + 32)) by lia.
    by rewrite Z.add_0_l, Hadd. }
  unfold all_hit, kBatchSize.
  rewrite Hat, Hat32, Hatres, Hadd.
  replace (elements (take (from + n) rs) + elements new32 - elements (take (from + n) rs))
    with (elements new32) by lia.
  rewrite !u32_small by lia.
  destruct st' as [offs' ef' res']. simpl in Hres', Hoff', Hef'. subst offs' ef' res'.
  f_equal.
  - (* the offset buffer *)
    rewrite offsets_of_app, <- app_assoc.
    case_decide as Hne.
    + rewrite Hres in Hne.
      assert (Hinner : drop (from + n + 1) (fs_offsets st) =
                drop 1 (offsets_of (elements (take (from + n) rs)) new32) ++
                drop (S (from + n + 32)) (offsets_of 0 rs)).
      { rewrite Hoff, drop_app_ge, length_offsets_of, drop_drop
          by (rewrite length_offsets_of; lia).
        replace (S (length kept) + (from + n + 1 - S (length kept)))%nat
          with (S (from + n)) by lia.
        rewrite drop_offsets_of, Z.add_0_l by lia.
        rewrite <- (take_drop 32 (drop (from + n) rs)) at 1. fold new32.
        rewrite offsets_of_app, drop_drop.
        rewrite drop_app_le by (rewrite length_offsets_of; lia). f_equal.
        rewrite (drop_offsets_of 0 rs (from + n + 32)) by lia.
        by rewrite Z.add_0_l, Hadd. }
      rewrite Hinner.
      rewrite take_app_length' by (rewrite length_drop, length_offsets_of; lia).
      rewrite Hres, Hoff.
      replace (length kept + 1)%nat with (length (offsets_of 0 kept) + 0)%nat
        by (rewrite length_offsets_of; lia).
      rewrite list_inserts_app_r.
      rewrite <- (take_drop 32 (drop (S (length kept)) (offsets_of 0 rs))).
      rewrite list_inserts_0_r; last first.
      { rewrite length_drop, length_offsets_of, length_take, length_drop, length_offsets_of. lia. }
      pose proof (rebase_loop
        (λ x, u32 (x - (elements (take (from + n) rs) - elements kept)))
        (offsets_of 0 kept)
        (drop 1 (offsets_of (elements (take (from + n) rs)) new32))
        (drop 32 (drop (S (length kept)) (offsets_of 0 rs)))
        (length kept)) as Hloop.
      rewrite length_drop, !length_offsets_of, Hlen32 in Hloop.
      cbv beta in Hloop. change (33 - 1)%nat with 32%nat in Hloop.
      rewrite Hloop by lia.
      rewrite fmap_drop, rebase_offsets_of by lia.
      rewrite drop_drop. do 3 f_equal; [f_equal; lia|].
      f_equal. rewrite length_app, Hlen32. lia.
    + rewrite Hres in Hne.
      rewrite Hoff. f_equal. rewrite Hdrop.
      replace (from + n - length kept)%nat with 0%nat by lia. rewrite take_0. simpl.
      assert (elements kept = elements (take (from + n) rs)) as ->.
      { rewrite <- Hatres, Hres, Hne. exact Hat. }
      do 3 f_equal. rewrite length_app, Hlen32. lia.
  - (* the element-level mask *)
    rewrite Hef.
    assert (Hrest : Z.to_nat (elements (drop (from + n) rs)) =
              (Z.to_nat (elements new32) + Z.to_nat (elements (drop (from + (n + 32)) rs)))%nat).
    { rewrite <- (take_drop 32 (drop (from + n) rs)) at 1. fold new32.
      rewrite elements_app, drop_drop.
      replace (from + n + 32)%nat with (from + (n + 32))%nat by lia.
      pose proof (elements_nonneg (drop (from + (n + 32)) rs)). lia. }
    rewrite Hrest, replicate_add.
    rewrite (app_assoc (replicate _ 0) (element_marks _ _)).
    rewrite memset_middle with (n := Z.to_nat (elements new32)).
    + by rewrite <- !app_assoc.
    + rewrite length_app, length_replicate, Nat2Z.inj_add, length_element_marks
        by (rewrite !length_take, !length_drop; lia).
      rewrite elements_take_add. pose proof (elements_nonneg (take from rs)). lia.
    + lia.
  - rewrite Hres, length_app, Hlen32. done.
Qed.

(** One iteration of the batch loop does what 32 iterations of the scalar
    loop do. *)
Lemma batch_step_spec rs from n :
  elements rs < 2 ^ 32 →
  (from + n + 32 ≤ length rs)%nat →
  (from + n + 32 ≤ length filter)%nat →
  batch_step filter
    (foldl (filter_step filter)
       (mk_filter_state (offsets_of 0 rs) (replicate (Z.to_nat (elements rs)) 0) from)
       (seq from n)) (from + n) =
  foldl (filter_step filter)
    (mk_filter_state (offsets_of 0 rs) (replicate (Z.to_nat (elements rs)) 0) from)
    (seq from (n + 32)).
Proof.
  intros Hlt Hrs Hfl. unfold batch_step, batch_mask.
  pose proof (length_batch_lanes (from + n)) as Hlen.
  case_decide as Hzero; [|case_decide as Hones].
  - rewrite seq_app, foldl_app. symmetry. apply filter_steps_skip.
    intros j Hj. apply movemask_zero in Hzero. rewrite Forall_forall in Hzero.
    pose proof (lookup_batch_lanes (from + n) j Hj) as Hlane.
    apply list_elem_of_lookup_2, Hzero in Hlane. apply bool_decide_eq_false in Hlane.
    destruct (decide (at_ filter (from + n + j) = 0)); [done|]. by destruct Hlane.
  - apply all_hit_spec; [done..|].
    intros j Hj.
    assert (Hall : Forall (λ b, b = true) (batch_lanes filter (from + n))).
    { apply movemask_ones. rewrite Hlen. exact Hones. }
    rewrite Forall_forall in Hall.
    pose proof (lookup_batch_lanes (from + n) j Hj) as Hlane.
    apply list_elem_of_lookup_2, Hall in Hlane. by apply bool_decide_eq_true in Hlane.
  - rewrite seq_app, foldl_app.
    pose proof (mixed_loop_spec (from + n) 32 0
      (foldl (filter_step filter)
         (mk_filter_state (offsets_of 0 rs) (replicate (Z.to_nat (elements rs)) 0) from)
         (seq from n)) ltac:(lia) ltac:(lia)) as Hmixed.
    rewrite drop_0, Z.add_0_l, Nat.add_0_r, Nat.sub_0_r in Hmixed. exact Hmixed.
Qed.

(** The batch loop leaves the state of the scalar loop after the rows that
    it has passed. *)
Lemma batch_loop_spec rs from fuel n :
  elements rs < 2 ^ 32 →
  (from + n ≤ length rs)%nat →
  (length rs ≤ length filter)%nat →
  ∃ n', (n ≤ n')%nat ∧ (from + n' ≤ length rs)%nat ∧
    batch_loop fuel filter (length rs)
      (foldl (filter_step filter)
         (mk_filter_state (offsets_of 0 rs) (replicate (Z.to_nat (elements rs)) 0) from)
         (seq from n)) (from + n) =
    (foldl (filter_step filter)
       (mk_filter_state (offsets_of 0 rs) (replicate (Z.to_nat (elements rs)) 0) from)
       (seq from n'), (from + n')%nat).
Proof.
  intros Hlt. revert n. induction fuel as [|fuel IH]; intros n Hrs Hfl.
  - exists n. by split_and!.
  - cbn [batch_loop]. unfold kBatchSize. case_decide.
    + rewrite batch_step_spec by (done || lia).
      destruct (IH (n + 32)%nat) as (n' & Hn' & Hle & Hloop); [lia|done|].
      exists n'. split_and!; [lia|done|].
      by replace (from + n + 32)%nat with (from + (n + 32))%nat by lia.
    + exists n. by split_and!.
Qed.

(** On a mask of bytes below 128 the AVX2 build and the portable build of
    [filter_range] return the same. *)
Lemma filter_range_avx2 rs from :
  elements rs < 2 ^ 32 →
  (from ≤ length rs)%nat →
  (length rs ≤ length filter)%nat →
  filter_range true (of_rows rs) filter from (length rs) =
  filter_range false (of_rows rs) filter from (length rs).
Proof.
  intros Hlt Hfrom Hfl. unfold filter_range.
  change (offsets (of_rows rs)) with (offsets_of 0 rs).
  rewrite !at_offsets_of by lia. rewrite Z.add_0_l, (take_ge rs (length rs)) by lia.
  destruct (batch_loop_spec rs from (length rs) 0 Hlt) as (n' & _ & Hle & Hloop); [lia|done|].
  rewrite Nat.add_0_r in Hloop. simpl in Hloop. rewrite Hloop. cbn [fst snd].
  rewrite <- foldl_app, <- seq_app.
  by replace (n' + (length rs - (from + n')))%nat with (length rs - from)%nat by lia.
Qed.

End batch_facts.

(** [filter_range] in either build, on the rows of the column. *)
Lemma filter_range_build_of_rows {K V : Type} `{Countable K} `{!Inhabited K} `{!Inhabited V}
    (avx2 : bool) (rs : list (list (option K * option V))) (filter : list Z) from :
  (avx2 = true → Forall (λ b, 0 ≤ b < 128) filter) →
  elements rs < 2 ^ 32 →
  (from ≤ length rs)%nat →
  (length rs ≤ length filter)%nat →
  filter_range avx2 (of_rows rs) filter from (length rs) =
  (of_rows (filter_rows filter from rs), length (filter_rows filter from rs)).
Proof.
  intros Hbytes Hlt Hfrom Hfl. destruct avx2.
  - rewrite filter_range_avx2 by auto. by apply filter_range_of_rows.
  - by apply filter_range_of_rows.
Qed.

(** ** The two paths of [update_rows] *)

Section update_facts.
Context {K V : Type} `{Countable K} `{!Inhabited K} `{!Inhabited V}.
Implicit Types (m : MapColumn K V) (rs srcs : list (list (option K * option V))).
Implicit Types (r : list (option K * option V)).

Lemma child_update_rows_app {T} (c s1 s2 : list (option T)) (i1 i2 : list Z) :
  length i1 = length s1 →
  NullableColumn.update_rows c (s1 ++ s2) (i1 ++ i2) =
  NullableColumn.update_rows (NullableColumn.update_rows c s1 i1) s2 i2.
Proof.
  intros Hlen. unfold NullableColumn.update_rows.
  by rewrite zip_with_app, foldl_app.
Qed.

(** Updating the elements at consecutive indexes replaces a block. *)
Lemma child_update_rows_block {T} (pre old new post : list (option T)) (start : Z) :
  length old = length new →
  start = Z.of_nat (length pre) →
  Z.of_nat (length pre + length new) < 2 ^ 32 →
  NullableColumn.update_rows (pre ++ old ++ post) new
    ((λ j, u32 (start + Z.of_nat j)) <$> seq 0 (length new)) =
  pre ++ new ++ post.
Proof.
  intros Hlen -> Hlt. revert pre old Hlen Hlt.
  induction new as [|x new IH]; intros pre old Hlen Hlt.
  - destruct old; [done|]. simpl in Hlen. lia.
  - destruct old as [|y old]; simpl in Hlen; [lia|].
    simpl. unfold NullableColumn.update_rows in *. simpl.
    rewrite Z.add_0_r, u32_small, Nat2Z.id by lia.
    replace (length pre) with (length pre + 0)%nat at 1 by lia.
    rewrite insert_app_r. simpl.
    rewrite <- fmap_S_seq, <- list_fmap_compose.
    specialize (IH (pre ++ [x]) old). rewrite <- !app_assoc in IH. simpl in IH.
    rewrite <- IH.
    + f_equal. f_equal. apply list_fmap_ext. intros _ j _. simpl.
      rewrite length_app. simpl. f_equal. lia.
    + lia.
    + rewrite length_app. simpl in *. lia.
Qed.

Lemma foldl_snoc_fmap {A B} (g : B → A) (l : list B) (acc : list A) :
  foldl (λ acc x, acc ++ [g x]) acc l = acc ++ (g <$> l).
Proof.
  revert acc. induction l as [|x l IH]; intros acc; simpl.
  - by rewrite app_nil_r.
  - by rewrite IH, <- app_assoc.
Qed.

Lemma of_rows_insert_same_length rs idx r s :
  rs !! idx = Some r → length s = length r →
  offsets_of 0 (<[idx := s]> rs) = offsets_of 0 rs.
Proof.
  intros Hidx Hlen. generalize 0. revert idx Hidx.
  induction rs as [|r' rs IH]; intros idx Hidx z; [done|].
  destruct idx as [|idx]; simpl in *.
  - simplify_eq. by rewrite Hlen.
  - by rewrite (IH idx).
Qed.

Lemma concat_insert rs idx r s :
  rs !! idx = Some r →
  concat rs = concat (take idx rs) ++ r ++ concat (drop (S idx) rs) ∧
  concat (<[idx := s]> rs) = concat (take idx rs) ++ s ++ concat (drop (S idx) rs).
Proof.
  intros Hidx. assert (idx < length rs)%nat by (by eapply lookup_lt_Some). split.
  - rewrite <- (take_drop_middle _ _ _ Hidx) at 1. by rewrite concat_app.
  - rewrite insert_take_drop by done. by rewrite concat_app.
Qed.

Lemma foldl_app_concat {A B} (h : B → list A) (l : list B) (acc : list A) :
  foldl (λ acc x, acc ++ h x) acc l = acc ++ concat (h <$> l).
Proof.
  revert acc. induction l as [|x l IH]; intros acc; simpl.
  - by rewrite app_nil_r.
  - by rewrite IH, <- app_assoc.
Qed.

Lemma fmap_seq_lookup {A B} (f : nat → B) (g : A → B) (l : list A) :
  (∀ i x, l !! i = Some x → f i = g x) → f <$> seq 0 (length l) = g <$> l.
Proof.
  intros Hfg. apply list_eq. intros i. rewrite !list_lookup_fmap.
  destruct (l !! i) as [x|] eqn:Hi; simpl.
  - rewrite lookup_seq_lt by (by eapply lookup_lt_Some). simpl. f_equal. by apply Hfg.
  - rewrite lookup_seq_ge; [done|]. by apply lookup_ge_None.
Qed.

Lemma fits_insert rs idx0 r0 s0 idx s :
  rs !! idx0 = Some r0 → length s0 = length r0 →
  fits rs idx s → fits (<[idx0 := s0]> rs) idx s.
Proof.
  intros Hidx0 Hlen (r & Hr & Hs). unfold fits.
  destruct (decide (idx0 = idx)) as [->|Hne].
  - exists s0. rewrite list_lookup_insert_eq by (by eapply lookup_lt_Some).
    split; [done|]. simplify_eq. lia.
  - exists r. by rewrite list_lookup_insert_ne.
Qed.

(** The element indexes that the fast path hands to the children, for the
    replacement rows [srcs] at the rows [indexes]. *)
Lemma element_idxes_spec rs srcs (indexes : list nat) :
  elements srcs < 2 ^ 32 →
  length indexes = length srcs →
  foldl (λ element_idxes i,
           let element_count :=
             u32 (at_ (offsets_of 0 srcs) (i + 1) - at_ (offsets_of 0 srcs) i) in
           let element_offset := at_ (offsets_of 0 rs) (default 0%nat (indexes !! i)) in
           foldl (λ element_idxes j, element_idxes ++ [u32 (element_offset + Z.of_nat j)])
                 element_idxes (seq 0 (Z.to_nat element_count)))
        [] (seq 0 (length srcs)) =
  concat ((λ p, (λ j, u32 (at_ (offsets_of 0 rs) p.1 + Z.of_nat j)) <$> seq 0 (length p.2))
          <$> zip indexes srcs).
Proof.
  intros Hlt Hlen.
  transitivity (foldl (λ acc i,
      acc ++ ((λ j, u32 (at_ (offsets_of 0 rs) (default 0%nat (indexes !! i)) + Z.of_nat j))
               <$> seq 0 (Z.to_nat (u32 (at_ (offsets_of 0 srcs) (i + 1)
                                          - at_ (offsets_of 0 srcs) i)))))
      [] (seq 0 (length srcs))).
  { apply foldl_ext. intros acc i. simpl. apply foldl_snoc_fmap. }
  rewrite foldl_app_concat. simpl. f_equal.
  replace (length srcs) with (length (zip indexes srcs)) by (rewrite length_zip_with; lia).
  apply fmap_seq_lookup. intros i [idx s] Hi.
  apply lookup_zip_with_Some in Hi as (idx' & s' & Heq & Hidx & Hs). simplify_eq.
  assert (i < length srcs)%nat by (by eapply lookup_lt_Some).
  rewrite Hidx. simpl. rewrite !(at_offsets_of _ srcs) by lia.
  replace (i + 1)%nat with (S i) by lia. rewrite (elements_take_S _ _ _ Hs).
  replace (0 + (elements (take i srcs) + Z.of_nat (length s')) - (0 + elements (take i srcs)))
    with (Z.of_nat (length s')) by lia.
  rewrite u32_small, Nat2Z.id; [done|].
  pose proof (elements_take_le srcs (S i)). rewrite (elements_take_S _ _ _ Hs) in *.
  pose proof (elements_nonneg (take i srcs)). lia.
Qed.

(** The children after the fast path. *)
Lemma child_update_rows_of_rows {T} (g : option K * option V → option T) rs0 rs srcs
    (indexes : list nat) :
  elements rs < 2 ^ 32 →
  offsets_of 0 rs0 = offsets_of 0 rs →
  Forall2 (fits rs) indexes srcs →
  NullableColumn.update_rows (g <$> concat rs) (g <$> concat srcs)
    (concat ((λ p, (λ j, u32 (at_ (offsets_of 0 rs0) p.1 + Z.of_nat j)) <$> seq 0 (length p.2))
             <$> zip indexes srcs)) =
  g <$> concat (replace_rows rs indexes srcs) ∧
  offsets_of 0 (replace_rows rs indexes srcs) = offsets_of 0 rs.
Proof.
  revert indexes rs. induction srcs as [|s srcs IH]; intros indexes rs Hlt Hoffs Hfits.
  - apply Forall2_nil_inv_r in Hfits as ->. done.
  - apply Forall2_cons_inv_r in Hfits as (idx & indexes' & (r & Hr & Hlen) & Hfits & ->).
    rename indexes' into indexes.
    simpl. rewrite fmap_app.
    rewrite child_update_rows_app by (by rewrite !length_fmap, length_seq).
    destruct (concat_insert rs idx r s Hr) as [Hcat Hcat'].
    assert (idx < length rs)%nat by (by eapply lookup_lt_Some).
    pose proof (of_rows_insert_same_length rs idx r s Hr Hlen) as Hsame.
    assert (Hblock : NullableColumn.update_rows (g <$> concat rs) (g <$> s)
              ((λ j, u32 (at_ (offsets_of 0 rs0) idx + Z.of_nat j)) <$> seq 0 (length s)) =
            g <$> concat (<[idx := s]> rs)).
    { rewrite Hcat, Hcat', !fmap_app.
      rewrite <- (length_fmap g s).
      apply child_update_rows_block.
      - by rewrite !length_fmap.
      - rewrite Hoffs, at_offsets_of by lia. unfold elements. rewrite length_fmap. lia.
      - rewrite !length_fmap.
        pose proof (elements_take_le rs (S idx)) as Hle.
        rewrite (elements_take_S _ _ _ Hr) in Hle. unfold elements in Hle at 1. lia. }
    rewrite Hblock.
    unfold replace_rows. simpl. fold (replace_rows (<[idx := s]> rs) indexes srcs).
    destruct (IH indexes (<[idx := s]> rs)) as [IH1 IH2].
    + unfold elements. rewrite Hcat', !length_app.
      unfold elements in Hlt. rewrite Hcat, !length_app in Hlt. lia.
    + by rewrite Hsame.
    + eapply Forall2_impl; [done|]. intros idx' s' ?. by eapply (fits_insert rs idx r s).
    + split; [exact IH1|]. by rewrite IH2.
Qed.

(** The fast path, on the rows. *)
Lemma update_rows_fast_of_rows rs srcs (indexes : list nat) :
  elements rs < 2 ^ 32 → elements srcs < 2 ^ 32 →
  Forall2 (fits rs) indexes srcs →
  update_rows_fast (of_rows rs) (of_rows srcs) indexes =
  of_rows (replace_rows rs indexes srcs).
Proof.
  intros Hrs Hsrcs Hfits. unfold update_rows_fast.
  change (offsets (of_rows rs)) with (offsets_of 0 rs).
  change (offsets (of_rows srcs)) with (offsets_of 0 srcs).
  change (keys (of_rows rs)) with ((concat rs).*1).
  change (values (of_rows rs)) with ((concat rs).*2).
  change (keys (of_rows srcs)) with ((concat srcs).*1).
  change (values (of_rows srcs)) with ((concat srcs).*2).
  rewrite size_of_rows.
  rewrite element_idxes_spec by (done || by eapply Forall2_length).
  destruct (child_update_rows_of_rows fst rs rs srcs indexes) as [-> Hoff]; [done..|].
  destruct (child_update_rows_of_rows snd rs rs srcs indexes) as [-> _]; [done..|].
  unfold of_rows. by rewrite Hoff.
Qed.

Lemma strictly_increasing_lookup (l : list nat) i a b :
  strictly_increasing l = true → l !! i = Some a → l !! S i = Some b → (a < b)%nat.
Proof.
  revert i. induction l as [|x l IH]; intros i Hl Ha Hb; [done|].
  destruct l as [|y l]; [done|].
  change (strictly_increasing (x :: y :: l))
    with ((x <? y)%nat && strictly_increasing (y :: l)) in Hl.
  apply andb_true_iff in Hl as [Hxy Hl]. apply Nat.ltb_lt in Hxy.
  destruct i as [|i]; simpl in *.
  - by simplify_eq.
  - by eapply IH.
Qed.

Lemma take_1_drop {A} (l : list A) k x : l !! k = Some x → take 1 (drop k l) = [x].
Proof. intros Hk. by rewrite (drop_S _ _ _ Hk). Qed.

Lemma replace_rows_snoc rs (indexes : list nat) srcs idx s :
  length indexes = length srcs →
  replace_rows rs (indexes ++ [idx]) (srcs ++ [s]) =
  <[idx := s]> (replace_rows rs indexes srcs).
Proof.
  intros Hlen. unfold replace_rows. by rewrite zip_with_app, foldl_app.
Qed.

(** The loop of the rebuild path after [k] iterations: the fresh column
    holds the first [b] rows of the result. *)
Lemma rebuild_loop_spec rs srcs (indexes : list nat) k :
  elements rs + elements srcs < 2 ^ 32 →
  length indexes = length srcs →
  strictly_increasing indexes = true →
  Forall (λ idx, idx < length rs)%nat indexes →
  (k ≤ length srcs)%nat →
  ∃ acc b,
    foldl (λ (st : MapColumn K V * nat) i,
             let idx := default 0%nat (indexes !! i) in
             let count := (idx - st.2)%nat in
             let c1 := append st.1 (of_rows rs) st.2 count in
             let c2 := append c1 (of_rows srcs) i 1 in
             (c2, (idx + 1)%nat))
          (clone_empty (of_rows rs), 0%nat) (seq 0 k) = (of_rows acc, b) ∧
    (b ≤ length rs)%nat ∧
    length acc = b ∧
    acc ++ drop b rs = replace_rows rs (take k indexes) (take k srcs) ∧
    (∀ idx, indexes !! k = Some idx → (b ≤ idx)%nat) ∧
    elements acc ≤ elements (take b rs) + elements (take k srcs).
Proof.
  intros Hcap Hlen Hinc Hrange. induction k as [|k IH]; intros Hk.
  - exists [], 0%nat. simpl. split_and!; try done; lia.
  - destruct IH as (acc & b & Hloop & Hb & Hacc & Hrep & Hnext & Hel); [lia|].
    destruct (lookup_lt_is_Some_2 srcs k) as [s Hs]; [lia|].
    destruct (lookup_lt_is_Some_2 indexes k) as [idx Hidx]; [lia|].
    assert (Hidxlt : (idx < length rs)%nat).
    { rewrite Forall_forall in Hrange. apply Hrange. by eapply list_elem_of_lookup_2. }
    specialize (Hnext idx Hidx).
    pose proof (elements_nonneg rs). pose proof (elements_nonneg srcs).
    pose proof (elements_nonneg acc).
    pose proof (elements_take_le srcs (S k)) as HleS.
    rewrite (elements_take_S _ _ _ Hs) in HleS.
    pose proof (elements_nonneg (take k srcs)).
    assert (Hidxel : elements (take idx rs) =
                     elements (take b rs) + elements (take (idx - b) (drop b rs))).
    { rewrite <- elements_take_add. f_equal. f_equal. lia. }
    pose proof (elements_take_le rs idx).
    pose proof (elements_nonneg (take (idx - b) (drop b rs))).
    pose proof (elements_nonneg (take b rs)).
    exists (acc ++ take (idx - b) (drop b rs) ++ [s]), (idx + 1)%nat.
    rewrite seq_S, foldl_app, Hloop. simpl. rewrite Hidx. simpl.
    split_and!.
    + f_equal. rewrite append_of_rows; [|lia|lia|rewrite elements_app; lia].
      rewrite append_of_rows.
      * rewrite (take_1_drop _ _ _ Hs). by rewrite <- app_assoc.
      * lia.
      * lia.
      * rewrite (take_1_drop _ _ _ Hs). rewrite !elements_app, elements_cons.
        change (elements []) with 0. lia.
    + lia.
    + rewrite !length_app, length_take, length_drop. simpl. lia.
    + rewrite (take_S_r _ _ _ Hs), (take_S_r _ _ _ Hidx).
      rewrite replace_rows_snoc by (rewrite !length_take; lia).
      rewrite <- Hrep.
      rewrite insert_app_r_alt by lia. rewrite Hacc.
      rewrite insert_take_drop by (rewrite length_drop; lia).
      rewrite drop_drop. rewrite <- !app_assoc. simpl.
      by replace (b + S (idx - b))%nat with (idx + 1)%nat by lia.
    + intros idx' Hidx'.
      pose proof (strictly_increasing_lookup _ _ _ _ Hinc Hidx Hidx'). lia.
    + rewrite !elements_app, elements_cons. change (elements []) with 0.
      rewrite (elements_take_S _ _ _ Hs).
      pose proof (elements_take_mono rs idx (idx + 1)). lia.
Qed.

(** The rebuild path, on the rows. *)
Lemma update_rows_rebuild_of_rows rs srcs (indexes : list nat) :
  elements rs + elements srcs < 2 ^ 32 →
  Z.of_nat (length rs) < 2 ^ 31 →
  length indexes = length srcs →
  strictly_increasing indexes = true →
  Forall (λ idx, idx < length rs)%nat indexes →
  update_rows_rebuild (of_rows rs) (of_rows srcs) indexes =
  of_rows (replace_rows rs indexes srcs).
Proof.
  intros Hcap Hrows Hlen Hinc Hrange.
  destruct (rebuild_loop_spec rs srcs indexes (length srcs))
    as (acc & b & Hloop & Hb & Hacc & Hrep & _ & Hel); [done..|].
  rewrite !take_ge in Hrep by lia.
  cbv zeta in Hloop. unfold update_rows_rebuild. rewrite size_of_rows, Hloop.
  change (offsets (of_rows rs)) with (offsets_of 0 rs). rewrite length_offsets_of.
  rewrite i32_small by lia.
  pose proof (elements_nonneg rs). pose proof (elements_nonneg srcs).
  pose proof (elements_take_drop rs b). pose proof (elements_nonneg (drop b rs)).
  case_decide as Hrem; simpl.
  - rewrite append_of_rows.
    + rewrite take_ge by (rewrite length_drop; lia). by rewrite Hrep.
    + lia.
    + lia.
    + rewrite take_ge by (rewrite length_drop; lia). rewrite elements_app.
      rewrite (take_ge srcs) in Hel by lia. lia.
  - rewrite <- Hrep. rewrite drop_ge by lia. by rewrite app_nil_r.
Qed.

End update_facts.

(** ** Serialization *)

Lemma decode_encode_u32 n rest :
  0 ≤ n < 2 ^ 32 → decode_u32 (encode_u32 n ++ rest) = n.
Proof.
  intros Hn. unfold decode_u32, encode_u32, at_. simpl.
  assert (Hb : n / 65536 = n / 256 / 256) by (by rewrite Z.div_div by lia).
  assert (Hc : n / 16777216 = n / 65536 / 256) by (by rewrite Z.div_div by lia).
  pose proof (Z.div_mod n 256 ltac:(lia)).
  pose proof (Z.div_mod (n / 256) 256 ltac:(lia)).
  pose proof (Z.div_mod (n / 65536) 256 ltac:(lia)).
  assert (0 ≤ n / 16777216 < 256).
  { split; [apply Z.div_pos; lia|apply Z.div_lt_upper_bound; lia]. }
  rewrite (Z.mod_small (n / 16777216)) by lia. lia.
Qed.

Lemma length_encode_u32 n : length (encode_u32 n) = 4%nat.
Proof. done. Qed.

Section serialize_facts.
Context {K V : Type} `{Countable K} `{!Inhabited K} `{!Inhabited V}.
Context `{!Codec K} `{!Codec V}.
Implicit Types (m : MapColumn K V) (rs : list (list (option K * option V))).
Implicit Types (r : list (option K * option V)).

Lemma child_get_of_rows {T} (g : option K * option V → option T) rs idx r i p :
  rs !! idx = Some r → r !! i = Some p →
  NullableColumn.get (g <$> concat rs) (0 + elements (take idx rs) + Z.of_nat i) = g p.
Proof.
  intros Hidx Hi. unfold NullableColumn.get.
  destruct (concat_insert rs idx r r Hidx) as [-> _].
  replace (Z.to_nat (0 + elements (take idx rs) + Z.of_nat i))
    with (length (concat (take idx rs)) + i)%nat by (unfold elements; lia).
  rewrite list_lookup_fmap, lookup_app_r by lia.
  replace (length (concat (take idx rs)) + i - length (concat (take idx rs)))%nat
    with i by lia.
  rewrite lookup_app_l by (by eapply lookup_lt_Some). by rewrite Hi.
Qed.

Lemma row_bytes_cons p r :
  row_bytes (p :: r) = encode p.1 ++ encode p.2 ++ row_bytes r.
Proof. unfold row_bytes. simpl. by rewrite <- app_assoc. Qed.

(** The loop of [serialize] over the pairs of a row. *)
Lemma serialize_loop r (bytes : list Z) (n : Z) :
  foldl (λ (st : list Z * Z) (p : option K * option V),
           (st.1 ++ encode p.1 ++ encode p.2,
            st.2 + u32 (Z.of_nat (length (encode p.1)))
                 + u32 (Z.of_nat (length (encode p.2)))))
        (bytes, n) r =
  (bytes ++ row_bytes r,
   foldl (λ n p, n + u32 (Z.of_nat (length (encode p.1)))
                   + u32 (Z.of_nat (length (encode p.2)))) n r).
Proof.
  revert bytes n. induction r as [|p r IH]; intros bytes n; simpl.
  - by rewrite app_nil_r.
  - rewrite IH, row_bytes_cons. by rewrite <- !app_assoc.
Qed.

Lemma serialize_of_rows rs idx r :
  elements rs < 2 ^ 32 → rs !! idx = Some r →
  serialize (of_rows rs) idx =
  (encode_u32 (Z.of_nat (length r)) ++ row_bytes r,
   u32 (foldl (λ n p, n + u32 (Z.of_nat (length (encode p.1)))
                        + u32 (Z.of_nat (length (encode p.2)))) 4 r)).
Proof.
  intros Hlt Hidx. assert (idx < length rs)%nat by (by eapply lookup_lt_Some).
  unfold serialize.
  change (offsets (of_rows rs)) with (offsets_of 0 rs).
  change (keys (of_rows rs)) with ((concat rs).*1).
  change (values (of_rows rs)) with ((concat rs).*2).
  rewrite !at_offsets_of by lia.
  replace (idx + 1)%nat with (S idx) by lia. rewrite (elements_take_S _ _ _ Hidx).
  replace (0 + (elements (take idx rs) + Z.of_nat (length r)) - (0 + elements (take idx rs)))
    with (Z.of_nat (length r)) by lia.
  assert (Z.of_nat (length r) < 2 ^ 32).
  { pose proof (elements_take_le rs (S idx)). rewrite (elements_take_S _ _ _ Hidx) in *.
    pose proof (elements_nonneg (take idx rs)). lia. }
  rewrite u32_small, Nat2Z.id by lia.
  rewrite (foldl_seq_lookup _
    (λ (st : list Z * Z) (p : option K * option V),
       (st.1 ++ encode p.1 ++ encode p.2,
        st.2 + u32 (Z.of_nat (length (encode p.1)))
             + u32 (Z.of_nat (length (encode p.2))))) r 0 (length r)).
  - rewrite drop_0, firstn_all, serialize_loop. done.
  - lia.
  - intros st i p Hi. unfold NullableColumn.serialize. simpl.
    by rewrite (child_get_of_rows fst rs idx r i p), (child_get_of_rows snd rs idx r i p).
Qed.

Lemma length_row_bytes_cons p r :
  Z.of_nat (length (row_bytes (p :: r))) =
  Z.of_nat (length (encode p.1)) + Z.of_nat (length (encode p.2)) +
  Z.of_nat (length (row_bytes r)).
Proof. rewrite row_bytes_cons, !length_app. lia. Qed.

Lemma serialize_sum_small r n :
  0 ≤ n → n + Z.of_nat (length (row_bytes r)) < 2 ^ 32 →
  foldl (λ n p, n + u32 (Z.of_nat (length (encode p.1)))
                  + u32 (Z.of_nat (length (encode p.2)))) n r =
  n + Z.of_nat (length (row_bytes r)).
Proof.
  revert n. induction r as [|p r IH]; intros n Hn Hlt; simpl.
  - lia.
  - rewrite length_row_bytes_cons in Hlt.
    rewrite !u32_small by lia. rewrite IH by lia.
    rewrite length_row_bytes_cons. lia.
Qed.

Lemma serialize_size_loop_small r n :
  0 ≤ n → n + Z.of_nat (length (row_bytes r)) < 2 ^ 32 →
  foldl (λ n p, u32 (u32 (n + u32 (Z.of_nat (length (encode p.1))))
                     + u32 (Z.of_nat (length (encode p.2))))) n r =
  n + Z.of_nat (length (row_bytes r)).
Proof.
  revert n. induction r as [|p r IH]; intros n Hn Hlt; simpl.
  - lia.
  - rewrite length_row_bytes_cons in Hlt.
    rewrite (u32_small (Z.of_nat (length (encode p.1)))) by lia.
    rewrite (u32_small (Z.of_nat (length (encode p.2)))) by lia.
    rewrite (u32_small (n + _)) by lia. rewrite (u32_small (n + _ + _)) by lia.
    rewrite IH by lia.
    rewrite length_row_bytes_cons. lia.
Qed.

Lemma serialize_size_of_rows rs idx r :
  elements rs < 2 ^ 32 → rs !! idx = Some r →
  serialize_size (of_rows rs) idx =
  foldl (λ n p, u32 (u32 (n + u32 (Z.of_nat (length (encode p.1))))
                     + u32 (Z.of_nat (length (encode p.2))))) 4 r.
Proof.
  intros Hlt Hidx. assert (idx < length rs)%nat by (by eapply lookup_lt_Some).
  unfold serialize_size.
  change (offsets (of_rows rs)) with (offsets_of 0 rs).
  change (keys (of_rows rs)) with ((concat rs).*1).
  change (values (of_rows rs)) with ((concat rs).*2).
  rewrite !at_offsets_of by lia.
  replace (idx + 1)%nat with (S idx) by lia. rewrite (elements_take_S _ _ _ Hidx).
  replace (0 + (elements (take idx rs) + Z.of_nat (length r)) - (0 + elements (take idx rs)))
    with (Z.of_nat (length r)) by lia.
  assert (Z.of_nat (length r) < 2 ^ 32).
  { pose proof (elements_take_le rs (S idx)). rewrite (elements_take_S _ _ _ Hidx) in *.
    pose proof (elements_nonneg (take idx rs)). lia. }
  rewrite u32_small, Nat2Z.id by lia.
  rewrite (foldl_seq_lookup _
    (λ n (p : option K * option V),
       u32 (u32 (n + u32 (Z.of_nat (length (encode p.1))))
            + u32 (Z.of_nat (length (encode p.2))))) r 0 (length r)).
  - by rewrite drop_0, firstn_all.
  - lia.
  - intros n i p Hi. unfold NullableColumn.serialize_size.
    by rewrite (child_get_of_rows fst rs idx r i p), (child_get_of_rows snd rs idx r i p).
Qed.

(** The loop of [deserialize_and_append] reads back the pairs of a row. *)
Lemma deserialize_loop r (ks : list (option K)) (vs : list (option V)) (rest : list Z) :
  Nat.iter (length r)
    (λ st : list (option K) * list (option V) * list Z,
       let k := NullableColumn.deserialize_and_append st.1.1 st.2 in
       let v := NullableColumn.deserialize_and_append st.1.2 k.2 in
       (k.1, v.1, v.2))
    (ks, vs, row_bytes r ++ rest) =
  (ks ++ r.*1, vs ++ r.*2, rest).
Proof.
  set (F := λ st : list (option K) * list (option V) * list Z, _).
  assert (Hstep : ∀ ks vs (p : option K * option V) bytes,
    F (ks, vs, encode p.1 ++ encode p.2 ++ bytes) = (ks ++ [p.1], vs ++ [p.2], bytes)).
  { intros ks' vs' p bytes. unfold F, NullableColumn.deserialize_and_append. simpl.
    rewrite decode_encode. simpl. by rewrite decode_encode. }
  clearbody F. revert ks vs. induction r as [|p r IH]; intros ks vs.
  - simpl. by rewrite !app_nil_r.
  - change (length (p :: r)) with (S (length r)).
    rewrite Nat.iter_succ_r, row_bytes_cons, <- !app_assoc, Hstep, IH. simpl.
    by rewrite <- !app_assoc.
Qed.

Lemma deserialize_of_rows rd r (rest : list Z) :
  elements (rd ++ [r]) < 2 ^ 32 →
  deserialize_and_append (of_rows rd) (encode_u32 (Z.of_nat (length r)) ++ row_bytes r ++ rest) =
  (of_rows (rd ++ [r]), rest).
Proof.
  intros Hlt. rewrite elements_snoc in Hlt. pose proof (elements_nonneg rd).
  unfold deserialize_and_append.
  rewrite decode_encode_u32 by lia.
  rewrite drop_app_length' by done.
  rewrite Nat2Z.id.
  pose proof (deserialize_loop r (keys (of_rows rd)) (values (of_rows rd)) rest) as Hloop.
  cbv zeta in Hloop. rewrite Hloop.
  rewrite of_rows_snoc. unfold offsets_append.
  change (offsets (of_rows rd)) with (offsets_of 0 rd).
  rewrite back_offsets_of, elements_snoc, u32_small by lia.
  by rewrite Z.add_0_l.
Qed.

End serialize_facts.

(** ** Both paths of [update_rows] together *)

Section update_rows_facts.
Context {K V : Type} `{Countable K} `{!Inhabited K} `{!Inhabited V}.
Implicit Types (m : MapColumn K V) (rs srcs : list (list (option K * option V))).
Implicit Types (r : list (option K * option V)).

Lemma existsb_false {A} (f : A → bool) (l : list A) :
  existsb f l = false ↔ ∀ x, x ∈ l → f x = false.
Proof.
  induction l as [|x l IH]; simpl.
  - split; [|done]. intros _ y Hy. by apply elem_of_nil in Hy.
  - rewrite orb_false_iff, IH. split.
    + intros [Hx Hl] y [->|Hy]%elem_of_cons; auto.
    + intros Hall. split; [apply Hall; left|intros y Hy; apply Hall; by right].
Qed.

Lemma get_map_size_of_rows rs idx r :
  elements rs < 2 ^ 32 → rs !! idx = Some r →
  get_map_size (of_rows rs) idx = Z.of_nat (length r).
Proof.
  intros Hlt Hidx. assert (idx < length rs)%nat by (by eapply lookup_lt_Some).
  unfold get_map_size. change (offsets (of_rows rs)) with (offsets_of 0 rs).
  rewrite !at_offsets_of by lia.
  replace (idx + 1)%nat with (S idx) by lia. rewrite (elements_take_S _ _ _ Hidx).
  pose proof (elements_take_le rs (S idx)) as Hle. rewrite (elements_take_S _ _ _ Hidx) in Hle.
  pose proof (elements_nonneg (take idx rs)).
  rewrite <- (u32_small (Z.of_nat (length r))) at 2 by lia. f_equal. lia.
Qed.

Lemma row_length_of_rows rs idx r :
  elements rs < 2 ^ 32 → rs !! idx = Some r →
  u32 (at_ (offsets (of_rows rs)) (idx + 1) - at_ (offsets (of_rows rs)) idx) =
  Z.of_nat (length r).
Proof. apply get_map_size_of_rows. Qed.

(** The first loop of [update_rows] finds no difference exactly when every
    replacement row fits the row it replaces. *)
Lemma need_resize_false rs srcs (indexes : list nat) :
  elements rs < 2 ^ 32 → elements srcs < 2 ^ 32 →
  length indexes = length srcs →
  Forall (λ idx, idx < length rs)%nat indexes →
  need_resize (of_rows rs) (of_rows srcs) indexes = false ↔
  Forall2 (fits rs) indexes srcs.
Proof.
  intros Hrs Hsrcs Hlen Hrange. unfold need_resize. rewrite size_of_rows, existsb_false.
  rewrite Forall2_same_length_lookup. split.
  - intros Hall. split; [done|]. intros i idx s Hidx Hs.
    assert (i < length srcs)%nat by (by eapply lookup_lt_Some).
    specialize (Hall i). rewrite elem_of_seq in Hall. specialize (Hall ltac:(lia)).
    rewrite Hidx in Hall. change (default 0%nat (Some idx)) with idx in Hall.
    assert (idx < length rs)%nat as Hlt.
    { rewrite Forall_forall in Hrange. apply Hrange. by eapply list_elem_of_lookup_2. }
    destruct (lookup_lt_is_Some_2 rs idx Hlt) as [r Hr].
    rewrite (row_length_of_rows _ _ _ Hrs Hr), (row_length_of_rows _ _ _ Hsrcs Hs) in Hall.
    apply negb_false_iff, Z.eqb_eq in Hall. exists r. split; [done|lia].
  - intros [_ Hall] i [_ Hi]%elem_of_seq. simpl in Hi.
    destruct (lookup_lt_is_Some_2 srcs i Hi) as [s Hs].
    destruct (lookup_lt_is_Some_2 indexes i ltac:(lia)) as [idx Hidx].
    destruct (Hall i idx s Hidx Hs) as (r & Hr & Hlenr).
    rewrite Hidx. change (default 0%nat (Some idx)) with idx.
    rewrite (row_length_of_rows _ _ _ Hrs Hr), (row_length_of_rows _ _ _ Hsrcs Hs).
    apply negb_false_iff, Z.eqb_eq. lia.
Qed.

(** [update_rows], on the rows, whichever path is taken. *)
Lemma update_rows_of_rows rs srcs (indexes : list nat) :
  elements rs + elements srcs < 2 ^ 32 →
  Z.of_nat (length rs) < 2 ^ 31 →
  length indexes = length srcs →
  strictly_increasing indexes = true →
  Forall (λ idx, idx < length rs)%nat indexes →
  update_rows (of_rows rs) (of_rows srcs) indexes =
  of_rows (replace_rows rs indexes srcs).
Proof.
  intros Hcap Hrows Hlen Hinc Hrange.
  pose proof (elements_nonneg rs). pose proof (elements_nonneg srcs).
  unfold update_rows. destruct (need_resize _ _ _) eqn:Hneed.
  - by apply update_rows_rebuild_of_rows.
  - apply update_rows_fast_of_rows; [lia|lia|].
    apply need_resize_false in Hneed; [done|lia|lia|done|done].
Qed.

Lemma elements_insert_le rs idx r : elements (<[idx := r]> rs) ≤ elements rs + Z.of_nat (length r).
Proof.
  destruct (rs !! idx) as [r'|] eqn:Hidx.
  - destruct (concat_insert rs idx r' r Hidx) as [H1 H2].
    unfold elements. rewrite H1, H2, !length_app. lia.
  - rewrite list_insert_ge by (by apply lookup_ge_None). lia.
Qed.

Lemma elements_replace_rows_le rs (indexes : list nat) srcs :
  elements (replace_rows rs indexes srcs) ≤ elements rs + elements srcs.
Proof.
  revert rs indexes. induction srcs as [|s srcs IH]; intros rs indexes.
  - unfold replace_rows. rewrite zip_with_nil_r. simpl. change (elements []) with 0. lia.
  - destruct indexes as [|idx indexes].
    + unfold replace_rows. simpl. pose proof (elements_nonneg (s :: srcs)). lia.
    + unfold replace_rows. simpl. fold (replace_rows (<[idx := s]> rs) indexes srcs).
      specialize (IH (<[idx := s]> rs) indexes).
      pose proof (elements_insert_le rs idx s). rewrite elements_cons. lia.
Qed.

Lemma length_replace_rows rs (indexes : list nat) srcs :
  length (replace_rows rs indexes srcs) = length rs.
Proof.
  revert rs indexes. induction srcs as [|s srcs IH]; intros rs indexes.
  - unfold replace_rows. by rewrite zip_with_nil_r.
  - destruct indexes as [|idx indexes]; [done|].
    unfold replace_rows. simpl. fold (replace_rows (<[idx := s]> rs) indexes srcs).
    by rewrite IH, length_insert.
Qed.

Lemma elements_filter_rows_le (filter : list Z) from rs :
  elements (filter_rows filter from rs) ≤ elements rs.
Proof.
  unfold filter_rows. rewrite elements_app, (elements_take_drop rs from).
  pose proof (elements_select_le (drop from filter) (drop from rs)). lia.
Qed.

(** ** Every operation preserves well-formedness *)

Lemma apply_op_well_formed m (o : op) :
  well_formed m = true → pre m o = true → well_formed (apply_op m o) = true.
Proof.
  intros (rs & -> & Hlt)%well_formed_iff Hpre.
  pose proof (elements_nonneg rs) as Hnn.
  destruct o as [src offset count|datum|count|count|n|avx2 filter from to|src indexes];
    simpl in Hpre; unfold apply_op.
  - rewrite !andb_true_iff, !bool_decide_eq_true in Hpre.
    destruct Hpre as [[(srcs & -> & Hsrcs)%well_formed_iff Hrange] Hcap].
    rewrite size_of_rows in Hrange.
    change (offsets (of_rows srcs)) with (offsets_of 0 srcs) in Hcap.
    change (keys (of_rows rs)) with ((concat rs).*1) in Hcap.
    unfold NullableColumn.size in Hcap. rewrite length_fmap in Hcap.
    rewrite !at_offsets_of, elements_take_add in Hcap by lia.
    rewrite append_of_rows; [|done|done|rewrite elements_app; unfold elements in *; lia].
    apply well_formed_of_rows. rewrite elements_app. unfold elements in *. lia.
  - rewrite bool_decide_eq_true in Hpre.
    change (keys (of_rows rs)) with ((concat rs).*1) in Hpre.
    unfold NullableColumn.size in Hpre. rewrite length_fmap in Hpre.
    assert (elements (rs ++ [datum_row datum]) < 2 ^ 32).
    { rewrite elements_snoc. unfold datum_row. rewrite length_fmap. unfold elements. lia. }
    rewrite append_datum_of_rows by done. by apply well_formed_of_rows.
  - rewrite append_nulls_of_rows by done. simpl. apply well_formed_of_rows.
    by rewrite elements_app, elements_replicate_nil, Z.add_0_r.
  - rewrite append_default_of_rows by done. apply well_formed_of_rows.
    by rewrite elements_app, elements_replicate_nil, Z.add_0_r.
  - rewrite resize_of_rows by done. apply well_formed_of_rows.
    rewrite elements_app, elements_replicate_nil, Z.add_0_r.
    pose proof (elements_take_le rs n). lia.
  - rewrite !andb_true_iff, !bool_decide_eq_true in Hpre.
    destruct Hpre as [[[-> Hfrom] Hfl] Hbytes]. rewrite size_of_rows in *.
    rewrite filter_range_build_of_rows; [|intros ->|done..].
    2: { apply Forall_forall. intros b Hb. simpl in Hbytes.
         rewrite forallb_forall in Hbytes. eapply bool_decide_eq_true_1, Hbytes.
         by apply list_elem_of_In. }
    simpl. apply well_formed_of_rows.
    pose proof (elements_filter_rows_le filter from rs). lia.
  - rewrite !andb_true_iff, !bool_decide_eq_true in Hpre.
    destruct Hpre as [[[[[(srcs & -> & Hsrcs)%well_formed_iff Hlen] Hinc] Hrange] Hrows] Hcap].
    rewrite size_of_rows in *.
    change (keys (of_rows rs)) with ((concat rs).*1) in Hcap.
    change (keys (of_rows srcs)) with ((concat srcs).*1) in Hcap.
    unfold NullableColumn.size in Hcap. rewrite !length_fmap in Hcap.
    assert (Forall (λ idx, idx < length rs)%nat indexes) as Hrange'.
    { apply Forall_forall. intros idx Hidx%list_elem_of_In.
      rewrite forallb_forall in Hrange. specialize (Hrange idx Hidx).
      by apply bool_decide_eq_true in Hrange. }
    rewrite update_rows_of_rows; [|unfold elements; lia|done..].
    apply well_formed_of_rows.
    pose proof (elements_replace_rows_le rs indexes srcs). unfold elements in *. lia.
Qed.

Lemma run_well_formed m (ops : list op) :
  well_formed m = true → valid_run m ops → well_formed (run m ops) = true.
Proof.
  revert m. induction ops as [|o ops IH]; intros m Hm Hvalid; [done|].
  destruct Hvalid as [Hpre Hvalid]. simpl. apply IH; [|done].
  by apply apply_op_well_formed.
Qed.

Lemma well_formed_size m : well_formed m = true → length (offsets m) = (size m + 1)%nat.
Proof.
  intros (rs & -> & _)%well_formed_iff. rewrite size_of_rows.
  change (offsets (of_rows rs)) with (offsets_of 0 rs). rewrite length_offsets_of. lia.
Qed.

End update_rows_facts.

(** ** Materializing a row *)

Section get_facts.
Context {K V : Type} `{Countable K} `{!Inhabited K} `{!Inhabited V}.
Implicit Types (m : MapColumn K V) (rs : list (list (option K * option V))).
Implicit Types (r : list (option K * option V)).

Lemma child_lookup_of_rows {T} (g : option K * option V → option T) rs idx r i p :
  rs !! idx = Some r → r !! i = Some p →
  (g <$> concat rs) !! Z.to_nat (0 + elements (take idx rs) + Z.of_nat i) = Some (g p).
Proof.
  intros Hidx Hi.
  destruct (concat_insert rs idx r r Hidx) as [-> _].
  replace (Z.to_nat (0 + elements (take idx rs) + Z.of_nat i))
    with (length (concat (take idx rs)) + i)%nat by (unfold elements; lia).
  rewrite list_lookup_fmap, lookup_app_r by lia.
  replace (length (concat (take idx rs)) + i - length (concat (take idx rs)))%nat
    with i by lia.
  rewrite lookup_app_l by (by eapply lookup_lt_Some). by rewrite Hi.
Qed.

Lemma get_of_rows rs idx r :
  elements rs < 2 ^ 32 → rs !! idx = Some r → get (of_rows rs) idx = row_map r.
Proof.
  intros Hlt Hidx. assert (idx < length rs)%nat by (by eapply lookup_lt_Some).
  unfold get, row_map.
  change (offsets (of_rows rs)) with (offsets_of 0 rs).
  change (keys (of_rows rs)) with ((concat rs).*1).
  change (values (of_rows rs)) with ((concat rs).*2).
  rewrite !at_offsets_of by lia.
  replace (idx + 1)%nat with (S idx) by lia. rewrite (elements_take_S _ _ _ Hidx).
  replace (0 + (elements (take idx rs) + Z.of_nat (length r)) - (0 + elements (take idx rs)))
    with (Z.of_nat (length r)) by lia.
  assert (Z.of_nat (length r) < 2 ^ 32).
  { pose proof (elements_take_le rs (S idx)). rewrite (elements_take_S _ _ _ Hidx) in *.
    pose proof (elements_nonneg (take idx rs)). lia. }
  rewrite u64_small, Nat2Z.id by lia.
  rewrite (foldl_seq_lookup _
    (λ (res : gmap K (option V)) (p : option K * option V),
       match p.1 with Some k => <[k := p.2]> res | None => res end) r 0 (length r)).
  - by rewrite drop_0, firstn_all.
  - lia.
  - intros res i p Hi. unfold NullableColumn.is_null, NullableColumn.get.
    rewrite (child_lookup_of_rows fst rs idx r i p), (child_lookup_of_rows snd rs idx r i p)
      by done.
    simpl. by destruct p.1.
Qed.

Lemma row_map_snoc r p :
  row_map (r ++ [p]) =
  match p.1 with Some k => <[k := p.2]> (row_map r) | None => row_map r end.
Proof. unfold row_map. by rewrite foldl_app. Qed.

(** The entry of a key is the value of the last pair that carries it. *)
Lemma row_map_lookup r (k : K) :
  row_map r !! k = snd <$> last (filter (λ p, p.1 = Some k) r).
Proof.
  induction r as [|p r IH] using rev_ind; [done|].
  rewrite row_map_snoc, filter_app, last_app.
  destruct p as [[k'|] v]; simpl.
  - destruct (decide (k' = k)) as [->|Hne].
    + rewrite lookup_insert_eq, filter_cons_True by done. done.
    + rewrite lookup_insert_ne, filter_cons_False by (simpl; congruence). done.
  - done.
Qed.

End get_facts.

(** * Facts about the further operations *)

Section more_facts.
Context {K V : Type} `{Countable K} `{!Inhabited K} `{!Inhabited V}.
Implicit Types (m : MapColumn K V) (rs srcs : list (list (option K * option V))).
Implicit Types (r : list (option K * option V)).

Lemma clone_empty_of_rows m : clone_empty m = of_rows [].
Proof. done. Qed.

Lemma elements_keys rs : NullableColumn.size (keys (of_rows rs)) = elements rs.
Proof. unfold NullableColumn.size, elements. simpl. by rewrite length_fmap. Qed.

Lemma append_selective_of_rows rd rs (indexes : list nat) from n :
  elements rs < 2 ^ 32 →
  (from + n ≤ length indexes)%nat →
  Forall (λ i, i < length rs)%nat (take n (drop from indexes)) →
  elements (rd ++ ((λ i, default [] (rs !! i)) <$> take n (drop from indexes))) < 2 ^ 32 →
  append_selective (of_rows rd) (of_rows rs) indexes from n =
  of_rows (rd ++ ((λ i, default [] (rs !! i)) <$> take n (drop from indexes))).
Proof.
  intros Hrs. unfold append_selective. induction n as [|n IH]; intros Hlen Hall Hcap.
  - simpl. by rewrite app_nil_r.
  - destruct (lookup_lt_is_Some_2 indexes (from + n)) as [idx Hidx]; [lia|].
    assert (Htake : take (S n) (drop from indexes) = take n (drop from indexes) ++ [idx]).
    { erewrite take_S_r; [done|]. by rewrite lookup_drop. }
    rewrite Htake in Hall, Hcap |- *.
    rewrite Forall_app, Forall_singleton in Hall. destruct Hall as [Hall Hidx'].
    destruct (lookup_lt_is_Some_2 rs idx Hidx') as [r Hr].
    rewrite seq_S, foldl_app.
    rewrite fmap_app in Hcap |- *. cbn [fmap list_fmap] in Hcap |- *. rewrite Hr in Hcap |- *.
    cbn [default from_option id] in Hcap |- *. rewrite app_assoc in Hcap |- *.
    cbn [foldl]. rewrite Nat.add_0_l, Hidx. cbn [default from_option id].
    rewrite IH; [|lia|done|].
    2: { rewrite elements_snoc in Hcap. pose proof (Nat2Z.is_nonneg (length r)). lia. }
    rewrite append_of_rows; [|lia|done|].
    + by rewrite (take_1_drop _ _ _ Hr).
    + by rewrite (take_1_drop _ _ _ Hr).
Qed.

Lemma append_value_multiple_times_of_rows rd rs index n r :
  elements rs < 2 ^ 32 →
  rs !! index = Some r →
  elements (rd ++ replicate n r) < 2 ^ 32 →
  append_value_multiple_times (of_rows rd) (of_rows rs) index n =
  of_rows (rd ++ replicate n r).
Proof.
  intros Hrs Hr. unfold append_value_multiple_times.
  induction n as [|n IH]; intros Hcap.
  - simpl. by rewrite app_nil_r.
  - rewrite replicate_S_end, app_assoc in Hcap |- *. simpl.
    rewrite IH.
    2: { rewrite elements_snoc in Hcap. pose proof (Nat2Z.is_nonneg (length r)). lia. }
    apply lookup_lt_Some in Hr as Hlt.
    rewrite append_of_rows; [|lia|done|]; by rewrite (take_1_drop _ _ _ Hr).
Qed.


Lemma row_map_pairs (l : list (K * option V)) :
  NoDup l.*1 → row_map ((λ it, (Some it.1, it.2)) <$> l) = list_to_map l.
Proof.
  induction l as [|[k v] l IH] using rev_ind; intros Hnd; [done|].
  rewrite fmap_app in Hnd. rewrite fmap_app. apply NoDup_app in Hnd as (Hnd & Hnotin & _).
  cbn [fmap list_fmap]. rewrite row_map_snoc. simpl. rewrite IH by done.
  symmetry. apply list_to_map_snoc. intros Hin. apply (Hnotin k Hin). by left.
Qed.

Lemma row_map_datum_row (datum : gmap K (option V)) : row_map (datum_row datum) = datum.
Proof.
  unfold datum_row. rewrite row_map_pairs by apply NoDup_fst_map_to_list.
  apply list_to_map_to_list.
Qed.

Lemma length_datum_row (datum : gmap K (option V)) :
  length (datum_row datum) = length (map_to_list datum).
Proof. unfold datum_row. by rewrite length_fmap. Qed.

Lemma elements_replicate rs n r :
  elements (rs ++ replicate n r) = elements rs + Z.of_nat n * Z.of_nat (length r).
Proof.
  rewrite elements_app. f_equal. induction n as [|n IH].
  - done.
  - cbn [replicate]. rewrite elements_cons, IH. lia.
Qed.

Lemma foldl_filter {A} (P : A → Prop) `{∀ x, Decision (P x)} (l acc : list A) :
  foldl (λ acc x, if decide (P x) then acc ++ [x] else acc) acc l = acc ++ filter P l.
Proof.
  revert acc. induction l as [|x l IH]; intros acc; simpl.
  - by rewrite app_nil_r.
  - rewrite IH, filter_cons. case_decide; [|done]. by rewrite <- app_assoc.
Qed.

Lemma strictly_increasing_cons x (l : list nat) :
  strictly_increasing l = true → Forall (λ y, x < y)%nat l →
  strictly_increasing (x :: l) = true.
Proof.
  intros Hl Hall. destruct l as [|y l]; [done|].
  apply Forall_cons in Hall as [Hxy _]. cbn [strictly_increasing].
  apply andb_true_iff. split; [by apply Nat.ltb_lt|done].
Qed.

Lemma strictly_increasing_filter_seq (P : nat → Prop) `{∀ x, Decision (P x)} a n :
  strictly_increasing (filter P (seq a n)) = true.
Proof.
  revert a. induction n as [|n IH]; intros a; [done|].
  cbn [seq]. rewrite filter_cons. case_decide; [|apply IH].
  apply strictly_increasing_cons; [apply IH|].
  apply Forall_forall. intros y [_ Hy%elem_of_seq]%list_elem_of_filter. lia.
Qed.

Lemma replace_rows_replicate rs (indexes : list nat) r j :
  replace_rows rs indexes (replicate (length indexes) r) !! j =
  (λ r0, if decide (j ∈ indexes) then r else r0) <$> rs !! j.
Proof.
  unfold replace_rows. revert rs. induction indexes as [|i indexes IH]; intros rs.
  - simpl. by destruct (rs !! j).
  - cbn [length replicate zip zip_with foldl fst snd]. rewrite IH.
    destruct (decide (j = i)) as [->|Hne].
    + destruct (decide (i < length rs)%nat).
      * rewrite list_lookup_insert_eq by done.
        destruct (lookup_lt_is_Some_2 rs i) as [r0 ->]; [done|]. simpl.
        rewrite (decide_True (P:=i ∈ i :: indexes)) by left. by case_decide.
      * rewrite list_insert_ge by lia. rewrite lookup_ge_None_2 by lia. done.
    + rewrite list_lookup_insert_ne by done. destruct (rs !! j); [|done]. simpl.
      f_equal. apply decide_ext. rewrite elem_of_cons.
      split; [auto|intros [?|?]; [congruence|done]].
Qed.

Lemma strictly_increasing_inv x (l : list nat) :
  strictly_increasing (x :: l) = true →
  strictly_increasing l = true ∧ Forall (λ y, x < y)%nat l.
Proof.
  revert x. induction l as [|y l IH]; intros x Hl; [done|].
  change (strictly_increasing (x :: y :: l))
    with ((x <? y)%nat && strictly_increasing (y :: l)) in Hl.
  apply andb_true_iff in Hl as [Hxy Hl]. apply Nat.ltb_lt in Hxy.
  split; [done|]. apply Forall_cons. split; [done|].
  destruct (IH y Hl) as [_ Hall]. eapply Forall_impl; [exact Hall|]. simpl. lia.
Qed.

Lemma replace_rows_lookup_notin rs (indexes : list nat) srcs j :
  j ∉ indexes → replace_rows rs indexes srcs !! j = rs !! j.
Proof.
  unfold replace_rows. revert rs srcs.
  induction indexes as [|i indexes IH]; intros rs srcs Hj; [done|].
  destruct srcs as [|s srcs]; [done|]. cbn [zip zip_with foldl fst snd].
  apply not_elem_of_cons in Hj as [Hne Hj].
  rewrite IH by done. by apply list_lookup_insert_ne.
Qed.

Lemma length_replace_rows_eq rs (indexes : list nat) srcs :
  length (replace_rows rs indexes srcs) = length rs.
Proof.
  unfold replace_rows. revert rs srcs.
  induction indexes as [|i indexes IH]; intros rs srcs; [done|].
  destruct srcs as [|s srcs]; [done|]. cbn [zip zip_with foldl fst snd].
  by rewrite IH, length_insert.
Qed.

Lemma replace_rows_lookup_in rs (indexes : list nat) srcs i idx s :
  strictly_increasing indexes = true →
  indexes !! i = Some idx → srcs !! i = Some s → (idx < length rs)%nat →
  replace_rows rs indexes srcs !! idx = Some s.
Proof.
  revert rs srcs i. induction indexes as [|a indexes IH]; intros rs srcs i Hinc Hi Hs Hlt;
    [done|].
  destruct srcs as [|s0 srcs]; [done|].
  apply strictly_increasing_inv in Hinc as [Hinc Hall].
  change (replace_rows rs (a :: indexes) (s0 :: srcs))
    with (replace_rows (<[a := s0]> rs) indexes srcs).
  destruct i as [|i]; simpl in Hi, Hs.
  - simplify_eq. rewrite replace_rows_lookup_notin.
    + by apply list_lookup_insert_eq.
    + intros Hin. rewrite Forall_forall in Hall. specialize (Hall _ Hin). lia.
  - apply (IH _ _ i); [done..|]. by rewrite length_insert.
Qed.

Lemma row_map_notin r (k : K) : Some k ∉ r.*1 → row_map r !! k = None.
Proof.
  induction r as [|p r IH] using rev_ind; intros Hk; [done|].
  rewrite fmap_app in Hk. apply not_elem_of_app in Hk as [Hk Hp].
  rewrite row_map_snoc. destruct p as [[k'|] v]; simpl in *; [|by apply IH].
  rewrite lookup_insert_ne; [by apply IH|].
  intros ->. apply Hp. by left.
Qed.

Lemma row_map_size r : (length (map_to_list (row_map r)) ≤ length r)%nat.
Proof.
  induction r as [|p r IH] using rev_ind; [done|].
  rewrite row_map_snoc, length_app. simpl.
  destruct p.1 as [k|]; [|lia].
  rewrite length_map_to_list, map_size_insert, <- length_map_to_list.
  destruct (row_map r !! k); unfold id; lia.
Qed.

Lemma row_map_size_distinct r :
  NoDup r.*1 → None ∉ r.*1 → length (map_to_list (row_map r)) = length r.
Proof.
  induction r as [|p r IH] using rev_ind; intros Hnd Hnone; [done|].
  rewrite fmap_app in Hnd, Hnone.
  apply NoDup_app in Hnd as (Hnd & Hdisj & _).
  apply not_elem_of_app in Hnone as [Hnone Hp].
  rewrite row_map_snoc, length_app. simpl.
  destruct p as [[k|] v]; simpl in *; [|destruct Hp; by left].
  rewrite length_map_to_list, map_size_insert, <- length_map_to_list.
  rewrite row_map_notin.
  - rewrite IH by done. unfold id. lia.
  - intros Hin. apply (Hdisj _ Hin). by left.
Qed.

Lemma length_select {A} (mask : list Z) (l : list A) :
  (length l ≤ length mask)%nat →
  length (NullableColumn.select mask l) =
  length (base.filter (λ b : Z, b ≠ 0) (take (length l) mask)).
Proof.
  unfold NullableColumn.select. rewrite length_fmap.
  revert mask. induction l as [|x l IH]; intros mask Hlen; [done|].
  destruct mask as [|b mask]; [simpl in Hlen; lia|].
  cbn [length take zip zip_with]. rewrite !filter_cons. cbn [snd].
  specialize (IH mask ltac:(simpl in Hlen; lia)).
  case_decide; cbn [length]; by rewrite IH.
Qed.

End more_facts.

(** ** Hashes, checksums and texts of rows *)

Lemma append_assoc (s1 s2 s3 : string) : (s1 +:+ s2) +:+ s3 = s1 +:+ (s2 +:+ s3).
Proof.
  induction s1 as [|c s1 IH]; [done|].
  change (String c ((s1 +:+ s2) +:+ s3) = String c (s1 +:+ s2 +:+ s3)). by rewrite IH.
Qed.

Lemma append_nil_r (s : string) : s +:+ EmptyString = s.
Proof.
  induction s as [|c s IH]; [done|].
  change (String c (s +:+ EmptyString) = String c s). by rewrite IH.
Qed.

(** A loop that puts a separator before every item but the first. *)
Lemma join_loop {A} (f : A → string) (sep : string) (items : list A) (acc : string) :
  foldl (λ ss ix, (if decide (0 < ix.1)%nat then ss +:+ sep else ss) +:+ f ix.2)
        acc (zip (seq 0 (length items)) items) =
  acc +:+ String.concat sep (f <$> items).
Proof.
  assert (Hrest : ∀ a (l : list A) acc,
    foldl (λ ss ix, (if decide (0 < ix.1)%nat then ss +:+ sep else ss) +:+ f ix.2)
          acc (zip (seq (S a) (length l)) l) =
    acc +:+ foldr (λ x s, sep +:+ f x +:+ s) EmptyString l).
  { intros a l. revert a. induction l as [|x l IH]; intros a acc'.
    - simpl. by rewrite append_nil_r.
    - cbn [length seq zip zip_with foldl foldr fst snd].
      rewrite decide_True by lia. rewrite IH. by rewrite !append_assoc. }
  assert (Hconcat : ∀ x (l : list A),
    String.concat sep (f <$> x :: l) =
    f x +:+ foldr (λ x s, sep +:+ f x +:+ s) EmptyString l).
  { intros x l. revert x. induction l as [|y l IH]; intros x.
    - simpl. by rewrite append_nil_r.
    - change (String.concat sep (f <$> x :: y :: l))
        with (f x +:+ sep +:+ String.concat sep (f <$> y :: l)).
      rewrite IH. done. }
  destruct items as [|x items].
  - simpl. by rewrite append_nil_r.
  - cbn [length seq zip zip_with foldl fst snd].
    rewrite decide_False by lia. by rewrite Hrest, Hconcat, append_assoc.
Qed.

Lemma foldl_seq_zip {A B} (f : A → nat * B → A) (l : list B) (a : A) (g : A → nat → A) :
  (∀ a i x, l !! i = Some x → g a i = f a (i, x)) →
  foldl g a (seq 0 (length l)) = foldl f a (zip (seq 0 (length l)) l).
Proof.
  intros Hfg. induction l as [|x l IH] using rev_ind; [done|].
  rewrite length_app. simpl. rewrite Nat.add_1_r, seq_S, zip_with_app by (by rewrite length_seq).
  rewrite !foldl_app. simpl. rewrite <- IH.
  - apply Hfg. by rewrite lookup_app_r, Nat.sub_diag.
  - intros a' i y Hi. apply Hfg. by rewrite lookup_app_l by (by eapply lookup_lt_Some).
Qed.

(** A loop that rewrites the entries [from .. to) of an array, each from
    its former value. *)
Lemma update_range (g : Z → nat → Z) (hash : list Z) (from n : nat) (i : nat) :
  (from + n ≤ length hash)%nat →
  foldl (λ hash i, <[i := g (at_ hash i) i]> hash) hash (seq from n) !! i =
  if decide (from ≤ i < from + n)%nat then Some (g (at_ hash i) i) else hash !! i.
Proof.
  revert hash from. induction n as [|n IH]; intros hash from Hlen.
  - simpl. case_decide; [lia|done].
  - cbn [seq foldl]. rewrite IH by (rewrite length_insert; lia).
    destruct (decide (i = from)) as [->|Hne].
    + rewrite decide_False, decide_True by lia. by apply list_lookup_insert_eq; lia.
    + rewrite list_lookup_insert_ne by done. unfold at_ at 1.
      rewrite list_lookup_insert_ne by done. fold (at_ hash i).
      apply decide_ext. lia.
Qed.

Lemma lxor_foldl (f : nat → Z) (l1 l2 : list nat) (a : Z) :
  foldl (λ x i, Z.lxor x (f i)) a (l1 ++ l2) =
  Z.lxor (foldl (λ x i, Z.lxor x (f i)) a l1) (foldl (λ x i, Z.lxor x (f i)) 0 l2).
Proof.
  rewrite foldl_app. generalize (foldl (λ x i, Z.lxor x (f i)) a l1). intros b.
  induction l2 as [|y l2 IH] using rev_ind.
  - simpl. by rewrite Z.lxor_0_r.
  - rewrite !foldl_app. simpl. by rewrite IH, Z.lxor_assoc.
Qed.

Lemma child_xor_split {T} (code : T → Z) (c : list (option T)) (a b d : Z) :
  0 ≤ a ≤ b → b ≤ d →
  child_xor code c a d = Z.lxor (child_xor code c a b) (child_xor code c b d).
Proof.
  intros Hab Hbd. unfold child_xor.
  replace (Z.to_nat d - Z.to_nat a)%nat
    with ((Z.to_nat b - Z.to_nat a) + (Z.to_nat d - Z.to_nat b))%nat by lia.
  rewrite <- take_take_drop, drop_drop.
  replace (Z.to_nat a + (Z.to_nat b - Z.to_nat a))%nat with (Z.to_nat b) by lia.
  rewrite foldl_app.
  generalize (foldl (λ x e, Z.lxor x (elem_code code e)) 0
                (take (Z.to_nat b - Z.to_nat a) (drop (Z.to_nat a) c))).
  generalize (take (Z.to_nat d - Z.to_nat b) (drop (Z.to_nat b) c)).
  intros l x. induction l as [|y l IH] using rev_ind.
  - simpl. by rewrite Z.lxor_0_r.
  - rewrite !foldl_app. simpl. by rewrite IH, Z.lxor_assoc.
Qed.


Section row_facts.
Context {K V : Type} `{Countable K} `{!Inhabited K} `{!Inhabited V}.
Implicit Types (m : MapColumn K V) (rs : list (list (option K * option V))).
Implicit Types (r : list (option K * option V)).

(** The offsets of a row and the child elements that it owns. *)
Lemma row_offsets rs idx r :
  elements rs < 2 ^ 32 → rs !! idx = Some r →
  at_ (offsets (of_rows rs)) idx = elements (take idx rs) ∧
  at_ (offsets (of_rows rs)) (idx + 1) = elements (take idx rs) + Z.of_nat (length r) ∧
  0 ≤ elements (take idx rs) ∧
  elements (take idx rs) + Z.of_nat (length r) ≤ elements rs ∧
  (∀ i p, r !! i = Some p →
     (concat rs).*1 !! Z.to_nat (elements (take idx rs) + Z.of_nat i) = Some p.1 ∧
     (concat rs).*2 !! Z.to_nat (elements (take idx rs) + Z.of_nat i) = Some p.2).
Proof.
  intros Hrs Hr. assert (idx < length rs)%nat by (by eapply lookup_lt_Some).
  change (offsets (of_rows rs)) with (offsets_of 0 rs).
  rewrite !at_offsets_of by lia.
  replace (idx + 1)%nat with (S idx) by lia. rewrite (elements_take_S _ _ _ Hr).
  pose proof (elements_take_le rs (S idx)) as Hle. rewrite (elements_take_S _ _ _ Hr) in Hle.
  split_and!; [lia|lia|apply elements_nonneg|done|].
  intros i p Hi.
  pose proof (child_lookup_of_rows fst rs idx r i p Hr Hi) as H1.
  pose proof (child_lookup_of_rows snd rs idx r i p Hr Hi) as H2.
  by rewrite Z.add_0_l in H1, H2.
Qed.

End row_facts.

(** ** Batches of serialized rows *)

(** Rows that are written into the slots of a buffer, one slot of [M] bytes
    per row: every row lands in its slot behind the bytes that the slot holds
    already, and nothing else is touched. *)
Lemma write_slots (w : nat → list Z) (ret : nat → Z) (M : Z) (dst ss : list Z) (k : nat) :
  0 ≤ M < 2 ^ 32 →
  Z.of_nat k * M ≤ Z.of_nat (length dst) →
  Z.of_nat (length dst) < 2 ^ 64 →
  (k ≤ length ss)%nat →
  (∀ i, (i < k)%nat → 0 ≤ at_ ss i ∧ at_ ss i + Z.of_nat (length (w i)) ≤ M) →
  (∀ i, (i < k)%nat → ret i = Z.of_nat (length (w i))) →
  let st := foldl (λ (st : list Z * list Z) i,
                     (list_inserts (Z.to_nat (u64 (Z.of_nat i * M) + at_ st.2 i)) (w i) st.1,
                      <[i := u32 (at_ st.2 i + ret i)]> st.2))
                  (dst, ss) (seq 0 k) in
  length st.1 = length dst ∧ length st.2 = length ss ∧
  (∀ i, (i < k)%nat → st.2 !! i = Some (at_ ss i + Z.of_nat (length (w i)))) ∧
  (∀ i, (k ≤ i)%nat → st.2 !! i = ss !! i) ∧
  (∀ i j, (i < k)%nat → (j < length (w i))%nat →
          st.1 !! (Z.to_nat (Z.of_nat i * M + at_ ss i) + j)%nat = w i !! j) ∧
  (∀ p, (∀ i, (i < k)%nat →
              ¬ (Z.of_nat i * M + at_ ss i ≤ Z.of_nat p <
                 Z.of_nat i * M + at_ ss i + Z.of_nat (length (w i)))) →
        st.1 !! p = dst !! p).
Proof.
  intros HM Hdst H64 Hss Hfit Hret. induction k as [|k IH].
  - simpl. split_and!; try done; intros; lia.
  - destruct IH as (IH1 & IH2 & IH3 & IH4 & IH5 & IH6); [lia|lia|auto with lia..|].
    cbv zeta in *. rewrite seq_S, foldl_app. cbn [foldl]. rewrite Nat.add_0_l.
    set (st := foldl _ (dst, ss) (seq 0 k)) in *.
    destruct (Hfit k ltac:(lia)) as [Hs0 Hs1].
    assert (Hat : at_ st.2 k = at_ ss k) by (unfold at_; by rewrite IH4).
    assert (Hslot : ∀ i, (i < k)%nat → Z.of_nat i * M + M ≤ Z.of_nat k * M) by (intros; nia).
    assert (Hend : Z.of_nat k * M + M ≤ Z.of_nat (length dst)) by nia.
    assert (Hk0 : 0 ≤ Z.of_nat k * M) by nia.
    rewrite Hat, (Hret k) by lia. rewrite u64_small, u32_small by lia.
    cbn [fst snd]. split_and!.
    + by rewrite length_inserts.
    + by rewrite length_insert.
    + intros i Hi. destruct (decide (i = k)) as [->|Hne].
      * apply list_lookup_insert_eq. lia.
      * rewrite list_lookup_insert_ne by done. apply IH3. lia.
    + intros i Hi. rewrite list_lookup_insert_ne by lia. apply IH4. lia.
    + intros i j Hi Hj. destruct (decide (i = k)) as [->|Hne].
      * rewrite list_lookup_inserts by (rewrite ?IH1; lia). f_equal. lia.
      * destruct (Hfit i ltac:(lia)) as [Hi0 Hi1]. specialize (Hslot i ltac:(lia)).
        assert (0 ≤ Z.of_nat i * M) by nia.
        rewrite list_lookup_inserts_lt by lia. apply IH5; lia.
    + intros p Hp.
      assert (Hpk := Hp k ltac:(lia)).
      destruct (decide (Z.of_nat p < Z.of_nat k * M + at_ ss k)).
      * rewrite list_lookup_inserts_lt by lia. apply IH6. intros i Hi. apply Hp. lia.
      * rewrite list_lookup_inserts_ge by lia. apply IH6. intros i Hi. apply Hp. lia.
Qed.

Section batch_facts2.
Context {K V : Type} `{Countable K} `{!Inhabited K} `{!Inhabited V}.
Context `{!Codec K} `{!Codec V}.
Implicit Types (m : MapColumn K V) (rs rd : list (list (option K * option V))).
Implicit Types (r : list (option K * option V)).

Lemma serialize_ret_length rs idx r :
  elements rs < 2 ^ 32 → rs !! idx = Some r →
  Z.of_nat (length (serialize (of_rows rs) idx).1) < 2 ^ 32 →
  (serialize (of_rows rs) idx).2 = Z.of_nat (length (serialize (of_rows rs) idx).1).
Proof.
  intros Hrs Hr. rewrite (serialize_of_rows _ _ _ Hrs Hr). cbn [fst snd].
  rewrite length_app, length_encode_u32. intros Hlen.
  rewrite serialize_sum_small, u32_small by lia. lia.
Qed.

(** The loop of [deserialize_and_append_batch] on slices that start with
    the bytes of the rows [rws]. *)
Lemma deserialize_batch_loop rd (rws : list (list (option K * option V)))
    (rest : nat → list Z) (srcs : list Slice.t) (k : nat) :
  (k ≤ length rws)%nat →
  elements (rd ++ take k rws) < 2 ^ 32 →
  (∀ i r, (i < k)%nat → rws !! i = Some r →
     Slice.data <$> srcs !! i =
       Some (encode_u32 (Z.of_nat (length r)) ++ row_bytes r ++ rest i)) →
  let st := deserialize_and_append_batch (of_rows rd) srcs k in
  st.1 = of_rows (rd ++ take k rws) ∧
  length st.2 = length srcs ∧
  (∀ i, (i < k)%nat → Slice.data <$> st.2 !! i = Some (rest i)) ∧
  (∀ i, Slice.size <$> st.2 !! i = Slice.size <$> srcs !! i) ∧
  (∀ i, (k ≤ i)%nat → st.2 !! i = srcs !! i).
Proof.
  unfold deserialize_and_append_batch, reserve. induction k as [|k IH]; intros Hk Hcap Hsrc.
  - simpl. rewrite app_nil_r. split_and!; try done. intros; lia.
  - destruct IH as (IH1 & IH2 & IH3 & IH4 & IH5); [lia| |auto with lia|].
    { destruct (lookup_lt_is_Some_2 rws k) as [r Hr]; [lia|].
      rewrite (take_S_r _ _ _ Hr), app_assoc, elements_snoc in Hcap.
      pose proof (Nat2Z.is_nonneg (length r)). lia. }
    cbv zeta in *. rewrite seq_S, foldl_app. cbn [foldl]. rewrite Nat.add_0_l.
    set (st := foldl _ (of_rows rd, srcs) (seq 0 k)) in *.
    destruct (lookup_lt_is_Some_2 rws k) as [r Hr]; [lia|].
    pose proof (Hsrc k r ltac:(lia) Hr) as Hdata.
    rewrite <- IH5 in Hdata by lia.
    destruct (st.2 !! k) as [src|] eqn:Hsk; [|done].
    assert (Hd : Slice.data src =
                 encode_u32 (Z.of_nat (length r)) ++ row_bytes r ++ rest k)
      by (by injection Hdata).
    cbn [default from_option id]. rewrite IH1, Hd.
    rewrite (take_S_r _ _ _ Hr), app_assoc in Hcap.
    rewrite (take_S_r _ _ _ Hr), (app_assoc rd).
    rewrite deserialize_of_rows by done. cbn [fst snd].
    assert (Hlt : (k < length st.2)%nat) by (by eapply lookup_lt_Some).
    split_and!.
    + done.
    + by rewrite length_insert.
    + intros i Hi. destruct (decide (i = k)) as [->|Hne].
      * by rewrite list_lookup_insert_eq.
      * rewrite list_lookup_insert_ne by done. apply IH3. lia.
    + intros i. destruct (decide (i = k)) as [->|Hne].
      * rewrite list_lookup_insert_eq by done. rewrite <- IH4, Hsk. done.
      * rewrite list_lookup_insert_ne by done. apply IH4.
    + intros i Hi. rewrite list_lookup_insert_ne by lia. apply IH5. lia.
Qed.

Lemma serialize_bytes_of_rows rs idx r :
  elements rs < 2 ^ 32 → rs !! idx = Some r →
  (serialize (of_rows rs) idx).1 = encode_u32 (Z.of_nat (length r)) ++ row_bytes r.
Proof. intros Hrs Hr. by rewrite (serialize_of_rows _ _ _ Hrs Hr). Qed.

(** [serialize_batch] on the rows of a column: every row lies in its slot
    behind what the slot held, which is kept. *)
Lemma serialize_batch_of_rows rs (dst ss : list Z) (k : nat) (M : Z) :
  elements rs < 2 ^ 32 →
  (k ≤ length rs)%nat → (k ≤ length ss)%nat →
  0 ≤ M < 2 ^ 32 →
  Z.of_nat k * M ≤ Z.of_nat (length dst) →
  Z.of_nat (length dst) < 2 ^ 64 →
  (∀ i, (i < k)%nat →
     0 ≤ at_ ss i ∧
     at_ ss i + Z.of_nat (length (serialize (of_rows rs) i).1) ≤ M) →
  let st := serialize_batch (of_rows rs) dst ss k M in
  length st.1 = length dst ∧ length st.2 = length ss ∧
  (∀ i, (i < k)%nat →
     st.2 !! i = Some (at_ ss i + Z.of_nat (length (serialize (of_rows rs) i).1)) ∧
     drop (Z.to_nat (Z.of_nat i * M + at_ ss i)) st.1 =
       (serialize (of_rows rs) i).1 ++
       drop (Z.to_nat (Z.of_nat i * M + at_ ss i +
                       Z.of_nat (length (serialize (of_rows rs) i).1))) st.1 ∧
     take (Z.to_nat (at_ ss i)) (drop (Z.to_nat (Z.of_nat i * M)) st.1) =
       take (Z.to_nat (at_ ss i)) (drop (Z.to_nat (Z.of_nat i * M)) dst)) ∧
  (∀ i, (k ≤ i)%nat → st.2 !! i = ss !! i).
Proof.
  intros Hrs Hk Hss HM Hdst H64 Hfit.
  pose proof (write_slots (λ i, (serialize (of_rows rs) i).1)
                          (λ i, (serialize (of_rows rs) i).2) M dst ss k
                          HM Hdst H64 Hss Hfit) as Hw.
  destruct Hw as (H1 & H2 & H3 & H4 & H5 & H6).
  { intros i Hi. destruct (lookup_lt_is_Some_2 rs i) as [r Hr]; [lia|].
    apply (serialize_ret_length rs i r Hrs Hr).
    destruct (Hfit i Hi). lia. }
  cbv zeta. unfold serialize_batch.
  set (st := foldl _ (dst, ss) (seq 0 k)) in *.
  split_and!; [done|done| |done].
  intros i Hi. destruct (Hfit i Hi) as [Hs0 Hs1].
  set (len := length (serialize (of_rows rs) i).1) in *.
  assert (Hi0 : 0 ≤ Z.of_nat i * M) by nia.
  assert (Hslot : Z.of_nat i * M + M ≤ Z.of_nat k * M) by nia.
  split_and!.
  - by apply H3.
  - rewrite <- (take_drop len (drop _ st.1)) at 1. f_equal.
    + apply list_eq. intros j. rewrite lookup_take, lookup_drop. case_decide.
      * by apply H5.
      * symmetry. apply lookup_ge_None_2. fold len. lia.
    + rewrite drop_drop. f_equal. lia.
  - apply list_eq. intros j. rewrite !lookup_take, !lookup_drop. case_decide; [|done].
    apply H6. intros i' Hi' [Hlo Hhi].
    destruct (Hfit i' Hi') as [Hs0' Hs1'].
    destruct (decide (i' ≤ i)%nat) as [Hle|Hgt].
    + destruct (decide (i' = i)) as [->|Hne]; [lia|].
      assert (Z.of_nat i' * M + M ≤ Z.of_nat i * M) by nia. lia.
    + assert (Z.of_nat i * M + M ≤ Z.of_nat i' * M) by nia. lia.
Qed.

Lemma foldl_max_spec {A} (f : A → Z) (l : list A) (a : Z) :
  a ≤ foldl (λ mx x, Z.max mx (f x)) a l ∧
  (∀ x, x ∈ l → f x ≤ foldl (λ mx x, Z.max mx (f x)) a l) ∧
  (foldl (λ mx x, Z.max mx (f x)) a l = a ∨
   ∃ x, x ∈ l ∧ foldl (λ mx x, Z.max mx (f x)) a l = f x).
Proof.
  revert a. induction l as [|y l IH]; intros a; simpl.
  - split_and!; [lia| |by left]. intros x Hx. by apply elem_of_nil in Hx.
  - destruct (IH (Z.max a (f y))) as (IH1 & IH2 & IH3). split_and!.
    + lia.
    + intros x [->|Hx]%elem_of_cons; [lia|by apply IH2].
    + destruct IH3 as [Heq|(x & Hx & Heq)].
      * destruct (Z.max_spec a (f y)) as [[_ Hmax]|[_ Hmax]].
        -- right. exists y. split; [by left|]. by rewrite Heq.
        -- left. by rewrite Heq.
      * right. exists x. split; [by right|done].
Qed.

Lemma serialize_size_nonneg m idx : 0 ≤ serialize_size m idx.
Proof.
  unfold serialize_size. generalize (seq 0 (Z.to_nat
    (u32 (at_ (offsets m) (idx + 1) - at_ (offsets m) idx)))).
  intros l. destruct l as [|x l _] using rev_ind; [simpl; lia|].
  rewrite foldl_app. simpl. apply u32_range.
Qed.




Lemma serialize_size_lt m idx : serialize_size m idx < 2 ^ 32.
Proof.
  unfold serialize_size. generalize (seq 0 (Z.to_nat
    (u32 (at_ (offsets m) (idx + 1) - at_ (offsets m) idx)))).
  intros l. destruct l as [|x l _] using rev_ind; [simpl; lia|].
  rewrite foldl_app. simpl. apply u32_range.
Qed.

Lemma serialize_size_length rs idx r :
  elements rs < 2 ^ 32 → rs !! idx = Some r →
  Z.of_nat (length (serialize (of_rows rs) idx).1) < 2 ^ 32 →
  serialize_size (of_rows rs) idx = Z.of_nat (length (serialize (of_rows rs) idx).1).
Proof.
  intros Hrs Hr. rewrite (serialize_bytes_of_rows _ _ _ Hrs Hr).
  rewrite (serialize_size_of_rows _ _ _ Hrs Hr), length_app, length_encode_u32.
  intros Hlen. rewrite serialize_size_loop_small by lia. lia.
Qed.

End batch_facts2.

(** * The properties of the column *)

Section properties.
Context {K V : Type} `{Countable K} `{!Inhabited K} `{!Inhabited V}.
Implicit Types (m dst src : MapColumn K V).

(** C1.  Invariant preservation.  A well-formed column stays well-formed
    under every sequence of [append], [append_datum], [append_nulls],
    [append_default], [resize], [filter_range] and [update_rows] whose
    preconditions hold: afterwards [offsets[0] == 0], the offsets never
    decrease, there is one offset more than there are rows, and the last
    offset is the size of the key child and of the value child. *)
Theorem invariant_preservation m (ops : list op) :
  well_formed m = true →
  valid_run m ops →
  offsets (run m ops) !! 0%nat = Some 0 ∧
  (∀ i a b, offsets (run m ops) !! i = Some a →
            offsets (run m ops) !! S i = Some b → a ≤ b) ∧
  length (offsets (run m ops)) = (size (run m ops) + 1)%nat ∧
  back (offsets (run m ops)) = NullableColumn.size (keys (run m ops)) ∧
  NullableColumn.size (keys (run m ops)) = NullableColumn.size (values (run m ops)).
Proof.
  intros Hm Hvalid.
  pose proof (run_well_formed m ops Hm Hvalid) as Hwf.
  pose proof (well_formed_size _ Hwf) as Hsize.
  apply well_formed_unfold in Hwf as (H0 & Hnd & _ & Hk & Hv).
  split_and!; [done| |done|done|].
  - intros i a b. by apply non_decreasing_lookup.
  - unfold NullableColumn.size. congruence.
Qed.

(** C7.  [append_nulls(count)] and [append_default(count)] append [count]
    empty rows: the row count grows by [count], every new offset entry is the
    former last offset, both children are untouched, [append_nulls] returns
    [true]; and [set_null] always returns [false], the column has no null
    marker of its own. *)
Theorem append_nulls_default_empty m (count : nat) :
  well_formed m = true →
  Z.of_nat count ≤ INT_MAX →
  (append_nulls m count).2 = true ∧
  (append_nulls m count).1 = append_default m count ∧
  size (append_default m count) = (size m + count)%nat ∧
  offsets (append_default m count) = offsets m ++ replicate count (back (offsets m)) ∧
  keys (append_default m count) = keys m ∧
  values (append_default m count) = values m ∧
  rows (append_default m count) = rows m ++ replicate count [] ∧
  (∀ idx, set_null m idx = false).
Proof.
  intros (rs & -> & Hlt)%well_formed_iff _.
  rewrite append_nulls_of_rows, append_default_of_rows by done.
  rewrite rows_of_rows, !size_of_rows, of_rows_app_replicate_nil.
  change (offsets (of_rows rs)) with (offsets_of 0 rs).
  rewrite back_offsets_of, Z.add_0_l, length_app, length_replicate, rows_of_rows.
  by split_and!.
Qed.

(** C10.  [compare_at] returns [-1] for every pair of rows and every
    right-hand column, also when a row is compared with itself. *)
Theorem compare_at_minus_one m (left right : nat) (right_column : MapColumn K V)
    (nan_direction_hint : Z) :
  compare_at m left right right_column nan_direction_hint = -1.
Proof. reflexivity. Qed.


(** C5.  Append range-copy equivalence.  For a well-formed source and a row
    range inside it, the bulk [append(src, offset, count)] leaves the
    destination, whatever it holds, in the same state as [count] single-row
    appends [append(src, offset + i, 1)], which is also what
    [append_selective] does on the indexes [offset, ..., offset + count - 1]. *)
Theorem append_range_equivalence dst src (offset count : nat) :
  well_formed src = true →
  (offset + count ≤ size src)%nat →
  append dst src offset count =
    foldl (λ m i, append m src (offset + i) 1) dst (seq 0 count) ∧
  append dst src offset count =
    append_selective dst src (seq offset count) 0 count.
Proof.
  intros (rs & -> & Hlt)%well_formed_iff Hrange. rewrite size_of_rows in Hrange.
  assert (Hsingles : append dst (of_rows rs) offset count =
            foldl (λ m i, append m (of_rows rs) (offset + i) 1) dst (seq 0 count)).
  { induction count as [|count IH].
    - rewrite append_spec by (done || lia). rewrite take_0. unfold push_rows. simpl.
      rewrite !app_nil_r. by destruct dst.
    - rewrite seq_S, foldl_app, <- IH by lia. simpl.
      destruct (lookup_lt_is_Some_2 rs (offset + count)) as [r Hr]; [lia|].
      rewrite !append_spec by (done || lia). simpl.
      rewrite (take_S_r (drop offset rs) count r) by (by rewrite lookup_drop).
      rewrite (take_1_drop _ _ _ Hr).
      unfold push_rows. rewrite concat_app, !fmap_app, foldl_app, <- !app_assoc. done. }
  split; [done|].
  rewrite Hsingles. unfold append_selective. apply foldl_ext_in.
  intros m i [_ Hi]%elem_of_seq. simpl in Hi.
  by rewrite lookup_seq_lt by lia.
Qed.

(** C3.  [filter_range(filter, from, to)] with [to == size()] keeps the rows
    before [from] and, of the rows from [from] on, exactly those whose mask
    byte is non-zero, in their order and with their contents; the children
    hold exactly the elements of the kept rows; the returned value is the new
    row count; and a mask without a zero byte leaves the column as it was.
    This holds for the portable build and, for a mask of bytes below 128
    (a boolean mask in particular), for the AVX2 build. *)
Theorem filter_range_correct (avx2 : bool) m (filter : list Z) (from : nat) :
  well_formed m = true →
  (from ≤ size m)%nat →
  (size m ≤ length filter)%nat →
  (avx2 = true → Forall (λ b, 0 ≤ b < 128) filter) →
  rows (filter_range avx2 m filter from (size m)).1 =
    take from (rows m) ++ NullableColumn.select (drop from filter) (drop from (rows m)) ∧
  (filter_range avx2 m filter from (size m)).2 = size (filter_range avx2 m filter from (size m)).1 ∧
  well_formed (filter_range avx2 m filter from (size m)).1 = true ∧
  NullableColumn.size (keys (filter_range avx2 m filter from (size m)).1) =
    elements (rows (filter_range avx2 m filter from (size m)).1) ∧
  NullableColumn.size (values (filter_range avx2 m filter from (size m)).1) =
    elements (rows (filter_range avx2 m filter from (size m)).1) ∧
  (Forall (λ f, f ≠ 0) filter → (filter_range avx2 m filter from (size m)).1 = m).
Proof.
  intros (rs & -> & Hlt)%well_formed_iff Hfrom Hfl Hbytes. rewrite size_of_rows in *.
  rewrite filter_range_build_of_rows by done. simpl.
  rewrite !rows_of_rows, size_of_rows.
  pose proof (elements_filter_rows_le filter from rs).
  split_and!; try done.
  - apply well_formed_of_rows. lia.
  - unfold NullableColumn.size, elements. by rewrite length_fmap.
  - unfold NullableColumn.size, elements. by rewrite length_fmap.
  - intros Hall. f_equal. unfold filter_rows.
    rewrite select_ones; [apply take_drop| |by apply Forall_drop].
    rewrite !length_drop. lia.
Qed.

(** C4.  [update_rows] takes the fast path exactly when every replacement
    row has the cardinality of the row it replaces, and the rebuild path
    otherwise; on either path row [indexes[i]] becomes row [i] of the source
    and the other rows stay; and where the fast path applies the rebuild path
    would have produced the very same column. *)
Theorem update_rows_paths m src (indexes : list nat) :
  well_formed m = true →
  well_formed src = true →
  length indexes = size src →
  strictly_increasing indexes = true →
  Forall (λ idx, idx < size m)%nat indexes →
  Z.of_nat (size m) < 2 ^ 31 →
  NullableColumn.size (keys m) + NullableColumn.size (keys src) < 2 ^ 32 →
  (need_resize m src indexes = false ↔
   ∀ i idx, indexes !! i = Some idx → get_map_size src i = get_map_size m idx) ∧
  update_rows m src indexes =
    (if need_resize m src indexes
     then update_rows_rebuild m src indexes else update_rows_fast m src indexes) ∧
  rows (update_rows m src indexes) = replace_rows (rows m) indexes (rows src) ∧
  well_formed (update_rows m src indexes) = true ∧
  (need_resize m src indexes = false →
   update_rows_rebuild m src indexes = update_rows_fast m src indexes).
Proof.
  intros (rs & -> & Hrs)%well_formed_iff (srcs & -> & Hsrcs)%well_formed_iff.
  rewrite !size_of_rows. intros Hlen Hinc Hrange Hrows Hcap.
  change (keys (of_rows rs)) with ((concat rs).*1) in Hcap.
  change (keys (of_rows srcs)) with ((concat srcs).*1) in Hcap.
  unfold NullableColumn.size in Hcap. rewrite !length_fmap in Hcap.
  assert (Hcap' : elements rs + elements srcs < 2 ^ 32) by (unfold elements; lia).
  pose proof (elements_nonneg rs). pose proof (elements_nonneg srcs).
  pose proof (elements_replace_rows_le rs indexes srcs).
  rewrite update_rows_of_rows, !rows_of_rows by done.
  split_and!.
  - rewrite need_resize_false by (done || lia).
    rewrite Forall2_same_length_lookup. split.
    + intros [_ Hfits] i idx Hidx.
      destruct (lookup_lt_is_Some_2 srcs i) as [s Hs].
      { apply lookup_lt_Some in Hidx. lia. }
      destruct (Hfits i idx s Hidx Hs) as (r & Hr & Hlenr).
      rewrite (get_map_size_of_rows _ _ _ Hrs Hr), (get_map_size_of_rows _ _ _ Hsrcs Hs). lia.
    + intros Hsame. split; [done|]. intros i idx s Hidx Hs.
      assert (idx < length rs)%nat as Hlt.
      { rewrite Forall_forall in Hrange. apply Hrange. by eapply list_elem_of_lookup_2. }
      destruct (lookup_lt_is_Some_2 rs idx Hlt) as [r Hr]. exists r. split; [done|].
      specialize (Hsame i idx Hidx).
      rewrite (get_map_size_of_rows _ _ _ Hrs Hr), (get_map_size_of_rows _ _ _ Hsrcs Hs) in Hsame.
      lia.
  - rewrite <- update_rows_of_rows by done. done.
  - done.
  - apply well_formed_of_rows. lia.
  - intros Hneed. apply need_resize_false in Hneed; [|lia|lia|done|done].
    rewrite update_rows_rebuild_of_rows, update_rows_fast_of_rows by (done || lia). done.
Qed.

(** C8.  [get(idx)] materializes the row from its element range only: the
    entry of a key is the value of the last pair of the row that carries this
    key, there is no entry for a key that no pair of the row carries, and a
    pair whose key is null contributes nothing. *)
Theorem get_materializes m (idx : nat) :
  well_formed m = true →
  (idx < size m)%nat →
  get m idx = row_map (row m idx) ∧
  (∀ k, get m idx !! k = snd <$> last (filter (λ p, p.1 = Some k) (row m idx))) ∧
  (∀ k v, get m idx !! k = Some v → (Some k, v) ∈ row m idx) ∧
  (∀ k v1 v2 r1 r2, row m idx = r1 ++ [(Some k, v1)] ++ r2 ++ [(Some k, v2)] →
                    get m idx !! k = Some v2) ∧
  (∀ r1 v r2, row m idx = r1 ++ [(None, v)] ++ r2 → get m idx = row_map (r1 ++ r2)).
Proof.
  intros (rs & -> & Hlt)%well_formed_iff Hidx. rewrite size_of_rows in Hidx.
  destruct (lookup_lt_is_Some_2 rs idx Hidx) as [r Hr].
  rewrite (get_of_rows _ _ _ Hlt Hr), (row_of_rows _ _ _ Hr).
  split_and!; [done|apply row_map_lookup| | |].
  - intros k v. rewrite row_map_lookup.
    destruct (last _) as [p|] eqn:Hlast; [|done]. simpl. intros [= <-].
    apply last_Some in Hlast as [l' Hl'].
    assert (p ∈ filter (λ p, p.1 = Some k) r) as Hin by (rewrite Hl'; set_solver).
    apply list_elem_of_filter in Hin as [Hk Hin]. destruct p as [k' v']. simpl in *.
    by subst.
  - intros k v1 v2 r1 r2 ->. rewrite row_map_lookup.
    rewrite !app_assoc, filter_app, filter_cons_True, filter_nil, last_snoc by done. done.
  - intros r1 v r2 ->. unfold row_map. by rewrite !foldl_app.
Qed.

End properties.

Lemma invariant_preservation_witness :
  well_formed col_abc = true ∧ valid_run col_abc example_ops ∧
  offsets (run col_abc example_ops) !! 0%nat = Some 0 ∧
  (∀ i a b, offsets (run col_abc example_ops) !! i = Some a →
            offsets (run col_abc example_ops) !! S i = Some b → a ≤ b) ∧
  length (offsets (run col_abc example_ops)) = (size (run col_abc example_ops) + 1)%nat ∧
  back (offsets (run col_abc example_ops)) =
    NullableColumn.size (keys (run col_abc example_ops)) ∧
  NullableColumn.size (keys (run col_abc example_ops)) =
    NullableColumn.size (values (run col_abc example_ops)).
Proof.
  split; [vm_compute; reflexivity|].
  split; [vm_compute; repeat split|].
  apply (invariant_preservation col_abc example_ops); [vm_compute; reflexivity|].
  vm_compute; repeat split.
Defined.

Lemma append_nulls_default_empty_witness :
  well_formed col_abc = true ∧ Z.of_nat 2 ≤ INT_MAX ∧
  (append_nulls col_abc 2).1 = append_default col_abc 2 ∧
  rows (append_default col_abc 2) = rows col_abc ++ [[]; []].
Proof.
  split; [vm_compute; reflexivity|]. split; [vm_compute; discriminate|].
  destruct (append_nulls_default_empty col_abc 2) as (_ & H1 & _ & _ & _ & _ & H2 & _);
    [vm_compute; reflexivity|vm_compute; discriminate|].
  split; [exact H1|exact H2].
Defined.

Section serialization_properties.
Context {K V : Type} `{Countable K} `{!Inhabited K} `{!Inhabited V}.
Context `{!Codec K} `{!Codec V}.
Implicit Types (m dst : MapColumn K V).

(** C2.  Serialization round trip.  [serialize(idx, pos)] writes the
    cardinality of the row as a [u32] and then every key and value of the row
    in storage order; [deserialize_and_append] on these bytes appends a row
    equal to the original, an empty row included, and returns the pointer one
    past them; the number of bytes written is the returned value and is
    [serialize_size(idx)]. *)
Theorem serialize_round_trip m (idx : nat) dst (rest : list Z) :
  well_formed m = true →
  (idx < size m)%nat →
  well_formed dst = true →
  NullableColumn.size (keys dst) + get_map_size m idx < 2 ^ 32 →
  Z.of_nat (length (serialize m idx).1) < 2 ^ 32 →
  (serialize m idx).1 = encode_u32 (get_map_size m idx) ++ row_bytes (row m idx) ∧
  rows (deserialize_and_append dst ((serialize m idx).1 ++ rest)).1 =
    rows dst ++ [row m idx] ∧
  (deserialize_and_append dst ((serialize m idx).1 ++ rest)).2 = rest ∧
  well_formed (deserialize_and_append dst ((serialize m idx).1 ++ rest)).1 = true ∧
  (serialize m idx).2 = Z.of_nat (length (serialize m idx).1) ∧
  (serialize m idx).2 = serialize_size m idx.
Proof.
  intros (rs & -> & Hrs)%well_formed_iff Hidx (rd & -> & Hrd)%well_formed_iff.
  rewrite size_of_rows in Hidx.
  destruct (lookup_lt_is_Some_2 rs idx Hidx) as [r Hr].
  rewrite (get_map_size_of_rows _ _ _ Hrs Hr), (row_of_rows _ _ _ Hr).
  rewrite (serialize_of_rows _ _ _ Hrs Hr), (serialize_size_of_rows _ _ _ Hrs Hr).
  change (keys (of_rows rd)) with ((concat rd).*1).
  unfold NullableColumn.size. rewrite length_fmap. cbn [fst snd].
  rewrite length_app, length_encode_u32. intros Hcap Hsize.
  assert (elements (rd ++ [r]) < 2 ^ 32).
  { rewrite elements_snoc. unfold elements. lia. }
  rewrite <- app_assoc, deserialize_of_rows by done. cbn [fst snd].
  rewrite !rows_of_rows, serialize_sum_small, serialize_size_loop_small by lia.
  rewrite u32_small by lia.
  split_and!; try done.
  - by apply well_formed_of_rows.
  - lia.
Qed.

End serialization_properties.

Section byte_size_properties.
Context {K V : Type} `{Countable K} `{!Inhabited K} `{!Inhabited V}.
Implicit Types (m : MapColumn K V).

(** The single-row overload of [byte_size] hands the children the end offset
    of the row where the range overload hands them its element count: on a
    well-formed column the two agree on row [idx] exactly when no element
    precedes the row. *)
Lemma byte_size_args_agree_iff m (idx : nat) :
  well_formed m = true →
  (idx < size m)%nat →
  byte_size_at_child_args m idx = byte_size_child_args m idx 1 ↔ at_ (offsets m) idx = 0.
Proof.
  intros (rs & -> & Hlt)%well_formed_iff Hidx. rewrite size_of_rows in Hidx.
  destruct (lookup_lt_is_Some_2 rs idx Hidx) as [r Hr].
  unfold byte_size_at_child_args, byte_size_child_args.
  rewrite (row_length_of_rows _ _ _ Hlt Hr).
  change (offsets (of_rows rs)) with (offsets_of 0 rs).
  rewrite !at_offsets_of by lia.
  replace (idx + 1)%nat with (S idx) by lia. rewrite (elements_take_S _ _ _ Hr).
  split.
  - intros [= Heq]. lia.
  - intros Heq. f_equal. lia.
Qed.

End byte_size_properties.

(** C9.  On the column [[{a:1}, {b:2}, {c:3}]] and row [1], the single-row
    overload [byte_size(1)] passes [(1, 2)] to the children, the start offset
    and the end offset of the row, where the range overload [byte_size(1, 1)]
    passes [(1, 1)], the start offset and the element count; with children of
    five bytes per element the two overloads account 20 and 10 bytes for
    them. *)
Theorem byte_size_overloads_differ :
  byte_size_at_child_args col_abc 1 = (1, 2) ∧
  byte_size_child_args col_abc 1 1 = (1, 1) ∧
  byte_size_at (fixed_byte_size 5) (fixed_byte_size 5) col_abc 1 = 20 + 4 ∧
  byte_size (fixed_byte_size 5) (fixed_byte_size 5) (λ _ _ size, 4 * Z.of_nat size)
            col_abc 1 1 = 10 + 4.
Proof. by vm_compute. Qed.

Section overflow_properties.
Context {K V ColumnPtr : Type}.
Variable limit : Z.
Variable helper_k : list (option K) → StatusOr (list (option K) * option ColumnPtr).
Variable helper_v : list (option V) → StatusOr (list (option V) * option ColumnPtr).
Implicit Types (m : MapColumn K V).

(** C6, as the code has it.  [upgrade_if_overflow] returns its own error
    exactly when the offset buffer, which has one entry more than there are
    rows, is longer than the capacity ceiling, and then leaves the column as
    it was.  Otherwise it runs the upgrade helper on the keys and then on the
    values: the first helper error is returned (before it, the keys may have
    been replaced), and when both succeed the children they name are
    installed and the pointer of the values helper is returned; this is a
    no-op success when both helpers keep their child and return null. *)
Theorem upgrade_if_overflow_spec m :
  (limit < Z.of_nat (length (offsets m)) →
   upgrade_if_overflow limit ColumnPtr helper_k helper_v m =
     (m, InternalError "Size of MapColumn exceed the limit")) ∧
  (well_formed_offsets m →
   (limit < Z.of_nat (length (offsets m)) ↔ limit ≤ Z.of_nat (size m))) ∧
  (Z.of_nat (length (offsets m)) ≤ limit →
   (ok (upgrade_if_overflow limit ColumnPtr helper_k helper_v m).2 = true ↔
    ok (helper_k (keys m)) = true ∧ ok (helper_v (values m)) = true) ∧
   (∀ msg, helper_k (keys m) = InternalError msg →
      upgrade_if_overflow limit ColumnPtr helper_k helper_v m = (m, InternalError msg)) ∧
   (∀ ks p msg, helper_k (keys m) = StatusOk (ks, p) →
      helper_v (values m) = InternalError msg →
      upgrade_if_overflow limit ColumnPtr helper_k helper_v m =
        (mk_MapColumn ks (values m) (offsets m), InternalError msg)) ∧
   (∀ ks p vs ret, helper_k (keys m) = StatusOk (ks, p) →
      helper_v (values m) = StatusOk (vs, ret) →
      upgrade_if_overflow limit ColumnPtr helper_k helper_v m =
        (mk_MapColumn ks vs (offsets m), StatusOk ret)) ∧
   (helper_k (keys m) = StatusOk (keys m, None) →
    helper_v (values m) = StatusOk (values m, None) →
    upgrade_if_overflow limit ColumnPtr helper_k helper_v m = (m, StatusOk None))).
Proof.
  unfold upgrade_if_overflow, well_formed_offsets. split_and!.
  - intros Hlt. by case_decide; [|lia].
  - intros Hne. unfold size. destruct (offsets m); simpl in *; [done|lia].
  - intros Hle. case_decide; [lia|]. split_and!.
    + destruct (helper_k (keys m)) as [[ks p]|msg]; simpl;
        [|split; [done|intros [? _]; done]].
      destruct (helper_v (values m)) as [[vs ret]|msg]; simpl; [done|].
      split; [done|intros [_ ?]; done].
    + by intros msg ->.
    + by intros ks p msg -> ->.
    + by intros ks p vs ret -> ->.
    + intros -> ->. by destruct m.
Qed.

End overflow_properties.

(** C6 as stated fails at the ceiling itself: with a ceiling of two rows, a
    column of two empty rows, whose row count does not exceed the ceiling, is
    refused, because its offset buffer has three entries. *)
Lemma upgrade_if_overflow_at_ceiling :
  ¬ (ok (upgrade_if_overflow 2 unit helper_keep helper_keep
           (mk_MapColumn ([] : list (option string)) ([] : list (option Z)) [0; 0; 0])).2 = false ↔
     2 < Z.of_nat (size (mk_MapColumn ([] : list (option string)) ([] : list (option Z)) [0; 0; 0]))).
Proof. vm_compute. intros [Himp _]. by specialize (Himp eq_refl). Qed.

(** The filter example of the specification: the mask [[1,0,1,1,0]] on
    [[{a:1}, {}, {b:2,c:3}, {}, {d:4}]] leaves [[{a:1}, {b:2,c:3}, {}]], in
    either build. *)
Example filter_range_example (avx2 : bool) :
  filter_range avx2 col_abcd [1; 0; 1; 1; 0] 0 5 =
  (mk_MapColumn [Some "a"; Some "b"; Some "c"]%string [Some 1; Some 2; Some 3] [0; 1; 3; 3],
   3%nat) ∧
  rows (filter_range avx2 col_abcd [1; 0; 1; 1; 0] 0 5).1 =
  [[(Some "a"%string, Some 1)];
   [(Some "b"%string, Some 2); (Some "c"%string, Some 3)];
   []].
Proof. destruct avx2; by vm_compute. Qed.

(** The three kinds of batch of the AVX2 build on a hundred rows: the row
    count that is left, and the same column as the portable build. *)
Example filter_range_batches :
  (filter_range true col_wide mask_wide 2 100).2 = 57%nat ∧
  filter_range true col_wide mask_wide 2 100 = filter_range false col_wide mask_wide 2 100.
Proof. by vm_compute. Qed.

(** Mask bytes from 128 on are outside the contract of the AVX2 build: its
    batches compare the bytes as signed and drop the rows that the loop over
    single rows keeps. *)
Example filter_range_signed_bytes :
  (filter_range true col_singles (replicate 34 255) 0 34).2 = 2%nat ∧
  (filter_range false col_singles (replicate 34 255) 0 34).2 = 34%nat.
Proof. by vm_compute. Qed.

(** The update examples of the specification: row [1] of
    [[{a:1}, {b:2}, {c:3}]] replaced by [{x:9}] on the fast path and by
    [{x:9,y:8}] on the rebuild path. *)
Example update_rows_example :
  need_resize col_abc col_x [1%nat] = false ∧
  rows (update_rows col_abc col_x [1%nat]) =
    [[(Some "a"%string, Some 1)]; [(Some "x"%string, Some 9)]; [(Some "c"%string, Some 3)]] ∧
  update_rows_rebuild col_abc col_x [1%nat] = update_rows_fast col_abc col_x [1%nat] ∧
  need_resize col_abc col_xy [1%nat] = true ∧
  rows (update_rows col_abc col_xy [1%nat]) =
    [[(Some "a"%string, Some 1)];
     [(Some "x"%string, Some 9); (Some "y"%string, Some 8)];
     [(Some "c"%string, Some 3)]].
Proof. by vm_compute. Qed.

(** A round trip through the wire format, the empty row included. *)
Example serialize_example :
  (serialize col_bytes 2).1 = [3; 0; 0; 0; 0; 114; 1; 1; 0; 115; 0; 114; 0; 116] ∧
  (serialize col_bytes 1).1 = [0; 0; 0; 0] ∧
  (serialize col_bytes 1).1 = serialize_default.1 ∧
  deserialize_and_append (clone_empty col_bytes) ((serialize col_bytes 1).1 ++ [42]) =
    (mk_MapColumn [] [] [0; 0], [42]).
Proof. by vm_compute. Qed.

Lemma serialize_round_trip_witness :
  well_formed col_bytes = true ∧ (2 < size col_bytes)%nat ∧
  rows (deserialize_and_append col_bytes ((serialize col_bytes 2).1 ++ [7; 7])).1 =
    rows col_bytes ++ [row col_bytes 2] ∧
  (deserialize_and_append col_bytes ((serialize col_bytes 2).1 ++ [7; 7])).2 = [7; 7] ∧
  (serialize col_bytes 2).2 = serialize_size col_bytes 2.
Proof.
  split; [vm_compute; reflexivity|]. split; [vm_compute; lia|].
  destruct (serialize_round_trip col_bytes 2 col_bytes [7; 7]) as (_ & H1 & H2 & _ & _ & H3).
  - vm_compute; reflexivity.
  - vm_compute; lia.
  - vm_compute; reflexivity.
  - vm_compute; reflexivity.
  - vm_compute; reflexivity.
  - split; [exact H1|]. split; [exact H2|exact H3].
Defined.

Lemma filter_range_correct_witness :
  well_formed col_wide = true ∧ (2 ≤ size col_wide)%nat ∧
  (size col_wide ≤ length mask_wide)%nat ∧
  Forall (λ b, 0 ≤ b < 128) mask_wide ∧
  rows (filter_range true col_wide mask_wide 2 (size col_wide)).1 =
    take 2 (rows col_wide) ++
    NullableColumn.select (drop 2 mask_wide) (drop 2 (rows col_wide)) ∧
  (filter_range true col_wide mask_wide 2 (size col_wide)).2 =
    size (filter_range true col_wide mask_wide 2 (size col_wide)).1.
Proof.
  assert (Hbytes : Forall (λ b, 0 ≤ b < 128) mask_wide).
  { apply Forall_forall. intros b Hb. apply (bool_decide_unpack _).
    revert b Hb. apply Forall_forall, Forall_fold_right. vm_compute. tauto. }
  split; [vm_compute; reflexivity|]. split; [vm_compute; lia|]. split; [vm_compute; lia|].
  split; [exact Hbytes|].
  destruct (filter_range_correct true col_wide mask_wide 2) as (H1 & H2 & _).
  - vm_compute; reflexivity.
  - vm_compute; lia.
  - vm_compute; lia.
  - intros _. exact Hbytes.
  - split; [exact H1|exact H2].
Defined.

Lemma update_rows_paths_witness :
  well_formed col_abc = true ∧ well_formed col_xy = true ∧
  strictly_increasing [1%nat] = true ∧
  rows (update_rows col_abc col_xy [1%nat]) = replace_rows (rows col_abc) [1%nat] (rows col_xy) ∧
  well_formed (update_rows col_abc col_xy [1%nat]) = true.
Proof.
  split; [vm_compute; reflexivity|]. split; [vm_compute; reflexivity|].
  split; [vm_compute; reflexivity|].
  destruct (update_rows_paths col_abc col_xy [1%nat]) as (_ & _ & H1 & H2 & _).
  - vm_compute; reflexivity.
  - vm_compute; reflexivity.
  - vm_compute; reflexivity.
  - vm_compute; reflexivity.
  - repeat constructor.
  - vm_compute; reflexivity.
  - vm_compute; reflexivity.
  - split; [exact H1|exact H2].
Defined.

Lemma append_range_equivalence_witness :
  well_formed col_abcd = true ∧ (1 + 3 ≤ size col_abcd)%nat ∧
  append col_abc col_abcd 1 3 =
    foldl (λ m i, append m col_abcd (1 + i) 1) col_abc (seq 0 3) ∧
  append col_abc col_abcd 1 3 = append_selective col_abc col_abcd (seq 1 3) 0 3.
Proof.
  split; [vm_compute; reflexivity|]. split; [vm_compute; lia|].
  apply (append_range_equivalence col_abc col_abcd 1 3).
  - vm_compute; reflexivity.
  - vm_compute; lia.
Defined.

Lemma get_materializes_witness :
  well_formed col_bytes = true ∧ (2 < size col_bytes)%nat ∧
  get col_bytes 2 = row_map (row col_bytes 2) ∧
  get col_bytes 2 !! "r"%char = Some (Some "t"%char).
Proof.
  split; [vm_compute; reflexivity|]. split; [vm_compute; lia|].
  destruct (get_materializes col_bytes 2) as (H1 & _ & _ & H2 & _).
  - vm_compute; reflexivity.
  - vm_compute; lia.
  - split; [exact H1|].
    apply (H2 "r"%char None (Some "t"%char) [] [(None, Some "s"%char)]).
    vm_compute; reflexivity.
Defined.

(** * Further properties of the column *)

Section more_properties.
Context {K V : Type} `{Countable K} `{!Inhabited K} `{!Inhabited V}.
Implicit Types (m dst src : MapColumn K V).

(** X1.  [append(src, offset, count)] adds the rows [offset .. offset + count) of
    [src] behind the rows of the receiver, which stay as they are, and the
    column stays well-formed, when the children stay below [2^32] elements. *)
Theorem append_rows dst src (offset count : nat) :
  well_formed dst = true →
  well_formed src = true →
  (offset + count ≤ size src)%nat →
  NullableColumn.size (keys dst) +
    (at_ (offsets src) (offset + count) - at_ (offsets src) offset) < 2 ^ 32 →
  rows (append dst src offset count) = rows dst ++ take count (drop offset (rows src)) ∧
  size (append dst src offset count) = (size dst + count)%nat ∧
  well_formed (append dst src offset count) = true.
Proof.
  intros (rd & -> & Hrd)%well_formed_iff (rs & -> & Hrs)%well_formed_iff Hrange Hcap.
  rewrite size_of_rows in Hrange.
  change (offsets (of_rows rs)) with (offsets_of 0 rs) in Hcap.
  rewrite elements_keys, !at_offsets_of, elements_take_add in Hcap by lia.
  assert (Hall : elements (rd ++ take count (drop offset rs)) < 2 ^ 32).
  { rewrite elements_app. lia. }
  rewrite append_of_rows by done.
  rewrite !rows_of_rows, !size_of_rows, length_app, length_take, length_drop.
  split_and!; [done|lia|by apply well_formed_of_rows].
Qed.

(** X2.  [append_selective(src, indexes, from, size)] gathers: it adds the rows
    [indexes[from]], ..., [indexes[from + size - 1]] of [src], in this order
    and with repetitions, behind the rows of the receiver. *)
Theorem append_selective_rows dst src (indexes : list nat) (from n : nat) :
  well_formed dst = true →
  well_formed src = true →
  (from + n ≤ length indexes)%nat →
  Forall (λ i, i < size src)%nat (take n (drop from indexes)) →
  elements (rows dst ++ (row src <$> take n (drop from indexes))) < 2 ^ 32 →
  rows (append_selective dst src indexes from n) =
    rows dst ++ (row src <$> take n (drop from indexes)) ∧
  well_formed (append_selective dst src indexes from n) = true.
Proof.
  intros (rd & -> & Hrd)%well_formed_iff (rs & -> & Hrs)%well_formed_iff Hlen Hall Hcap.
  rewrite size_of_rows in Hall. rewrite rows_of_rows in Hcap |- *.
  assert (Hrows : row (of_rows rs) <$> take n (drop from indexes) =
                  (λ i, default [] (rs !! i)) <$> take n (drop from indexes)).
  { apply Forall_fmap_ext. eapply Forall_impl; [exact Hall|]. intros i Hi. simpl in Hi.
    destruct (lookup_lt_is_Some_2 rs i Hi) as [r Hr]. rewrite Hr. by apply row_of_rows. }
  rewrite Hrows in Hcap |- *.
  rewrite append_selective_of_rows by done. rewrite rows_of_rows.
  split; [done|by apply well_formed_of_rows].
Qed.

(** X3.  [append_value_multiple_times(src, index, size)] adds [size] copies of
    row [index] of [src]. *)
Theorem append_value_multiple_times_rows dst src (index n : nat) :
  well_formed dst = true →
  well_formed src = true →
  (index < size src)%nat →
  NullableColumn.size (keys dst) + Z.of_nat n * get_map_size src index < 2 ^ 32 →
  rows (append_value_multiple_times dst src index n) =
    rows dst ++ replicate n (row src index) ∧
  well_formed (append_value_multiple_times dst src index n) = true.
Proof.
  intros (rd & -> & Hrd)%well_formed_iff (rs & -> & Hrs)%well_formed_iff Hidx Hcap.
  rewrite size_of_rows in Hidx. destruct (lookup_lt_is_Some_2 rs index Hidx) as [r Hr].
  rewrite (get_map_size_of_rows rs index r), elements_keys in Hcap by done.
  rewrite (row_of_rows rs index r) by done.
  assert (Hall : elements (rd ++ replicate n r) < 2 ^ 32) by by rewrite elements_replicate.
  rewrite (append_value_multiple_times_of_rows rd rs index n r) by done.
  rewrite !rows_of_rows. split; [done|by apply well_formed_of_rows].
Qed.

(** X4.  What [append_datum] stores, [get] returns: the new last row reads back
    as the map that was appended, and the rows before it read as before. *)
Theorem append_datum_get m (datum : gmap K (option V)) :
  well_formed m = true →
  NullableColumn.size (keys m) + Z.of_nat (length (map_to_list datum)) < 2 ^ 32 →
  size (append_datum m datum) = (size m + 1)%nat ∧
  get (append_datum m datum) (size m) = datum ∧
  (∀ i, (i < size m)%nat → get (append_datum m datum) i = get m i) ∧
  well_formed (append_datum m datum) = true.
Proof.
  intros (rs & -> & Hrs)%well_formed_iff Hcap.
  rewrite elements_keys, <- length_datum_row in Hcap.
  assert (Hall : elements (rs ++ [datum_row datum]) < 2 ^ 32) by by rewrite elements_snoc.
  rewrite append_datum_of_rows by done. rewrite !size_of_rows, length_app. simpl.
  split_and!; [done| | |by apply well_formed_of_rows].
  - rewrite (get_of_rows _ _ (datum_row datum)); [apply row_map_datum_row|done|].
    by rewrite lookup_app_r, Nat.sub_diag.
  - intros i Hi. destruct (lookup_lt_is_Some_2 rs i Hi) as [r Hr].
    rewrite (get_of_rows _ i r), (get_of_rows rs i r); [done..|].
    by rewrite lookup_app_l.
Qed.



(** X7.  [fill_default(filter)] empties the rows whose mask byte is [1], and only
    those (another non-zero byte leaves its row alone); the other rows, the
    row count and the invariant are kept. *)
Theorem fill_default_rows m (filter : list Z) :
  well_formed m = true →
  (length filter ≤ size m)%nat →
  Z.of_nat (size m) < 2 ^ 31 →
  rows (fill_default m filter) =
    imap (λ i r, if decide (at_ filter i = 1) then [] else r) (rows m) ∧
  size (fill_default m filter) = size m ∧
  well_formed (fill_default m filter) = true.
Proof.
  intros (rs & -> & Hrs)%well_formed_iff Hlen Hrows. rewrite size_of_rows in *.
  unfold fill_default.
  rewrite (foldl_filter (λ i, at_ filter i = 1 ∧ 0 < get_map_size (of_rows rs) i)).
  cbn [app]. set (indexes := base.filter _ _).
  rewrite clone_empty_of_rows, append_default_of_rows by done. cbn [app].
  assert (Hin : ∀ j, j ∈ indexes ↔
            (at_ filter j = 1 ∧ 0 < get_map_size (of_rows rs) j) ∧ (j < length filter)%nat).
  { intros j. unfold indexes. rewrite list_elem_of_filter, elem_of_seq. intuition lia. }
  pose proof (elements_nonneg rs) as Hnn.
  rewrite update_rows_of_rows.
  - assert (Heq : replace_rows rs indexes (replicate (length indexes) []) =
                  imap (λ i r, if decide (at_ filter i = 1) then [] else r) rs).
    { apply list_eq. intros j. rewrite replace_rows_replicate, list_lookup_imap.
      destruct (rs !! j) as [r|] eqn:Hr; [|done]. simpl. f_equal.
      case_decide as Hj.
      - apply Hin in Hj as [[-> _] _]. by rewrite decide_True.
      - case_decide as Hf; [|done].
        destruct (decide (j < length filter)%nat) as [Hjl|Hjl].
        + destruct (decide (0 < get_map_size (of_rows rs) j)) as [Hpos|Hpos].
          * destruct Hj. by apply Hin.
          * rewrite (get_map_size_of_rows rs j r) in Hpos by done.
            destruct r; [done|]. simpl in Hpos. lia.
        + unfold at_ in Hf. rewrite lookup_ge_None_2 in Hf by lia. done. }
    rewrite Heq, !rows_of_rows, size_of_rows, length_imap.
    split_and!; [done|done|].
    rewrite <- Heq. apply well_formed_of_rows.
    pose proof (elements_replace_rows_le rs indexes (replicate (length indexes) [])) as Hle.
    rewrite elements_replicate_nil in Hle. lia.
  - rewrite elements_replicate_nil. lia.
  - done.
  - by rewrite length_replicate.
  - apply strictly_increasing_filter_seq.
  - apply Forall_forall. intros j [_ Hj]%Hin. lia.
Qed.

(** X8.  After [update_rows(src, indexes)] row [indexes[i]] holds the pairs of
    row [i] of [src], every row that [indexes] does not name holds what it
    held, and the row count is the same. *)
Theorem update_rows_row m src (indexes : list nat) :
  well_formed m = true →
  well_formed src = true →
  length indexes = size src →
  strictly_increasing indexes = true →
  Forall (λ idx, idx < size m)%nat indexes →
  Z.of_nat (size m) < 2 ^ 31 →
  NullableColumn.size (keys m) + NullableColumn.size (keys src) < 2 ^ 32 →
  (∀ i idx, indexes !! i = Some idx → row (update_rows m src indexes) idx = row src i) ∧
  (∀ j, (j < size m)%nat → j ∉ indexes → row (update_rows m src indexes) j = row m j) ∧
  size (update_rows m src indexes) = size m.
Proof.
  intros (rs & -> & Hrs)%well_formed_iff (srcs & -> & Hsrcs)%well_formed_iff.
  rewrite !size_of_rows, !elements_keys. intros Hlen Hinc Hrange Hrows Hcap.
  rewrite update_rows_of_rows by done. rewrite size_of_rows, length_replace_rows_eq.
  split_and!; [| |done].
  - intros i idx Hi.
    assert (Hidx : (idx < length rs)%nat).
    { rewrite Forall_forall in Hrange. apply Hrange. by eapply list_elem_of_lookup_2. }
    destruct (lookup_lt_is_Some_2 srcs i) as [s Hs].
    { rewrite <- Hlen. by eapply lookup_lt_Some. }
    rewrite (row_of_rows srcs i s) by done.
    apply row_of_rows. by eapply replace_rows_lookup_in.
  - intros j Hj Hnotin. destruct (lookup_lt_is_Some_2 rs j Hj) as [r Hr].
    rewrite (row_of_rows rs j r) by done.
    apply row_of_rows. by rewrite replace_rows_lookup_notin.
Qed.

(** X9.  [resize(n)] keeps the first [n] rows with their elements and drops the
    elements of the rows behind them, or adds empty rows up to [n] rows
    without touching the children; resizing to the present row count changes
    nothing. *)
Theorem resize_rows m (n : nat) :
  well_formed m = true →
  rows (resize m n) = take n (rows m) ++ replicate (n - size m) [] ∧
  size (resize m n) = n ∧
  NullableColumn.size (keys (resize m n)) = elements (take n (rows m)) ∧
  NullableColumn.size (values (resize m n)) = elements (take n (rows m)) ∧
  well_formed (resize m n) = true ∧
  resize m (size m) = m.
Proof.
  intros (rs & -> & Hrs)%well_formed_iff.
  rewrite !resize_of_rows by done. rewrite !rows_of_rows, !size_of_rows.
  assert (Hel : elements (take n rs ++ replicate (n - length rs) []) = elements (take n rs)).
  { by rewrite elements_app, elements_replicate_nil, Z.add_0_r. }
  pose proof (elements_take_le rs n).
  split_and!.
  - done.
  - rewrite length_app, length_take, length_replicate. lia.
  - by rewrite elements_keys.
  - rewrite <- Hel. unfold NullableColumn.size, elements. simpl. by rewrite length_fmap.
  - apply well_formed_of_rows. lia.
  - by rewrite take_ge, Nat.sub_diag, app_nil_r.
Qed.

(** X10.  [reset_column] leaves the empty column: no rows, no elements. *)
Theorem reset_column_empty m :
  well_formed m = true →
  reset_column m = clone_empty m ∧
  size (reset_column m) = 0%nat ∧
  well_formed (reset_column m) = true.
Proof.
  intros (H0 & _)%well_formed_unfold. unfold reset_column, clone_empty, create.
  destruct (offsets m) as [|o offs] eqn:Hoffs; [done|]. simpl in H0. simplify_eq.
  by vm_compute.
Qed.

(** X11.  [get_map_size(idx)] counts the pairs that the row stores; the map that
    [get(idx)] returns never has more entries, and has as many exactly when
    no key of the row is null or repeated. *)
Theorem get_map_size_get m (idx : nat) :
  well_formed m = true →
  (idx < size m)%nat →
  get_map_size m idx = Z.of_nat (length (row m idx)) ∧
  Z.of_nat (length (map_to_list (get m idx))) ≤ get_map_size m idx ∧
  (NoDup (row m idx).*1 → None ∉ (row m idx).*1 →
   Z.of_nat (length (map_to_list (get m idx))) = get_map_size m idx).
Proof.
  intros (rs & -> & Hrs)%well_formed_iff Hidx. rewrite size_of_rows in Hidx.
  destruct (lookup_lt_is_Some_2 rs idx Hidx) as [r Hr].
  rewrite (get_map_size_of_rows rs idx r), (row_of_rows rs idx r), (get_of_rows rs idx r)
    by done.
  pose proof (row_map_size r).
  split_and!; [done|lia|].
  intros Hnd Hnone. by rewrite row_map_size_distinct.
Qed.

(** X12.  The AVX2 build and the portable build of [filter_range] return the same
    column and the same row count, for every mask of bytes below 128. *)
Theorem filter_range_builds_agree m (filter : list Z) (from : nat) :
  well_formed m = true →
  (from ≤ size m)%nat →
  (size m ≤ length filter)%nat →
  Forall (λ b, 0 ≤ b < 128) filter →
  filter_range true m filter from (size m) = filter_range false m filter from (size m).
Proof.
  intros (rs & -> & Hrs)%well_formed_iff Hfrom Hlen Hbytes. rewrite size_of_rows in *.
  by apply filter_range_avx2.
Qed.

(** X24.  The row count that [filter_range] returns is [from] plus the
    number of non-zero mask bytes of the rows from [from] on. *)
Theorem filter_range_count (avx2 : bool) m (filter : list Z) (from : nat) :
  well_formed m = true →
  (from ≤ size m)%nat →
  (size m ≤ length filter)%nat →
  (avx2 = true → Forall (λ b, 0 ≤ b < 128) filter) →
  (filter_range avx2 m filter from (size m)).2 =
    (from + length (base.filter (λ b : Z, b ≠ 0%Z)
                          (take (size m - from) (drop from filter))))%nat.
Proof.
  intros (rs & -> & Hrs)%well_formed_iff Hfrom Hlen Hbytes. rewrite size_of_rows in *.
  rewrite filter_range_build_of_rows by done. cbn [snd]. unfold filter_rows.
  rewrite length_app, length_take, length_select by (rewrite !length_drop; lia).
  rewrite length_drop. lia.
Qed.

End more_properties.

Section more_serialization_properties.
Context {K V : Type} `{Countable K} `{!Inhabited K} `{!Inhabited V}.
Context `{!Codec K} `{!Codec V}.
Implicit Types (m dst : MapColumn K V).

(** X13.  [serialize_default] writes what [serialize] writes for an empty row, the
    cardinality [0] in four bytes, and [deserialize_and_append] reads these
    bytes as one more empty row and leaves the children as they are. *)
Theorem serialize_default_row m (idx : nat) dst (rest : list Z) :
  well_formed m = true →
  (idx < size m)%nat →
  get_map_size m idx = 0 →
  serialize m idx = serialize_default ∧
  deserialize_and_append dst (serialize_default.1 ++ rest) = (append_default1 dst, rest) ∧
  serialize_default.2 = Z.of_nat (length serialize_default.1).
Proof.
  intros (rs & -> & Hrs)%well_formed_iff Hidx Hsize. rewrite size_of_rows in Hidx.
  destruct (lookup_lt_is_Some_2 rs idx Hidx) as [r Hr].
  rewrite (get_map_size_of_rows rs idx r) in Hsize by done.
  destruct r; [|simpl in Hsize; lia].
  rewrite (serialize_of_rows rs idx []) by done.
  split_and!; [done| |done].
  unfold deserialize_and_append, serialize_default, append_default1. simpl.
  change (decode_u32 (0 :: 0 :: 0 :: 0 :: rest)) with 0.
  by rewrite Z.add_0_r.
Qed.

(** X14.  [max_one_element_serialize_size] is the largest [serialize_size] of a
    row: no row needs more, some row needs as much, and a column without rows
    gives [0]. *)
Theorem max_one_element_serialize_size_max m :
  (∀ idx, (idx < size m)%nat →
     serialize_size m idx ≤ max_one_element_serialize_size m) ∧
  (size m ≠ 0%nat →
     ∃ idx, (idx < size m)%nat ∧
            max_one_element_serialize_size m = serialize_size m idx) ∧
  (size m = 0%nat → max_one_element_serialize_size m = 0).
Proof.
  unfold max_one_element_serialize_size.
  destruct (foldl_max_spec (serialize_size m) (seq 0 (size m)) 0) as (H0 & Hle & Hex).
  split_and!.
  - intros idx Hidx. apply Hle, elem_of_seq. lia.
  - intros Hne. destruct Hex as [Heq|(idx & Hidx%elem_of_seq & Heq)].
    + exists 0%nat. split; [lia|]. rewrite Heq.
      pose proof (serialize_size_nonneg m 0).
      pose proof (Hle 0%nat ltac:(apply elem_of_seq; lia)). lia.
    + exists idx. split; [lia|done].
  - intros ->. done.
Qed.


(** X16.  [serialize_batch] writes row [i] into slot [i] of the buffer, behind
    the [slice_sizes[i]] bytes that the slot holds, keeps these bytes, and
    adds the number of bytes written to [slice_sizes[i]]; the entries of
    [slice_sizes] from [chunk_size] on are left alone. *)
Theorem serialize_batch_layout m (dst slice_sizes : list Z) (chunk_size : nat)
    (max_one_row_size : Z) :
  well_formed m = true →
  (chunk_size ≤ size m)%nat →
  (chunk_size ≤ length slice_sizes)%nat →
  0 ≤ max_one_row_size < 2 ^ 32 →
  Z.of_nat chunk_size * max_one_row_size ≤ Z.of_nat (length dst) →
  Z.of_nat (length dst) < 2 ^ 64 →
  (∀ i, (i < chunk_size)%nat →
     0 ≤ at_ slice_sizes i ∧
     at_ slice_sizes i + Z.of_nat (length (serialize m i).1) ≤ max_one_row_size) →
  length (serialize_batch m dst slice_sizes chunk_size max_one_row_size).1 = length dst ∧
  (∀ i, (i < chunk_size)%nat →
     at_ (serialize_batch m dst slice_sizes chunk_size max_one_row_size).2 i =
       at_ slice_sizes i + Z.of_nat (length (serialize m i).1) ∧
     take (length (serialize m i).1)
          (drop (Z.to_nat (Z.of_nat i * max_one_row_size + at_ slice_sizes i))
                (serialize_batch m dst slice_sizes chunk_size max_one_row_size).1) =
       (serialize m i).1 ∧
     take (Z.to_nat (at_ slice_sizes i))
          (drop (Z.to_nat (Z.of_nat i * max_one_row_size))
                (serialize_batch m dst slice_sizes chunk_size max_one_row_size).1) =
       take (Z.to_nat (at_ slice_sizes i))
            (drop (Z.to_nat (Z.of_nat i * max_one_row_size)) dst)) ∧
  (∀ i, (chunk_size ≤ i)%nat →
     (serialize_batch m dst slice_sizes chunk_size max_one_row_size).2 !! i =
     slice_sizes !! i).
Proof.
  intros (rs & -> & Hrs)%well_formed_iff Hchunk Hss HM Hdst H64 Hfit.
  rewrite size_of_rows in Hchunk.
  destruct (serialize_batch_of_rows rs dst slice_sizes chunk_size max_one_row_size)
    as (H1 & H2 & H3 & H4); [done..|].
  split_and!; [done| |done].
  intros i Hi. destruct (H3 i Hi) as (Hsz & Hbytes & Hkeep).
  split_and!; [|by rewrite Hbytes, take_app_length|done].
  unfold at_ at 1. by rewrite Hsz.
Qed.

(** X17.  What [serialize_batch] writes, [deserialize_and_append_batch] reads
    back: from slices that point at the rows in the slots it appends the rows
    [0 .. chunk_size) of the source column, in order, and leaves every slice
    pointing behind its row. *)
Theorem serialize_batch_round_trip m dst (buf slice_sizes : list Z) (chunk_size : nat)
    (max_one_row_size : Z) (srcs : list Slice.t) :
  well_formed m = true →
  (chunk_size ≤ size m)%nat →
  (chunk_size ≤ length slice_sizes)%nat →
  0 ≤ max_one_row_size < 2 ^ 32 →
  Z.of_nat chunk_size * max_one_row_size ≤ Z.of_nat (length buf) →
  Z.of_nat (length buf) < 2 ^ 64 →
  (∀ i, (i < chunk_size)%nat →
     0 ≤ at_ slice_sizes i ∧
     at_ slice_sizes i + Z.of_nat (length (serialize m i).1) ≤ max_one_row_size) →
  well_formed dst = true →
  NullableColumn.size (keys dst) + at_ (offsets m) chunk_size < 2 ^ 32 →
  (∀ i, (i < chunk_size)%nat →
     Slice.data <$> srcs !! i =
     Some (drop (Z.to_nat (Z.of_nat i * max_one_row_size + at_ slice_sizes i))
                (serialize_batch m buf slice_sizes chunk_size max_one_row_size).1)) →
  rows (deserialize_and_append_batch dst srcs chunk_size).1 =
    rows dst ++ take chunk_size (rows m) ∧
  well_formed (deserialize_and_append_batch dst srcs chunk_size).1 = true ∧
  (∀ i, (i < chunk_size)%nat →
     Slice.data <$> (deserialize_and_append_batch dst srcs chunk_size).2 !! i =
     Some (drop (Z.to_nat (Z.of_nat i * max_one_row_size +
                           at_ (serialize_batch m buf slice_sizes chunk_size
                                                max_one_row_size).2 i))
                (serialize_batch m buf slice_sizes chunk_size max_one_row_size).1)) ∧
  (∀ i, Slice.size <$> (deserialize_and_append_batch dst srcs chunk_size).2 !! i =
        Slice.size <$> srcs !! i).
Proof.
  intros (rs & -> & Hrs)%well_formed_iff Hchunk Hss HM Hdst H64 Hfit.
  intros (rd & -> & Hrd)%well_formed_iff Hcap Hsrcs.
  rewrite size_of_rows in Hchunk.
  change (offsets (of_rows rs)) with (offsets_of 0 rs) in Hcap.
  rewrite elements_keys, at_offsets_of, Z.add_0_l in Hcap by lia.
  destruct (serialize_batch_of_rows rs buf slice_sizes chunk_size max_one_row_size)
    as (H1 & H2 & H3 & H4); [done..|].
  set (out := serialize_batch (of_rows rs) buf slice_sizes chunk_size max_one_row_size) in *.
  assert (Hall : elements (rd ++ take chunk_size rs) < 2 ^ 32) by (rewrite elements_app; lia).
  destruct (deserialize_batch_loop rd rs
    (λ i, drop (Z.to_nat (Z.of_nat i * max_one_row_size + at_ slice_sizes i +
                          Z.of_nat (length (serialize (of_rows rs) i).1))) out.1)
    srcs chunk_size Hchunk Hall) as (D1 & D2 & D3 & D4 & D5).
  { intros i r Hi Hr. rewrite (Hsrcs i Hi). f_equal.
    destruct (H3 i Hi) as (_ & Hbytes & _). rewrite Hbytes at 1.
    by rewrite (serialize_bytes_of_rows rs i r), <- app_assoc. }
  cbv zeta in *. rewrite D1, !rows_of_rows.
  split_and!; [done|by apply well_formed_of_rows| |done].
  intros i Hi. rewrite (D3 i Hi). destruct (H3 i Hi) as (Hsz & _ & _).
  assert (Hat : at_ out.2 i = at_ slice_sizes i +
                 Z.of_nat (length (serialize (of_rows rs) i).1))
    by (unfold at_ at 1; by rewrite Hsz).
  rewrite Hat. do 3 f_equal. lia.
Qed.

(** X18.  The bytes of a row delimit themselves: when the bytes that [serialize]
    writes for two rows, each followed by arbitrary bytes, are the same byte
    string, the rows hold the same pairs and the bytes that follow are the
    same.  In particular rows with equal serialized bytes are equal. *)
Theorem serialize_self_delimiting m1 m2 (idx1 idx2 : nat) (rest1 rest2 : list Z) :
  well_formed m1 = true →
  well_formed m2 = true →
  (idx1 < size m1)%nat →
  (idx2 < size m2)%nat →
  (serialize m1 idx1).1 ++ rest1 = (serialize m2 idx2).1 ++ rest2 →
  row m1 idx1 = row m2 idx2 ∧ rest1 = rest2.
Proof.
  intros (rs1 & -> & Hrs1)%well_formed_iff (rs2 & -> & Hrs2)%well_formed_iff Hidx1 Hidx2.
  rewrite size_of_rows in Hidx1, Hidx2.
  destruct (lookup_lt_is_Some_2 rs1 idx1 Hidx1) as [r1 Hr1].
  destruct (lookup_lt_is_Some_2 rs2 idx2 Hidx2) as [r2 Hr2].
  rewrite (row_of_rows rs1 idx1 r1), (row_of_rows rs2 idx2 r2) by done.
  rewrite (serialize_bytes_of_rows rs1 idx1 r1), (serialize_bytes_of_rows rs2 idx2 r2)
    by done.
  rewrite <- !app_assoc. intros Hbytes.
  destruct (row_offsets rs1 idx1 r1 Hrs1 Hr1) as (_ & _ & Hnn1 & Hle1 & _).
  destruct (row_offsets rs2 idx2 r2 Hrs2 Hr2) as (_ & _ & Hnn2 & Hle2 & _).
  assert (Hcap : ∀ r : list (option K * option V),
            Z.of_nat (length r) < 2 ^ 32 → elements ([] ++ [r]) < 2 ^ 32).
  { intros r Hr. unfold elements. simpl. by rewrite app_nil_r. }
  pose proof (deserialize_of_rows [] r1 rest1 (Hcap r1 ltac:(lia))) as H1.
  pose proof (deserialize_of_rows [] r2 rest2 (Hcap r2 ltac:(lia))) as H2.
  rewrite Hbytes, H2 in H1.
  assert (Hcol : rows (of_rows ([] ++ [r2])) = rows (of_rows ([] ++ [r1]))) by congruence.
  rewrite !rows_of_rows in Hcol. split; [|congruence].
  simpl in Hcol. by simplify_eq.
Qed.

(** X25.  A buffer of [chunk_size] slots of
    [max_one_element_serialize_size()] bytes and slice sizes that start at
    zero always suffice for [serialize_batch]: row [i] is written in full at
    the start of slot [i] and [slice_sizes[i]] becomes [serialize_size(i)]. *)
Theorem serialize_batch_presized m (dst : list Z) (chunk_size : nat) :
  well_formed m = true →
  (chunk_size ≤ size m)%nat →
  (∀ i, (i < chunk_size)%nat → Z.of_nat (length (serialize m i).1) < 2 ^ 32) →
  Z.of_nat chunk_size * max_one_element_serialize_size m ≤ Z.of_nat (length dst) →
  Z.of_nat (length dst) < 2 ^ 64 →
  ∀ i, (i < chunk_size)%nat →
    take (length (serialize m i).1)
         (drop (Z.to_nat (Z.of_nat i * max_one_element_serialize_size m))
               (serialize_batch m dst (replicate chunk_size 0) chunk_size
                                (max_one_element_serialize_size m)).1) =
      (serialize m i).1 ∧
    at_ (serialize_batch m dst (replicate chunk_size 0) chunk_size
                         (max_one_element_serialize_size m)).2 i =
      serialize_size m i.
Proof.
  intros (rs & -> & Hrs)%well_formed_iff Hchunk Hsmall Hdst H64.
  rewrite size_of_rows in Hchunk.
  set (M := max_one_element_serialize_size (of_rows rs)) in *.
  destruct (foldl_max_spec (serialize_size (of_rows rs)) (seq 0 (size (of_rows rs))) 0)
    as (HM0 & HMle & HMex).
  fold (max_one_element_serialize_size (of_rows rs)) in HM0, HMle, HMex. fold M in HM0, HMle, HMex.
  assert (HM : 0 ≤ M < 2 ^ 32).
  { split; [done|]. destruct HMex as [->|(x & _ & ->)]; [lia|apply serialize_size_lt]. }
  assert (Hat : ∀ i, (i < chunk_size)%nat → at_ (replicate chunk_size 0) i = 0).
  { intros i Hi. unfold at_. by rewrite lookup_replicate_2. }
  assert (Hsize : ∀ i, (i < chunk_size)%nat →
            serialize_size (of_rows rs) i = Z.of_nat (length (serialize (of_rows rs) i).1)).
  { intros i Hi. destruct (lookup_lt_is_Some_2 rs i) as [r Hr]; [lia|].
    apply (serialize_size_length rs i r Hrs Hr). by apply Hsmall. }
  destruct (serialize_batch_of_rows rs dst (replicate chunk_size 0) chunk_size M)
    as (_ & _ & H3 & _); [done|done|by rewrite length_replicate|done..| |].
  { intros i Hi. rewrite (Hat i Hi), <- (Hsize i Hi). split; [done|].
    rewrite Z.add_0_l. apply HMle, elem_of_seq. rewrite size_of_rows. lia. }
  intros i Hi. destruct (H3 i Hi) as (Hsz & Hbytes & _).
  rewrite (Hat i Hi), Z.add_0_r in Hbytes. rewrite (Hat i Hi), Z.add_0_l in Hsz.
  split.
  - by rewrite Hbytes, take_app_length.
  - unfold at_. rewrite Hsz. simpl. by rewrite Hsize.
Qed.

End more_serialization_properties.

Section hash_properties.
Context {K V : Type} `{Countable K} `{!Inhabited K} `{!Inhabited V}.
Implicit Types (m : MapColumn K V).

Variable seed_fnv seed_crc : list Z → Z → Z.
Variable keys_fnv keys_crc : list (option K) → Z → Z → Z.
Variable values_fnv values_crc : list (option V) → Z → Z → Z.
Variable key_fnv key_crc : option K → Z → Z.
Variable value_fnv value_crc : option V → Z → Z.

(** X19.  [fnv_hash_at] and [crc32_hash_at] depend on the pairs of the row only,
    not on where the row is stored: when the children hash element by
    element, the hash of a row is the hash of its cardinality (as a
    [size_t]) chained through the hashes of its keys and values in storage
    order.  The element index is passed on as an [int32_t], the children
    hold fewer than [2^31] elements. *)
Theorem hash_at_row m (hash : Z) (idx : nat) :
  well_formed m = true →
  (idx < size m)%nat →
  NullableColumn.size (keys m) < 2 ^ 31 →
  (∀ c h i x, c !! i = Some x → keys_fnv c h (Z.of_nat i) = key_fnv x h) →
  (∀ c h i x, c !! i = Some x → values_fnv c h (Z.of_nat i) = value_fnv x h) →
  (∀ c h i x, c !! i = Some x → keys_crc c h (Z.of_nat i) = key_crc x h) →
  (∀ c h i x, c !! i = Some x → values_crc c h (Z.of_nat i) = value_crc x h) →
  fnv_hash_at seed_fnv keys_fnv values_fnv m hash idx =
    row_hash seed_fnv key_fnv value_fnv hash (row m idx) ∧
  crc32_hash_at seed_crc keys_crc values_crc m hash idx =
    row_hash seed_crc key_crc value_crc hash (row m idx).
Proof.
  intros (rs & -> & Hrs)%well_formed_iff Hidx Hcap Hkf Hvf Hkc Hvc.
  rewrite size_of_rows in Hidx. rewrite elements_keys in Hcap.
  destruct (lookup_lt_is_Some_2 rs idx Hidx) as [r Hr].
  rewrite (row_of_rows rs idx r) by done.
  destruct (row_offsets rs idx r Hrs Hr) as (Ho1 & Ho2 & Hnn & Hle & Hel).
  assert (Hloop : ∀ (kh : list (option K) → Z → Z → Z) (vh : list (option V) → Z → Z → Z)
                    (ke : option K → Z → Z) (ve : option V → Z → Z) h0,
    (∀ c h i x, c !! i = Some x → kh c h (Z.of_nat i) = ke x h) →
    (∀ c h i x, c !! i = Some x → vh c h (Z.of_nat i) = ve x h) →
    foldl (λ hash i,
             let ele_offset := u32 (u64 (at_ (offsets (of_rows rs)) idx) + Z.of_nat i) in
             let hash := kh (keys (of_rows rs)) hash (i32 ele_offset) in
             vh (values (of_rows rs)) hash (i32 ele_offset))
          h0 (seq 0 (Z.to_nat (u64 (at_ (offsets (of_rows rs)) (idx + 1) -
                                       u64 (at_ (offsets (of_rows rs)) idx))))) =
    foldl (λ hash p, ve p.2 (ke p.1 hash)) h0 r).
  { intros kh vh ke ve h0 Hk Hv. rewrite Ho1, Ho2.
    rewrite (u64_small (elements (take idx rs))) by lia.
    replace (elements (take idx rs) + Z.of_nat (length r) - elements (take idx rs))
      with (Z.of_nat (length r)) by lia.
    pose proof (Nat2Z.is_nonneg (length r)).
    rewrite u64_small, Nat2Z.id by lia.
    rewrite (foldl_seq_lookup _ (λ hash (p : option K * option V), ve p.2 (ke p.1 hash))
               r 0 (length r)); [by rewrite drop_0, firstn_all|lia|].
    intros h i p Hi. cbv zeta.
    apply lookup_lt_Some in Hi as Hlt. destruct (Hel i p Hi) as [Hkey Hval].
    rewrite u32_small, i32_small by lia.
    rewrite <- (Z2Nat.id (elements (take idx rs) + Z.of_nat i)) by lia.
    by rewrite (Hk _ _ _ _ Hkey), (Hv _ _ _ _ Hval). }
  unfold fnv_hash_at, crc32_hash_at, row_hash. cbv zeta.
  rewrite (Hloop keys_fnv values_fnv key_fnv value_fnv) by done.
  rewrite (Hloop keys_crc values_crc key_crc value_crc) by done.
  rewrite Ho1, Ho2. rewrite (u64_small (elements (take idx rs))) by lia.
  replace (elements (take idx rs) + Z.of_nat (length r) - elements (take idx rs))
    with (Z.of_nat (length r)) by lia.
  pose proof (Nat2Z.is_nonneg (length r)).
  by rewrite u64_small by lia.
Qed.

(** X20.  [fnv_hash(hash, from, to)] and [crc32_hash(hash, from, to)] rewrite the
    entries [from .. to) of the array, entry [i] to the hash of row [i]
    chained to the former entry [i], and no other entry. *)
Theorem hash_range m (hash : list Z) (from to i : nat) :
  (from ≤ to)%nat →
  (to ≤ length hash)%nat →
  Z.of_nat to ≤ 2 ^ 31 →
  fnv_hash seed_fnv keys_fnv values_fnv m hash from to !! i =
    (if decide (from ≤ i < to)%nat
     then Some (fnv_hash_at seed_fnv keys_fnv values_fnv m (at_ hash i) i)
     else hash !! i) ∧
  crc32_hash seed_crc keys_crc values_crc m hash from to !! i =
    (if decide (from ≤ i < to)%nat
     then Some (crc32_hash_at seed_crc keys_crc values_crc m (at_ hash i) i)
     else hash !! i).
Proof.
  intros Hft Hto H31. unfold fnv_hash, crc32_hash.
  rewrite (update_range (λ h i, fnv_hash_at seed_fnv keys_fnv values_fnv m h
                                  (Z.to_nat (i32 (Z.of_nat i)))) hash from (to - from) i)
    by lia.
  rewrite (update_range (λ h i, crc32_hash_at seed_crc keys_crc values_crc m h
                                  (Z.to_nat (i32 (Z.of_nat i)))) hash from (to - from) i)
    by lia.
  replace (from + (to - from))%nat with to by lia.
  case_decide; [|done]. by rewrite i32_small, Nat2Z.id by lia.
Qed.

End hash_properties.

Section checksum_properties.
Context {K V : Type} `{Countable K} `{!Inhabited K} `{!Inhabited V}.
Implicit Types (m : MapColumn K V).

Variable keys_xor : list (option K) → Z → Z → Z.
Variable values_xor : list (option V) → Z → Z → Z.

(** X21.  [xor_checksum(from, to)] is the XOR of the cardinalities of the rows
    [from .. to) and of the children's checksums over exactly the elements of
    these rows; and it is additive: when the children's checksums of adjacent
    element ranges combine by XOR, so do the checksums of adjacent row
    ranges. *)
Theorem xor_checksum_rows m (from mid to : nat) :
  well_formed m = true →
  (from ≤ mid)%nat → (mid ≤ to)%nat → (to ≤ size m)%nat →
  (∀ c a b d, 0 ≤ a ≤ b → b ≤ d →
     keys_xor c a d = Z.lxor (keys_xor c a b) (keys_xor c b d)) →
  (∀ c a b d, 0 ≤ a ≤ b → b ≤ d →
     values_xor c a d = Z.lxor (values_xor c a b) (values_xor c b d)) →
  xor_checksum keys_xor values_xor m from to =
    Z.lxor (Z.lxor (xor_lengths (take (to - from) (drop from (rows m))))
                   (keys_xor (keys m) (elements (take from (rows m)))
                                      (elements (take to (rows m)))))
           (values_xor (values m) (elements (take from (rows m)))
                                  (elements (take to (rows m)))) ∧
  xor_checksum keys_xor values_xor m from to =
    Z.lxor (xor_checksum keys_xor values_xor m from mid)
           (xor_checksum keys_xor values_xor m mid to).
Proof.
  intros (rs & -> & Hrs)%well_formed_iff Hfm Hmt Hto Hk Hv.
  rewrite size_of_rows in Hto. rewrite rows_of_rows.
  assert (Hlen : ∀ a n, (a + n ≤ length rs)%nat →
    foldl (λ x idx, Z.lxor x (u32 (at_ (offsets (of_rows rs)) (idx + 1) -
                                   at_ (offsets (of_rows rs)) idx))) 0 (seq a n) =
    xor_lengths (take n (drop a rs))).
  { intros a n Han. unfold xor_lengths.
    rewrite (foldl_seq_lookup _ (λ x (r : list (option K * option V)),
                                   Z.lxor x (Z.of_nat (length r))) rs a n); [done|lia|].
    intros x i r Hr. by rewrite (row_length_of_rows rs i r). }
  assert (Hxor : ∀ a b, (a ≤ b)%nat → (b ≤ length rs)%nat →
    xor_checksum keys_xor values_xor (of_rows rs) a b =
    Z.lxor (Z.lxor (xor_lengths (take (b - a) (drop a rs)))
                   (keys_xor (keys (of_rows rs)) (elements (take a rs)) (elements (take b rs))))
           (values_xor (values (of_rows rs)) (elements (take a rs)) (elements (take b rs)))).
  { intros a b Hab Hb. unfold xor_checksum. cbv zeta. rewrite Hlen by lia.
    change (offsets (of_rows rs)) with (offsets_of 0 rs).
    by rewrite !at_offsets_of, !Z.add_0_l by lia. }
  split; [apply Hxor; lia|].
  rewrite !Hxor by lia.
  pose proof (elements_nonneg (take from rs)).
  pose proof (elements_take_mono rs from mid Hfm).
  pose proof (elements_take_mono rs mid to Hmt).
  rewrite (Hk _ (elements (take from rs)) (elements (take mid rs)) (elements (take to rs)))
    by lia.
  rewrite (Hv _ (elements (take from rs)) (elements (take mid rs)) (elements (take to rs)))
    by lia.
  assert (Hsplit : xor_lengths (take (to - from) (drop from rs)) =
                   Z.lxor (xor_lengths (take (mid - from) (drop from rs)))
                          (xor_lengths (take (to - mid) (drop mid rs)))).
  { rewrite <- !Hlen by lia.
    replace (to - from)%nat with ((mid - from) + (to - mid))%nat by lia.
    rewrite seq_app, lxor_foldl. by replace (from + (mid - from))%nat with mid by lia. }
  rewrite Hsplit. apply Z.bits_inj'. intros n _. rewrite !Z.lxor_spec.
  repeat match goal with |- context [Z.testbit ?x n] => generalize (Z.testbit x n); intros ? end.
  repeat match goal with b : bool |- _ => destruct b end; reflexivity.
Qed.

End checksum_properties.

Section memory_usage_properties.
Context {K V : Type} `{Countable K} `{!Inhabited K} `{!Inhabited V}.
Implicit Types (m : MapColumn K V).

(** X22.  [element_memory_usage(from, size)] passes to the children, as their
    [(from, size)], the offset at which row [from] starts and the offset at
    which the row range ends: the number of elements of the rows
    [0 .. from + size), not of the rows [from .. from + size), which is what
    [byte_size(from, size)] passes.  The two agree exactly when no element
    lies before row [from]. *)
Theorem element_memory_usage_args m (from n : nat) :
  well_formed m = true →
  (from + n ≤ size m)%nat →
  element_memory_usage_child_args m from n =
    (elements (take from (rows m)), elements (take (from + n) (rows m))) ∧
  byte_size_child_args m from n =
    (elements (take from (rows m)), elements (take n (drop from (rows m)))) ∧
  (element_memory_usage_child_args m from n = byte_size_child_args m from n ↔
   elements (take from (rows m)) = 0).
Proof.
  intros (rs & -> & Hrs)%well_formed_iff Hrange. rewrite size_of_rows in Hrange.
  rewrite rows_of_rows.
  unfold element_memory_usage_child_args, byte_size_child_args.
  change (offsets (of_rows rs)) with (offsets_of 0 rs).
  rewrite !at_offsets_of, !Z.add_0_l by lia.
  pose proof (elements_nonneg (take from rs)).
  pose proof (elements_nonneg (take n (drop from rs))).
  pose proof (elements_take_le rs (from + n)).
  rewrite (elements_take_add rs from n) in *.
  replace (elements (take from rs) + elements (take n (drop from rs)) -
           elements (take from rs)) with (elements (take n (drop from rs))) by lia.
  rewrite u32_small by lia.
  split_and!; [done|done|].
  split; [intros [=]; lia|intros ->; f_equal; lia].
Qed.

End memory_usage_properties.

Section text_properties.
Context {K V : Type} `{Countable K} `{!Inhabited K} `{!Inhabited V}.
Implicit Types (m : MapColumn K V).

Variable keys_text : list (option K) → Z → string.
Variable values_text : list (option V) → Z → string.
Variable key_text : option K → string.
Variable value_text : option V → string.

(** X23.  [debug_item(idx)] prints the pairs of the row as [key:value], in
    storage order, separated by [", "] and enclosed in braces, [{}] for an
    empty row; [debug_string] prints the rows in order, separated by [", "],
    and nothing for a column without rows. *)
Theorem debug_string_rows m :
  well_formed m = true →
  (∀ c i x, c !! i = Some x → keys_text c (Z.of_nat i) = key_text x) →
  (∀ c i x, c !! i = Some x → values_text c (Z.of_nat i) = value_text x) →
  (∀ idx, (idx < size m)%nat →
     debug_item keys_text values_text m idx = row_text key_text value_text (row m idx)) ∧
  debug_string keys_text values_text m =
    String.concat ", " (row_text key_text value_text <$> rows m).
Proof.
  intros (rs & -> & Hrs)%well_formed_iff Hk Hv.
  assert (Hitem : ∀ idx r, rs !! idx = Some r →
    debug_item keys_text values_text (of_rows rs) idx = row_text key_text value_text r).
  { intros idx r Hr.
    destruct (row_offsets rs idx r Hrs Hr) as (Ho1 & Ho2 & Hnn & Hle & Hel).
    unfold debug_item, row_text. cbv zeta. rewrite Ho1, Ho2.
    rewrite (u64_small (elements (take idx rs))) by lia.
    replace (elements (take idx rs) + Z.of_nat (length r) - elements (take idx rs))
      with (Z.of_nat (length r)) by lia.
    pose proof (Nat2Z.is_nonneg (length r)).
    rewrite u64_small, Nat2Z.id by lia.
    rewrite (foldl_seq_zip
      (λ ss (ix : nat * (option K * option V)),
         (if decide (0 < ix.1)%nat then ss +:+ ", " else ss) +:+
         (key_text ix.2.1 +:+ ":" +:+ value_text ix.2.2)) r).
    - rewrite (join_loop (λ p : option K * option V,
                           key_text p.1 +:+ ":" +:+ value_text p.2)).
      by rewrite append_assoc.
    - intros ss i p Hi. apply lookup_lt_Some in Hi as Hlt.
      destruct (Hel i p Hi) as [Hkey Hval]. cbn [fst snd].
      rewrite u32_small by lia.
      rewrite <- (Z2Nat.id (elements (take idx rs) + Z.of_nat i)) by lia.
      change (keys (of_rows rs)) with ((concat rs).*1).
      change (values (of_rows rs)) with ((concat rs).*2).
      rewrite (Hk _ _ _ Hkey), (Hv _ _ _ Hval). by rewrite !append_assoc. }
  split.
  - intros idx Hidx. rewrite size_of_rows in Hidx.
    destruct (lookup_lt_is_Some_2 rs idx Hidx) as [r Hr].
    rewrite (row_of_rows rs idx r) by done. by apply Hitem.
  - unfold debug_string. rewrite size_of_rows, rows_of_rows.
    rewrite (foldl_seq_zip
      (λ ss (ix : nat * list (option K * option V)),
         (if decide (0 < ix.1)%nat then ss +:+ ", " else ss) +:+
         row_text key_text value_text ix.2) rs).
    + by rewrite (join_loop (row_text key_text value_text)).
    + intros ss i r Hi. cbn [fst snd]. by rewrite (Hitem i r).
Qed.

End text_properties.

(** * The further properties on example columns *)

(** Evaluates a closed side condition. *)
Ltac evaluate :=
  first [ vm_compute; reflexivity
        | vm_compute; lia
        | apply (bool_decide_unpack _); vm_compute; exact I ].

Lemma append_rows_witness :
  well_formed col_abc = true ∧ well_formed col_abcd = true ∧
  (2 + 3 ≤ size col_abcd)%nat ∧
  NullableColumn.size (keys col_abc) +
    (at_ (offsets col_abcd) (2 + 3) - at_ (offsets col_abcd) 2) < 2 ^ 32 ∧
  rows (append col_abc col_abcd 2 3) = rows col_abc ++ take 3 (drop 2 (rows col_abcd)).
Proof.
  assert (H1 : well_formed col_abc = true) by evaluate.
  assert (H2 : well_formed col_abcd = true) by evaluate.
  assert (H3 : (2 + 3 ≤ size col_abcd)%nat) by evaluate.
  assert (H4 : NullableColumn.size (keys col_abc) +
    (at_ (offsets col_abcd) (2 + 3) - at_ (offsets col_abcd) 2) < 2 ^ 32) by evaluate.
  split_and!; [done..|]. exact (proj1 (append_rows col_abc col_abcd 2 3 H1 H2 H3 H4)).
Defined.

Lemma append_selective_rows_witness :
  well_formed col_abc = true ∧ well_formed col_abcd = true ∧
  (1 + 3 ≤ length [0; 4; 2; 4]%nat)%nat ∧
  Forall (λ i, i < size col_abcd)%nat (take 3 (drop 1 [0; 4; 2; 4]%nat)) ∧
  elements (rows col_abc ++ (row col_abcd <$> take 3 (drop 1 [0; 4; 2; 4]%nat))) < 2 ^ 32 ∧
  rows (append_selective col_abc col_abcd [0; 4; 2; 4]%nat 1 3) =
    rows col_abc ++ [row col_abcd 4; row col_abcd 2; row col_abcd 4].
Proof.
  assert (H1 : well_formed col_abc = true) by evaluate.
  assert (H2 : well_formed col_abcd = true) by evaluate.
  assert (H3 : (1 + 3 ≤ length [0; 4; 2; 4]%nat)%nat) by evaluate.
  assert (H4 : Forall (λ i, i < size col_abcd)%nat (take 3 (drop 1 [0; 4; 2; 4]%nat)))
    by evaluate.
  assert (H5 : elements (rows col_abc ++
                 (row col_abcd <$> take 3 (drop 1 [0; 4; 2; 4]%nat))) < 2 ^ 32) by evaluate.
  split_and!; [done..|].
  exact (proj1 (append_selective_rows col_abc col_abcd [0; 4; 2; 4]%nat 1 3 H1 H2 H3 H4 H5)).
Defined.

Lemma append_value_multiple_times_rows_witness :
  well_formed col_x = true ∧ well_formed col_abcd = true ∧ (2 < size col_abcd)%nat ∧
  NullableColumn.size (keys col_x) + Z.of_nat 3 * get_map_size col_abcd 2 < 2 ^ 32 ∧
  rows (append_value_multiple_times col_x col_abcd 2 3) =
    rows col_x ++ replicate 3 (row col_abcd 2).
Proof.
  assert (H1 : well_formed col_x = true) by evaluate.
  assert (H2 : well_formed col_abcd = true) by evaluate.
  assert (H3 : (2 < size col_abcd)%nat) by evaluate.
  assert (H4 : NullableColumn.size (keys col_x) +
                 Z.of_nat 3 * get_map_size col_abcd 2 < 2 ^ 32) by evaluate.
  split_and!; [done..|].
  exact (proj1 (append_value_multiple_times_rows col_x col_abcd 2 3 H1 H2 H3 H4)).
Defined.

Lemma append_datum_get_witness :
  well_formed col_abc = true ∧
  NullableColumn.size (keys col_abc) +
    Z.of_nat (length (map_to_list ({["k" := Some 7; "l" := None]} : gmap string (option Z))))
    < 2 ^ 32 ∧
  get (append_datum col_abc {["k" := Some 7; "l" := None]}) (size col_abc) =
    {["k" := Some 7; "l" := None]}.
Proof.
  assert (H1 : well_formed col_abc = true) by evaluate.
  assert (H2 : NullableColumn.size (keys col_abc) +
    Z.of_nat (length (map_to_list ({["k" := Some 7; "l" := None]} : gmap string (option Z))))
    < 2 ^ 32) by evaluate.
  split_and!; [done..|].
  exact (proj1 (proj2 (append_datum_get col_abc {["k" := Some 7; "l" := None]} H1 H2))).
Defined.



Lemma fill_default_rows_witness :
  well_formed col_abcd = true ∧ (length [1; 1; 2; 0] ≤ size col_abcd)%nat ∧
  Z.of_nat (size col_abcd) < 2 ^ 31 ∧
  rows (fill_default col_abcd [1; 1; 2; 0]) =
    imap (λ i r, if decide (at_ [1; 1; 2; 0] i = 1) then [] else r) (rows col_abcd).
Proof.
  assert (H1 : well_formed col_abcd = true) by evaluate.
  assert (H2 : (length [1; 1; 2; 0] ≤ size col_abcd)%nat) by evaluate.
  assert (H3 : Z.of_nat (size col_abcd) < 2 ^ 31) by evaluate.
  split_and!; [done..|].
  exact (proj1 (fill_default_rows col_abcd [1; 1; 2; 0] H1 H2 H3)).
Defined.

Lemma update_rows_row_witness :
  well_formed col_abc = true ∧ well_formed col_xy = true ∧
  length [1%nat] = size col_xy ∧ strictly_increasing [1%nat] = true ∧
  Forall (λ idx, idx < size col_abc)%nat [1%nat] ∧
  Z.of_nat (size col_abc) < 2 ^ 31 ∧
  NullableColumn.size (keys col_abc) + NullableColumn.size (keys col_xy) < 2 ^ 32 ∧
  row (update_rows col_abc col_xy [1%nat]) 1 = row col_xy 0 ∧
  row (update_rows col_abc col_xy [1%nat]) 2 = row col_abc 2.
Proof.
  assert (H1 : well_formed col_abc = true) by evaluate.
  assert (H2 : well_formed col_xy = true) by evaluate.
  assert (H3 : length [1%nat] = size col_xy) by evaluate.
  assert (H4 : strictly_increasing [1%nat] = true) by evaluate.
  assert (H5 : Forall (λ idx, idx < size col_abc)%nat [1%nat]) by evaluate.
  assert (H6 : Z.of_nat (size col_abc) < 2 ^ 31) by evaluate.
  assert (H7 : NullableColumn.size (keys col_abc) + NullableColumn.size (keys col_xy) < 2 ^ 32)
    by evaluate.
  destruct (update_rows_row col_abc col_xy [1%nat] H1 H2 H3 H4 H5 H6 H7) as (Hin & Hout & _).
  split_and!; [done..| |].
  - by apply (Hin 0%nat).
  - apply Hout; [evaluate|]. by intros [[=]|[]%elem_of_nil]%elem_of_cons.
Defined.

Lemma resize_rows_witness :
  well_formed col_abcd = true ∧
  rows (resize col_abcd 3) = take 3 (rows col_abcd) ++ replicate (3 - size col_abcd) [] ∧
  NullableColumn.size (keys (resize col_abcd 3)) = elements (take 3 (rows col_abcd)).
Proof.
  assert (H1 : well_formed col_abcd = true) by evaluate.
  destruct (resize_rows col_abcd 3 H1) as (Hrows & _ & Hkeys & _).
  by split_and!.
Defined.

Lemma reset_column_empty_witness :
  well_formed col_abcd = true ∧ reset_column col_abcd = clone_empty col_abcd.
Proof.
  assert (H1 : well_formed col_abcd = true) by evaluate.
  split; [done|]. exact (proj1 (reset_column_empty col_abcd H1)).
Defined.

Lemma get_map_size_get_witness :
  well_formed col_dup = true ∧ (0 < size col_dup)%nat ∧
  get_map_size col_dup 0 = Z.of_nat (length (row col_dup 0)) ∧
  Z.of_nat (length (map_to_list (get col_dup 0))) ≤ get_map_size col_dup 0.
Proof.
  assert (H1 : well_formed col_dup = true) by evaluate.
  assert (H2 : (0 < size col_dup)%nat) by evaluate.
  destruct (get_map_size_get col_dup 0 H1 H2) as (Hsize & Hle & _).
  by split_and!.
Defined.

Lemma filter_range_builds_agree_witness :
  well_formed col_wide = true ∧ (2 ≤ size col_wide)%nat ∧
  (size col_wide ≤ length mask_wide)%nat ∧
  Forall (λ b, 0 ≤ b < 128) mask_wide ∧
  filter_range true col_wide mask_wide 2 (size col_wide) =
  filter_range false col_wide mask_wide 2 (size col_wide).
Proof.
  assert (H1 : well_formed col_wide = true) by evaluate.
  assert (H2 : (2 ≤ size col_wide)%nat) by evaluate.
  assert (H3 : (size col_wide ≤ length mask_wide)%nat) by evaluate.
  assert (H4 : Forall (λ b, 0 ≤ b < 128) mask_wide) by evaluate.
  split_and!; [done..|].
  exact (filter_range_builds_agree col_wide mask_wide 2 H1 H2 H3 H4).
Defined.

Lemma serialize_default_row_witness :
  well_formed col_bytes = true ∧ (1 < size col_bytes)%nat ∧ get_map_size col_bytes 1 = 0 ∧
  serialize col_bytes 1 = serialize_default ∧
  deserialize_and_append col_pq (serialize_default.1 ++ [7]) = (append_default1 col_pq, [7]).
Proof.
  assert (H1 : well_formed col_bytes = true) by evaluate.
  assert (H2 : (1 < size col_bytes)%nat) by evaluate.
  assert (H3 : get_map_size col_bytes 1 = 0) by evaluate.
  destruct (serialize_default_row col_bytes 1 col_pq [7] H1 H2 H3) as (Hser & Hde & _).
  by split_and!.
Defined.


Lemma serialize_batch_layout_witness :
  well_formed col_bytes = true ∧ (2 ≤ size col_bytes)%nat ∧
  (2 ≤ length [1; 0; 9])%nat ∧ 0 ≤ 16 < 2 ^ 32 ∧
  Z.of_nat 2 * 16 ≤ Z.of_nat (length (replicate 40 255)) ∧
  Z.of_nat (length (replicate 40 255)) < 2 ^ 64 ∧
  (∀ i, (i < 2)%nat →
     0 ≤ at_ [1; 0; 9] i ∧
     at_ [1; 0; 9] i + Z.of_nat (length (serialize col_bytes i).1) ≤ 16) ∧
  take (length (serialize col_bytes 0).1)
       (drop (Z.to_nat (Z.of_nat 0 * 16 + at_ [1; 0; 9] 0))
             (serialize_batch col_bytes (replicate 40 255) [1; 0; 9] 2 16).1) =
    (serialize col_bytes 0).1 ∧
  (serialize_batch col_bytes (replicate 40 255) [1; 0; 9] 2 16).2 !! 2%nat = [1; 0; 9] !! 2%nat.
Proof.
  assert (H1 : well_formed col_bytes = true) by evaluate.
  assert (H2 : (2 ≤ size col_bytes)%nat) by evaluate.
  assert (H3 : (2 ≤ length [1; 0; 9])%nat) by evaluate.
  assert (H4 : 0 ≤ 16 < 2 ^ 32) by lia.
  assert (H5 : Z.of_nat 2 * 16 ≤ Z.of_nat (length (replicate 40 255))) by evaluate.
  assert (H6 : Z.of_nat (length (replicate 40 255)) < 2 ^ 64) by evaluate.
  assert (H7 : ∀ i, (i < 2)%nat →
     0 ≤ at_ [1; 0; 9] i ∧
     at_ [1; 0; 9] i + Z.of_nat (length (serialize col_bytes i).1) ≤ 16).
  { intros [|[|i]] Hi; [vm_compute; split; discriminate..|lia]. }
  destruct (serialize_batch_layout col_bytes (replicate 40 255) [1; 0; 9] 2 16
              H1 H2 H3 H4 H5 H6 H7) as (_ & Hin & Hout).
  split_and!; [done..| |].
  - exact (proj1 (proj2 (Hin 0%nat ltac:(lia)))).
  - apply Hout. lia.
Defined.

Lemma serialize_batch_round_trip_witness :
  well_formed col_bytes = true ∧ (2 ≤ size col_bytes)%nat ∧
  (2 ≤ length [1; 0; 9])%nat ∧ 0 ≤ 16 < 2 ^ 32 ∧
  Z.of_nat 2 * 16 ≤ Z.of_nat (length (replicate 40 255)) ∧
  Z.of_nat (length (replicate 40 255)) < 2 ^ 64 ∧
  (∀ i, (i < 2)%nat →
     0 ≤ at_ [1; 0; 9] i ∧
     at_ [1; 0; 9] i + Z.of_nat (length (serialize col_bytes i).1) ≤ 16) ∧
  well_formed col_rs = true ∧
  NullableColumn.size (keys col_rs) + at_ (offsets col_bytes) 2 < 2 ^ 32 ∧
  (∀ i, (i < 2)%nat →
     Slice.data <$>
       [Slice.mk (drop 1 (serialize_batch col_bytes (replicate 40 255) [1; 0; 9] 2 16).1) 15;
        Slice.mk (drop 16 (serialize_batch col_bytes (replicate 40 255) [1; 0; 9] 2 16).1) 16]
         !! i =
     Some (drop (Z.to_nat (Z.of_nat i * 16 + at_ [1; 0; 9] i))
                (serialize_batch col_bytes (replicate 40 255) [1; 0; 9] 2 16).1)) ∧
  rows (deserialize_and_append_batch col_rs
          [Slice.mk (drop 1 (serialize_batch col_bytes (replicate 40 255) [1; 0; 9] 2 16).1) 15;
           Slice.mk (drop 16 (serialize_batch col_bytes (replicate 40 255) [1; 0; 9] 2 16).1) 16]
          2).1 =
    rows col_rs ++ take 2 (rows col_bytes).
Proof.
  assert (H1 : well_formed col_bytes = true) by evaluate.
  assert (H2 : (2 ≤ size col_bytes)%nat) by evaluate.
  assert (H3 : (2 ≤ length [1; 0; 9])%nat) by evaluate.
  assert (H4 : 0 ≤ 16 < 2 ^ 32) by lia.
  assert (H5 : Z.of_nat 2 * 16 ≤ Z.of_nat (length (replicate 40 255))) by evaluate.
  assert (H6 : Z.of_nat (length (replicate 40 255)) < 2 ^ 64) by evaluate.
  assert (H7 : ∀ i, (i < 2)%nat →
     0 ≤ at_ [1; 0; 9] i ∧
     at_ [1; 0; 9] i + Z.of_nat (length (serialize col_bytes i).1) ≤ 16).
  { intros [|[|i]] Hi; [vm_compute; split; discriminate..|lia]. }
  assert (H8 : well_formed col_rs = true) by evaluate.
  assert (H9 : NullableColumn.size (keys col_rs) + at_ (offsets col_bytes) 2 < 2 ^ 32)
    by evaluate.
  assert (H10 : ∀ i, (i < 2)%nat →
     Slice.data <$>
       [Slice.mk (drop 1 (serialize_batch col_bytes (replicate 40 255) [1; 0; 9] 2 16).1) 15;
        Slice.mk (drop 16 (serialize_batch col_bytes (replicate 40 255) [1; 0; 9] 2 16).1) 16]
         !! i =
     Some (drop (Z.to_nat (Z.of_nat i * 16 + at_ [1; 0; 9] i))
                (serialize_batch col_bytes (replicate 40 255) [1; 0; 9] 2 16).1)).
  { intros [|[|i]] Hi; [vm_compute; reflexivity..|lia]. }
  split_and!; [done..|].
  exact (proj1 (serialize_batch_round_trip col_bytes col_rs (replicate 40 255) [1; 0; 9] 2 16
                  _ H1 H2 H3 H4 H5 H6 H7 H8 H9 H10)).
Defined.

Lemma serialize_self_delimiting_witness :
  well_formed col_pq = true ∧ well_formed col_bytes = true ∧
  (0 < size col_pq)%nat ∧ (0 < size col_bytes)%nat ∧
  (serialize col_pq 0).1 ++ [9] = (serialize col_bytes 0).1 ++ [9] ∧
  row col_pq 0 = row col_bytes 0.
Proof.
  assert (H1 : well_formed col_pq = true) by evaluate.
  assert (H2 : well_formed col_bytes = true) by evaluate.
  assert (H3 : (0 < size col_pq)%nat) by evaluate.
  assert (H4 : (0 < size col_bytes)%nat) by evaluate.
  assert (H5 : (serialize col_pq 0).1 ++ [9] = (serialize col_bytes 0).1 ++ [9]) by evaluate.
  split_and!; [done..|].
  exact (proj1 (serialize_self_delimiting col_pq col_bytes 0 0 [9] [9] H1 H2 H3 H4 H5)).
Defined.

Lemma hash_at_row_witness :
  well_formed col_dup = true ∧ (0 < size col_dup)%nat ∧
  NullableColumn.size (keys col_dup) < 2 ^ 31 ∧
  (∀ (c : list (option Z)) h i x,
     c !! i = Some x → child_mix c h (Z.of_nat i) = elem_mix x h) ∧
  fnv_hash_at seed_sum child_mix child_mix col_dup 5 0 =
    row_hash seed_sum elem_mix elem_mix 5 (row col_dup 0).
Proof.
  assert (H1 : well_formed col_dup = true) by evaluate.
  assert (H2 : (0 < size col_dup)%nat) by evaluate.
  assert (H3 : NullableColumn.size (keys col_dup) < 2 ^ 31) by evaluate.
  assert (H4 : ∀ (c : list (option Z)) h i x,
     c !! i = Some x → child_mix c h (Z.of_nat i) = elem_mix x h).
  { intros c h i x Hx. unfold child_mix. by rewrite Nat2Z.id, Hx. }
  split_and!; [done..|].
  exact (proj1 (hash_at_row seed_sum seed_sum child_mix child_mix child_mix child_mix
                  elem_mix elem_mix elem_mix elem_mix col_dup 5 0 H1 H2 H3 H4 H4 H4 H4)).
Defined.

Lemma hash_range_witness :
  (0 ≤ 2)%nat ∧ (2 ≤ length [5; 6; 7])%nat ∧ Z.of_nat 2 ≤ 2 ^ 31 ∧
  fnv_hash seed_sum child_mix child_mix col_dup [5; 6; 7] 0 2 !! 1%nat =
    Some (fnv_hash_at seed_sum child_mix child_mix col_dup 6 1).
Proof.
  assert (H1 : (0 ≤ 2)%nat) by lia.
  assert (H2 : (2 ≤ length [5; 6; 7])%nat) by evaluate.
  assert (H3 : Z.of_nat 2 ≤ 2 ^ 31) by evaluate.
  split_and!; [done..|].
  exact (proj1 (hash_range seed_sum seed_sum child_mix child_mix child_mix child_mix
                  col_dup [5; 6; 7] 0 2 1 H1 H2 H3)).
Defined.

Lemma xor_checksum_rows_witness :
  well_formed col_wide = true ∧ (1 ≤ 40)%nat ∧ (40 ≤ 90)%nat ∧ (90 ≤ size col_wide)%nat ∧
  (∀ (c : list (option Z)) a b d, 0 ≤ a ≤ b → b ≤ d →
     child_xor id c a d = Z.lxor (child_xor id c a b) (child_xor id c b d)) ∧
  xor_checksum (child_xor id) (child_xor id) col_wide 1 90 =
    Z.lxor (xor_checksum (child_xor id) (child_xor id) col_wide 1 40)
           (xor_checksum (child_xor id) (child_xor id) col_wide 40 90).
Proof.
  assert (H1 : well_formed col_wide = true) by evaluate.
  assert (H2 : (1 ≤ 40)%nat) by lia.
  assert (H3 : (40 ≤ 90)%nat) by lia.
  assert (H4 : (90 ≤ size col_wide)%nat) by evaluate.
  assert (H5 : ∀ (c : list (option Z)) a b d, 0 ≤ a ≤ b → b ≤ d →
     child_xor id c a d = Z.lxor (child_xor id c a b) (child_xor id c b d)).
  { intros c a b d. apply child_xor_split. }
  split_and!; [done..|].
  exact (proj2 (xor_checksum_rows (child_xor id) (child_xor id) col_wide 1 40 90
                  H1 H2 H3 H4 H5 H5)).
Defined.

Lemma element_memory_usage_args_witness :
  well_formed col_abcd = true ∧ (2 + 2 ≤ size col_abcd)%nat ∧
  element_memory_usage_child_args col_abcd 2 2 =
    (elements (take 2 (rows col_abcd)), elements (take (2 + 2) (rows col_abcd))) ∧
  byte_size_child_args col_abcd 2 2 =
    (elements (take 2 (rows col_abcd)), elements (take 2 (drop 2 (rows col_abcd)))).
Proof.
  assert (H1 : well_formed col_abcd = true) by evaluate.
  assert (H2 : (2 + 2 ≤ size col_abcd)%nat) by evaluate.
  destruct (element_memory_usage_args col_abcd 2 2 H1 H2) as (Hmem & Hbyte & _).
  by split_and!.
Defined.

Lemma debug_string_rows_witness :
  well_formed col_abcd = true ∧
  (∀ (c : list (option string)) i x,
     c !! i = Some x → child_text key_text c (Z.of_nat i) = key_text x) ∧
  (∀ (c : list (option Z)) i x,
     c !! i = Some x → child_text digit_text c (Z.of_nat i) = digit_text x) ∧
  debug_string (child_text key_text) (child_text digit_text) col_abcd =
    String.concat ", " (row_text key_text digit_text <$> rows col_abcd).
Proof.
  assert (H1 : well_formed col_abcd = true) by evaluate.
  assert (H2 : ∀ (c : list (option string)) i x,
     c !! i = Some x → child_text key_text c (Z.of_nat i) = key_text x).
  { intros c i x Hx. unfold child_text. by rewrite Nat2Z.id, Hx. }
  assert (H3 : ∀ (c : list (option Z)) i x,
     c !! i = Some x → child_text digit_text c (Z.of_nat i) = digit_text x).
  { intros c i x Hx. unfold child_text. by rewrite Nat2Z.id, Hx. }
  split_and!; [done..|].
  exact (proj2 (debug_string_rows (child_text key_text) (child_text digit_text)
                  key_text digit_text col_abcd H1 H2 H3)).
Defined.

(** The texts of the example column. *)
Example debug_string_example :
  debug_string (child_text key_text) (child_text digit_text) col_abcd =
  "{a:1}, {}, {b:2, c:3}, {}, {d:4}"%string.
Proof. by vm_compute. Qed.

(** [assign] rebuilds the row from its datum: of the row
    [{1:10, null:11, 1:12}] it keeps the one pair that [get] returns. *)
Example assign_example :
  rows (assign col_dup 2 0) = [[(Some 1, Some 12)]; [(Some 1, Some 12)]].
Proof. by vm_compute. Qed.

(** [fill_default] compares the mask byte with [1]: the byte [2] leaves its
    row alone. *)
Example fill_default_example :
  rows (fill_default col_abcd [1; 1; 2; 0]) =
  [[]; []; [(Some "b"%string, Some 2); (Some "c"%string, Some 3)]; [];
   [(Some "d"%string, Some 4)]].
Proof. by vm_compute. Qed.

Lemma filter_range_count_witness :
  well_formed col_wide = true ∧ (2 ≤ size col_wide)%nat ∧
  (size col_wide ≤ length mask_wide)%nat ∧
  Forall (λ b, 0 ≤ b < 128) mask_wide ∧
  (filter_range true col_wide mask_wide 2 (size col_wide)).2 =
    (2 + length (base.filter (λ b : Z, b ≠ 0%Z)
                   (take (size col_wide - 2) (drop 2 mask_wide))))%nat.
Proof.
  assert (H1 : well_formed col_wide = true) by evaluate.
  assert (H2 : (2 ≤ size col_wide)%nat) by evaluate.
  assert (H3 : (size col_wide ≤ length mask_wide)%nat) by evaluate.
  assert (H4 : Forall (λ b, 0 ≤ b < 128) mask_wide) by evaluate.
  split_and!; [done..|].
  exact (filter_range_count true col_wide mask_wide 2 H1 H2 H3 (λ _, H4)).
Defined.

Lemma serialize_batch_presized_witness :
  well_formed col_bytes = true ∧ (3 ≤ size col_bytes)%nat ∧
  (∀ i, (i < 3)%nat → Z.of_nat (length (serialize col_bytes i).1) < 2 ^ 32) ∧
  Z.of_nat 3 * max_one_element_serialize_size col_bytes ≤ Z.of_nat (length (replicate 42 0)) ∧
  Z.of_nat (length (replicate 42 0)) < 2 ^ 64 ∧
  at_ (serialize_batch col_bytes (replicate 42 0) (replicate 3 0) 3
                       (max_one_element_serialize_size col_bytes)).2 2 =
    serialize_size col_bytes 2.
Proof.
  assert (H1 : well_formed col_bytes = true) by evaluate.
  assert (H2 : (3 ≤ size col_bytes)%nat) by evaluate.
  assert (H3 : ∀ i, (i < 3)%nat → Z.of_nat (length (serialize col_bytes i).1) < 2 ^ 32).
  { intros [|[|[|i]]] Hi; [vm_compute; reflexivity..|lia]. }
  assert (H4 : Z.of_nat 3 * max_one_element_serialize_size col_bytes ≤
               Z.of_nat (length (replicate 42 0))) by evaluate.
  assert (H5 : Z.of_nat (length (replicate 42 0)) < 2 ^ 64) by evaluate.
  split_and!; [done..|].
  exact (proj2 (serialize_batch_presized col_bytes (replicate 42 0) 3 H1 H2 H3 H4 H5
                  2%nat ltac:(lia))).
Defined.
